(** * Movie Explorer client: request, cache and profile coordination

    A shallow embedding of the parts of [src/main.js] that the
    specification talks about: the profile mutators ([addToHistory],
    [rateMovie]), the poster selection ([getMoviePoster]), the local
    suggestion list ([getImmediateSuggestions]), the two request caches and
    their keys, and the asynchronous search / suggestion / recommendation
    flows with their abort controllers and debounce timers.  The last part
    of the file covers further functions of [src/main.js]: the watchlist
    toggle, the profile form, [movieNeedsPoster], [getPosterUrl],
    [buildApiUrl], [enrichMoviePosters], the keyboard navigation of the
    suggestions, and the behaviour of the flows as a whole (Safe Mode, the
    refresh of the personalised recommendations, the loading spinner).

    Conventions of the embedding:
    - a JavaScript string is a [string] of ASCII characters (code units
      below 128), so that [length], [toLowerCase], [trim] and the URL
      encoding work character by character;
    - a movie id is an integer ([Z]);
    - a JavaScript array is a [list]; a [Map] keyed by strings is a
      [gmap string _];
    - time is [Date.now()] in milliseconds, a [Z]. *)

From Stdlib Require Import ZArith Ascii String List Lia Bool.
From stdpp Require Import base decidable option list gmap strings.

Local Open Scope Z_scope.

(** ** JavaScript string primitives *)

Module JS.

(** [WhiteSpace] and [LineTerminator] code units below 128: TAB, LF, VT,
    FF, CR and SPACE. *)
Definition isWhiteSpace (c : ascii) : bool :=
  match c with
  | "009" | "010" | "011" | "012" | "013" | " " => true
  | _ => false
  end%char.

Definition isUpper (c : ascii) : bool :=
  let n := N_of_ascii c in ((65 <=? n) && (n <=? 90))%N.

Definition lowerChar (c : ascii) : ascii :=
  if isUpper c then ascii_of_N (N_of_ascii c + 32) else c.

(** [String.prototype.toLowerCase] *)
Fixpoint toLowerCase (s : string) : string :=
  match s with
  | EmptyString => EmptyString
  | String c s' => String (lowerChar c) (toLowerCase s')
  end.

Fixpoint trimStart (s : string) : string :=
  match s with
  | EmptyString => EmptyString
  | String c s' => if isWhiteSpace c then trimStart s' else s
  end.

Fixpoint trimEnd (s : string) : string :=
  match s with
  | EmptyString => EmptyString
  | String c s' =>
      match trimEnd s' with
      | EmptyString => if isWhiteSpace c then EmptyString else String c EmptyString
      | r => String c r
      end
  end.

(** [String.prototype.trim] *)
Definition trim (s : string) : string := trimEnd (trimStart s).

(** [s.startsWith(p)] *)
Definition startsWith (p s : string) : bool := String.prefix p s.

(** [s.includes(needle)] *)
Fixpoint includes (needle s : string) : bool :=
  String.prefix needle s ||
  match s with
  | EmptyString => false
  | String _ s' => includes needle s'
  end.

(** [arr.join(sep)] *)
Definition join (sep : string) (l : list string) : string := String.concat sep l.

(** [s.replace(/^\/+/, '')] *)
Fixpoint stripLeadingSlashes (s : string) : string :=
  match s with
  | String "/" s' => stripLeadingSlashes s'
  | _ => s
  end.

(** Truthiness of a string: only the empty string is falsy. *)
Definition truthy (s : string) : bool :=
  match s with EmptyString => false | _ => true end.

(** [Array.prototype.slice(0, n)] *)
Definition slice0 {A} (n : nat) (l : list A) : list A := take n l.

End JS.

(** ** Configuration ([src/config.js], browser defaults) *)

Definition IMAGE_BASE_URL : string := "https://image.tmdb.org/t/p/w500".
Definition FALLBACK_POSTER_URL : string :=
  "https://dummyimage.com/500x750/1f2937/9ca3af&text=No+Poster".

(** [let CACHE_TTL_MS = 30000] in [src/main.js]. *)
Definition CACHE_TTL_MS : Z := 30000.

(** ** Movies *)

(** A poster reference as it comes out of JSON: absent, [null] or a string. *)
Inductive jsval :=
| JUndefined
| JNull
| JStr (s : string).

Record Movie := mkMovie {
  id : Z;
  title : string;
  adult : bool;
  poster_path : jsval;
  poster : jsval;
  posterUrl : jsval;
  poster_url : jsval;
  image_url : jsval;
  image : jsval;
  poster_path_hq : jsval;
  backdrop_path : jsval
}.

(** An object literal [{ title, id }] as in [commonMovies]. *)
Definition titled (t : string) (i : Z) : Movie :=
  mkMovie i t false JUndefined JUndefined JUndefined JUndefined
          JUndefined JUndefined JUndefined JUndefined.

(** What [getMoviePoster] may be handed as its argument. *)
Inductive jsarg :=
| ArgUndefined
| ArgNull
| ArgPrimitive          (* a number, string, boolean: [typeof] is not 'object' *)
| ArgObject (m : Movie).

(** ** Profile *)

Record Profile := mkProfile {
  name : string;
  age : Z;
  safe_mode : bool;
  language : list string;
  mood : string;
  region : string;
  watchlist : list Movie;
  history : list Z;
  liked_movies : list Z;
  disliked_movies : list Z
}.

(** [let userProfile = { ... }] at the top of [src/main.js]. *)
Definition defaultProfile : Profile :=
  {| name := "User"; age := 25; safe_mode := true; language := ["en"];
     mood := "happy"; region := "US"; watchlist := []; history := [];
     liked_movies := []; disliked_movies := [] |}.

Definition set_history (h : list Z) (p : Profile) : Profile :=
  {| name := name p; age := age p; safe_mode := safe_mode p;
     language := language p; mood := mood p; region := region p;
     watchlist := watchlist p; history := h;
     liked_movies := liked_movies p; disliked_movies := disliked_movies p |}.

Definition set_ratings (l d : list Z) (p : Profile) : Profile :=
  {| name := name p; age := age p; safe_mode := safe_mode p;
     language := language p; mood := mood p; region := region p;
     watchlist := watchlist p; history := history p;
     liked_movies := l; disliked_movies := d |}.

Definition set_watchlist (w : list Movie) (p : Profile) : Profile :=
  {| name := name p; age := age p; safe_mode := safe_mode p;
     language := language p; mood := mood p; region := region p;
     watchlist := w; history := history p;
     liked_movies := liked_movies p; disliked_movies := disliked_movies p |}.

Definition set_mood (m : string) (p : Profile) : Profile :=
  {| name := name p; age := age p; safe_mode := safe_mode p;
     language := language p; mood := m; region := region p;
     watchlist := watchlist p; history := history p;
     liked_movies := liked_movies p; disliked_movies := disliked_movies p |}.

Definition set_language (l : list string) (p : Profile) : Profile :=
  {| name := name p; age := age p; safe_mode := safe_mode p;
     language := l; mood := mood p; region := region p;
     watchlist := watchlist p; history := history p;
     liked_movies := liked_movies p; disliked_movies := disliked_movies p |}.

(** [arr.includes(x)] on an array of ids. *)
Definition includesId (x : Z) (l : list Z) : bool := bool_decide (x ∈ l).

(** [addToHistory(movieId)], on the [history] array. *)
Definition addToHistory_list (movieId : Z) (h : list Z) : list Z :=
  if negb (includesId movieId h) then
    let h1 := movieId :: h in                              (* unshift *)
    if (100 <? Z.of_nat (length h1)) then JS.slice0 100 h1 else h1
  else h.

Definition addToHistory (movieId : Z) (p : Profile) : Profile :=
  set_history (addToHistory_list movieId (history p)) p.

(** [rateMovie(movieId, liked)], the profile part (the recommendation refresh
    it triggers is in the event model below). *)
Definition rateMovie (movieId : Z) (liked : bool) (p : Profile) : Profile :=
  if liked then
    let l := if negb (includesId movieId (liked_movies p))
             then liked_movies p ++ [movieId] else liked_movies p in
    set_ratings l (filter (λ i, i ≠ movieId) (disliked_movies p)) p
  else
    let d := if negb (includesId movieId (disliked_movies p))
             then disliked_movies p ++ [movieId] else disliked_movies p in
    set_ratings (filter (λ i, i ≠ movieId) (liked_movies p)) d p.

(** [toggleWatchlist(movie)]: [findIndex] by id, then [push] or [splice]. *)
Fixpoint findIndexId (i : Z) (l : list Movie) : option nat :=
  match l with
  | [] => None
  | m :: l' => if bool_decide (id m = i) then Some 0%nat
               else S <$> findIndexId i l'
  end.

Definition toggleWatchlist (movie : Movie) (p : Profile) : Profile :=
  match findIndexId (id movie) (watchlist p) with
  | None => set_watchlist (watchlist p ++ [movie]) p
  | Some k => set_watchlist (delete k (watchlist p)) p
  end.

(** [saveProfile()], on the values read from the form; [formAge] is [None]
    when [parseInt] gives [NaN].  An invalid age, or an age under 18 with
    Safe Mode off, leaves the profile as it is. *)
Definition saveProfile (formName : string) (formAge : option Z) (formRegion : string)
    (safeMode : bool) (languages : list string) (p : Profile) : Profile :=
  match formAge with
  | None => p
  | Some a =>
      if (a =? 0) || (a <? 13) || (100 <? a) then p
      else if (a <? 18) && negb safeMode then p
      else
        {| name := if JS.truthy formName then formName else "User";
           age := a;
           safe_mode := safeMode;
           language := if (0 <? Z.of_nat (length languages)) then languages else ["en"];
           mood := mood p; region := formRegion;
           watchlist := watchlist p; history := history p;
           liked_movies := liked_movies p; disliked_movies := disliked_movies p |}
  end.

(** The profile mutations of [src/main.js]: history insertion, rating,
    watchlist toggle, mood buttons, language selector, profile form. *)
Inductive Mutation :=
| MAddToHistory (movieId : Z)
| MRate (movieId : Z) (liked : bool)
| MToggleWatchlist (movie : Movie)
| MSetMood (m : string)
| MSetLanguage (l : list string)
| MSaveProfile (formName : string) (formAge : option Z) (formRegion : string)
    (safeMode : bool) (languages : list string).

Definition mutate (m : Mutation) (p : Profile) : Profile :=
  match m with
  | MAddToHistory i => addToHistory i p
  | MRate i b => rateMovie i b p
  | MToggleWatchlist mv => toggleWatchlist mv p
  | MSetMood s => set_mood s p
  | MSetLanguage l => set_language l p
  | MSaveProfile n a r s l => saveProfile n a r s l p
  end.

Definition mutations (ms : list Mutation) (p : Profile) : Profile :=
  foldl (λ q m, mutate m q) p ms.

(** ** Posters: [getMoviePoster] *)

(** [!candidate] is false only for a non-empty string. *)
Definition jsTruthy (v : jsval) : bool :=
  match v with JStr s => JS.truthy s | _ => false end.

(** [String(candidate)] *)
Definition jsToString (v : jsval) : string :=
  match v with JUndefined => "undefined" | JNull => "null" | JStr s => s end.

Definition candidates (movie : Movie) : list jsval :=
  [ poster_path movie; poster movie; posterUrl movie; poster_url movie;
    image_url movie; image movie; poster_path_hq movie; backdrop_path movie ].

(** The second [continue] of the loop: [!raw || raw === 'null' || ...]. *)
Definition skippedRaw (raw : string) : bool :=
  negb (JS.truthy raw) || String.eqb raw "null" || String.eqb raw "None"
  || String.eqb raw "undefined" || String.eqb (JS.toLowerCase raw) "nan".

(** The chain of [return]s taken for a usable [raw]. *)
Definition posterFromRaw (raw : string) : string :=
  if JS.startsWith "data:image" raw then raw
  else if JS.startsWith "http" raw then raw
  else if JS.startsWith "//" raw then "https:" +:+ raw
  else if JS.includes "image.tmdb.org" raw then
         (if JS.startsWith "http" raw then raw else "https:" +:+ raw)
  else if JS.startsWith "/" raw then IMAGE_BASE_URL +:+ raw
  else IMAGE_BASE_URL +:+ "/" +:+ JS.stripLeadingSlashes raw.

(** The [for (const candidate of candidates)] loop: [Some url] when the body
    returns, [None] when the loop runs to its end. *)
Fixpoint posterLoop (cs : list jsval) : option string :=
  match cs with
  | [] => None
  | candidate :: rest =>
      if negb (jsTruthy candidate) then posterLoop rest
      else
        let raw := JS.trim (jsToString candidate) in
        if skippedRaw raw then posterLoop rest
        else Some (posterFromRaw raw)
  end.

Definition getMoviePoster (movie : jsarg) : string :=
  match movie with
  | ArgObject m =>
      match posterLoop (candidates m) with
      | Some url => url
      | None => FALLBACK_POSTER_URL
      end
  | _ => FALLBACK_POSTER_URL
  end.

(** A candidate the loop does not skip, with the trimmed text it yields. *)
Definition usable (v : jsval) : option string :=
  if jsTruthy v then
    let raw := JS.trim (jsToString v) in
    if skippedRaw raw then None else Some raw
  else None.

(** ** Local suggestions: [getImmediateSuggestions] *)

Definition commonMovies : list Movie :=
  [ titled "The Dark Knight" 155;
    titled "Inception" 27205;
    titled "Interstellar" 157336;
    titled "The Matrix" 603;
    titled "Pulp Fiction" 680;
    titled "The Godfather" 238;
    titled "Avatar" 19995;
    titled "Titanic" 597;
    titled "Star Wars" 11;
    titled "The Avengers" 24428 ].

Definition getImmediateSuggestions (query : string) : list Movie :=
  let queryLower := JS.toLowerCase query in
  JS.slice0 4
    (List.filter (λ movie, JS.includes queryLower (JS.toLowerCase (title movie)))
                 commonMovies).

(** ** Cache keys *)

(** [URLSearchParams]: an ordered list of name/value pairs, serialised by
    the application/x-www-form-urlencoded rules. *)
Module URLSearchParams.

Definition t := list (string * string).

Definition has (k : string) (p : t) : bool :=
  existsb (λ kv, String.eqb (fst kv) k) p.

Fixpoint replaceFirst (k v : string) (p : t) : t :=
  match p with
  | [] => []
  | (k', v') :: p' =>
      if String.eqb k' k
      then (k, v) :: List.filter (λ kv, negb (String.eqb (fst kv) k)) p'
      else (k', v') :: replaceFirst k v p'
  end.

(** [params.set(k, v)] *)
Definition set (k v : string) (p : t) : t :=
  if has k p then replaceFirst k v p else p ++ [(k, v)].

Definition hexDigit (n : N) : ascii :=
  if (n <? 10)%N then ascii_of_N (48 + n) else ascii_of_N (55 + n).

(** Bytes the serialiser leaves as they are: [*], [-], [.], [_], digits
    and ASCII letters. *)
Definition unreserved (c : ascii) : bool :=
  let n := N_of_ascii c in
  ((n =? 42) || (n =? 45) || (n =? 46) || (n =? 95)
   || ((48 <=? n) && (n <=? 57))
   || ((65 <=? n) && (n <=? 90))
   || ((97 <=? n) && (n <=? 122)))%N.

Definition encodeChar (c : ascii) : string :=
  if unreserved c then String c EmptyString
  else if (N_of_ascii c =? 32)%N then "+"
  else String "%" (String (hexDigit (N_of_ascii c / 16))
                    (String (hexDigit (N_of_ascii c mod 16)) EmptyString)).

Fixpoint encode (s : string) : string :=
  match s with
  | EmptyString => EmptyString
  | String c s' => encodeChar c +:+ encode s'
  end.

(** [params.toString()] *)
Definition toString (p : t) : string :=
  JS.join "&" (map (λ kv, encode (fst kv) +:+ "=" +:+ encode (snd kv)) p).

End URLSearchParams.

(** The key built in [getSearchSuggestions]:
    [`${query}|${(userProfile.language||[]).join(',')}|${userProfile.safe_mode?'1':'0'}`] *)
Definition suggestionCacheKey (query : string) (langs : list string) (safe : bool) : string :=
  query +:+ "|" +:+ JS.join "," langs +:+ "|" +:+ (if safe then "1" else "0").

(** The parameters built in [searchMovies]; the key is their [toString()]. *)
Definition searchParams (query : string) (langs : list string) (safe : bool)
  : URLSearchParams.t :=
  let params := URLSearchParams.set "query" query [] in
  let params := if safe then URLSearchParams.set "safe_mode" "true" params else params in
  let params := if (0 <? Z.of_nat (length langs))
                then URLSearchParams.set "languages" (JS.join "," langs) params
                else params in
  URLSearchParams.set "limit" "10" params.

Definition searchCacheKey (query : string) (langs : list string) (safe : bool) : string :=
  URLSearchParams.toString (searchParams query langs safe).

(** The parameters of the suggestion request (limit 6). *)
Definition suggestionParams (query : string) (langs : list string) (safe : bool)
  : URLSearchParams.t :=
  let params := URLSearchParams.set "query" query [] in
  let params := URLSearchParams.set "limit" "6" params in
  let params := if safe then URLSearchParams.set "safe_mode" "true" params else params in
  if (0 <? Z.of_nat (length langs))
  then URLSearchParams.set "languages" (JS.join "," langs) params
  else params.

(** ** The asynchronous flows

    The browser is single threaded: an event handler, a timer callback or
    the continuation of an [await] runs to its next [await] without
    interleaving.  The model keeps the module-level variables of
    [src/main.js], the timer table and the suspended [async] functions in
    one [World], and logs the observable effects. *)

Inductive Channel := ChSuggestions | ChSearch | ChRecs.

#[export] Instance Channel_eq_dec : EqDecision Channel.
Proof. solve_decision. Defined.

(** What [response.json()] produced: an array of movies, or some other JSON
    object (whose [length] is [undefined]). *)
Inductive Json := JArray (l : list Movie) | JOther.

(** How a [fetch] ends when it is not aborted. *)
Inductive Response := RJson (j : Json) | RFail.

Record CacheEntry (A : Type) := mkEntry { results : A; time : Z }.
Arguments mkEntry {A}.
Arguments results {A}.
Arguments time {A}.

(** A request to the backend ([config.BACKEND_BASE_URL]): [/search],
    [/recommendations] and [/recommendations/user]. *)
Inductive Request :=
| ReqSearch (params : URLSearchParams.t)
| ReqRecommendations (movie_id : Z) (safe : bool) (languages : list string)
| ReqUserRecommendations (mood : string) (language : list string)
    (liked disliked : list Z) (watch : list Z).

Inductive Container := SearchMovies | RecommendationMovies | UserRecommendationMovies.

(** Content of the [user-recommendation-movies] container. *)
Inductive UserRecsView :=
| URInitial | URLoading | URMovies (l : list Movie) | URHint | URError.

Record Dom := mkDom {
  suggestionsHidden : bool;           (* #search-suggestions has class hidden *)
  suggestionsContent : list Movie;    (* #suggestions-content; [] is "No movies found" *)
  searchSectionHidden : bool;         (* #search-results *)
  searchMoviesContent : list Movie;   (* #search-movies *)
  recommendationsHidden : bool;       (* #recommendations *)
  recommendationMoviesContent : list Movie;   (* #recommendation-movies *)
  userRecommendations : UserRecsView;
  spinnerHidden : bool;               (* #loading-spinner *)
  searchInputValue : string;          (* #search-input: its value *)
  searchInputFocused : bool;          (* #search-input is the active element *)
  suggestionHovered : bool            (* a .search-suggestion-item matches :hover *)
}.

Inductive Callback :=
| CbSuggest (query : string)          (* () => getSearchSuggestions(query) *)
| CbUserRecs                          (* the callback of loadPersonalizedRecommendations *)
| CbBlur.                             (* the callback of the ['blur'] listener *)

(** A pending [setTimeout]; the ids the browser hands out are positive. *)
Record Timer := mkTimer { timerId : positive; due : Z; callback : Callback }.

(** An [async] function suspended at an [await]. *)
Inductive Task :=
| TSuggestFetch (cacheKey : string) (signal : option nat)
| TSearchFetch (cacheKey : string) (signal : option nat)
| TSearchDisplay (top : Movie)
| TRecsFetch (signal : option nat)
| TRecsDisplay
| TUserRecsFetch
| TUserRecsDisplay.

Inductive Effect :=
| EAbort (controller : nat)
| ENewController (ch : Channel) (controller : nat)
| EFetch (request : nat) (req : Request) (signal : option nat)
| ESuggestionCacheGet (key : string)
| ESuggestionCacheSet (key : string)
| ESearchCacheGet (key : string)
| ESearchCacheSet (key : string)
| ESuggestionsQuery (at_time : Z) (query : string)
| EDisplaySuggestions (l : list Movie)
| EHideSuggestions
| EDisplayMovies (c : Container) (l : list Movie)
| ESaveUserProfile
| ESetTimeout (timer : positive) (delay : Z)
| EClearTimeout (timer : positive)
| EConsoleError.

Record World := mkWorld {
  now : Z;
  userProfile : Profile;
  searchResultCache : gmap string (CacheEntry Json);
  suggestionCache : gmap string (CacheEntry (list Movie));
  currentSuggestions : list Movie;
  suggestionsController : option nat;
  searchController : option nat;
  recsController : option nat;
  controllers : list bool;            (* the AbortControllers made so far: signal.aborted *)
  searchTimeout : option positive;
  recsDebounceTimeout : option positive;
  timers : list Timer;                (* pending timers, in firing order *)
  nextTimer : positive;
  inflight : list (nat * Task);       (* suspended async functions, by request number *)
  nextRequest : nat;
  dom : Dom;
  log : list Effect                   (* newest first *)
}.

Definition initialDom : Dom :=
  mkDom true [] true [] true [] URInitial true "" false false.

Definition initialWorld : World :=
  mkWorld 0 defaultProfile ∅ ∅ [] None None None [] None None [] 1%positive [] 0%nat
          initialDom [].

(** The effects in the order they happened. *)
Definition trace (w : World) : list Effect := reverse (log w).

(** *** Field updates *)

Definition emit (e : Effect) (w : World) : World :=
  let '(mkWorld a b c d e0 f g h i j k l m n o p q) := w in
  mkWorld a b c d e0 f g h i j k l m n o p (e :: q).

Definition setNow (t : Z) (w : World) : World :=
  let '(mkWorld a b c d e f g h i j k l m n o p q) := w in
  mkWorld t b c d e f g h i j k l m n o p q.

Definition setProfile (x : Profile) (w : World) : World :=
  let '(mkWorld a b c d e f g h i j k l m n o p q) := w in
  mkWorld a x c d e f g h i j k l m n o p q.

Definition setSearchResultCache (x : gmap string (CacheEntry Json)) (w : World) : World :=
  let '(mkWorld a b c d e f g h i j k l m n o p q) := w in
  mkWorld a b x d e f g h i j k l m n o p q.

Definition setSuggestionCache (x : gmap string (CacheEntry (list Movie))) (w : World) : World :=
  let '(mkWorld a b c d e f g h i j k l m n o p q) := w in
  mkWorld a b c x e f g h i j k l m n o p q.

Definition setCurrentSuggestions (x : list Movie) (w : World) : World :=
  let '(mkWorld a b c d e f g h i j k l m n o p q) := w in
  mkWorld a b c d x f g h i j k l m n o p q.

Definition setController (ch : Channel) (x : option nat) (w : World) : World :=
  let '(mkWorld a b c d e f g h i j k l m n o p q) := w in
  match ch with
  | ChSuggestions => mkWorld a b c d e x g h i j k l m n o p q
  | ChSearch => mkWorld a b c d e f x h i j k l m n o p q
  | ChRecs => mkWorld a b c d e f g x i j k l m n o p q
  end.

Definition setControllers (x : list bool) (w : World) : World :=
  let '(mkWorld a b c d e f g h i j k l m n o p q) := w in
  mkWorld a b c d e f g h x j k l m n o p q.

Definition setSearchTimeout (x : option positive) (w : World) : World :=
  let '(mkWorld a b c d e f g h i j k l m n o p q) := w in
  mkWorld a b c d e f g h i x k l m n o p q.

Definition setRecsDebounceTimeout (x : option positive) (w : World) : World :=
  let '(mkWorld a b c d e f g h i j k l m n o p q) := w in
  mkWorld a b c d e f g h i j x l m n o p q.

Definition setTimers (x : list Timer) (n' : positive) (w : World) : World :=
  let '(mkWorld a b c d e f g h i j k l m n o p q) := w in
  mkWorld a b c d e f g h i j k x n' n o p q.

Definition setInflight (x : list (nat * Task)) (o' : nat) (w : World) : World :=
  let '(mkWorld a b c d e f g h i j k l m n o p q) := w in
  mkWorld a b c d e f g h i j k l m x o' p q.

Definition setDom (x : Dom) (w : World) : World :=
  let '(mkWorld a b c d e f g h i j k l m n o p q) := w in
  mkWorld a b c d e f g h i j k l m n o x q.

Definition controllerOf (ch : Channel) (w : World) : option nat :=
  match ch with
  | ChSuggestions => suggestionsController w
  | ChSearch => searchController w
  | ChRecs => recsController w
  end.

(** *** DOM updates *)

Definition setSuggestionsPanel (hidden : bool) (content : list Movie) (d : Dom) : Dom :=
  let '(mkDom _ _ c e f g h i x y z) := d in mkDom hidden content c e f g h i x y z.

Definition setSearchSectionHidden (b : bool) (d : Dom) : Dom :=
  let '(mkDom a b0 _ e f g h i x y z) := d in mkDom a b0 b e f g h i x y z.

Definition setSearchMoviesContent (l : list Movie) (d : Dom) : Dom :=
  let '(mkDom a b c _ f g h i x y z) := d in mkDom a b c l f g h i x y z.

Definition setRecommendationsHidden (b : bool) (d : Dom) : Dom :=
  let '(mkDom a b0 c e _ g h i x y z) := d in mkDom a b0 c e b g h i x y z.

Definition setRecommendationMoviesContent (l : list Movie) (d : Dom) : Dom :=
  let '(mkDom a b c e f _ h i x y z) := d in mkDom a b c e f l h i x y z.

Definition setUserRecommendations (v : UserRecsView) (d : Dom) : Dom :=
  let '(mkDom a b c e f g _ i x y z) := d in mkDom a b c e f g v i x y z.

Definition setSpinnerHidden (b : bool) (d : Dom) : Dom :=
  let '(mkDom a b0 c e f g h _ x y z) := d in mkDom a b0 c e f g h b x y z.

(** The search box as the browser has it when it dispatches an ['input'] or
    a ['focus'] event: the value the listener reads, and the focus. *)
Definition setSearchInput (value : string) (focused : bool) (d : Dom) : Dom :=
  let '(mkDom a b c e f g h i _ _ z) := d in mkDom a b c e f g h i value focused z.

Definition setSearchInputValue (value : string) (d : Dom) : Dom :=
  let '(mkDom a b c e f g h i _ y z) := d in mkDom a b c e f g h i value y z.

Definition setSearchInputFocused (focused : bool) (d : Dom) : Dom :=
  let '(mkDom a b c e f g h i x _ z) := d in mkDom a b c e f g h i x focused z.

Definition setSuggestionHovered (over : bool) (d : Dom) : Dom :=
  let '(mkDom a b c e f g h i x y _) := d in mkDom a b c e f g h i x y over.

Definition updDom (f : Dom → Dom) (w : World) : World := setDom (f (dom w)) w.

(** [hideSuggestions()] *)
Definition hideSuggestions (w : World) : World :=
  emit EHideSuggestions
    (updDom (λ d, setSuggestionsPanel true (suggestionsContent d) d) w).

(** [displaySuggestions(suggestions)]: the panel is filled (with the
    "No movies found" notice for an empty list) and shown. *)
Definition displaySuggestions (suggestions : list Movie) (w : World) : World :=
  emit (EDisplaySuggestions suggestions)
    (updDom (setSuggestionsPanel false suggestions) w).

(** What [displayMovies(movies, containerId)] puts into the container: the
    Safe Mode filter, then the first ten. *)
Definition displayed (movies : list Movie) (w : World) : list Movie :=
  JS.slice0 10
    (List.filter (λ m, negb (safe_mode (userProfile w) && adult m)) movies).

(** [displayMovies(movies, containerId)], as the flows see it: which movies
    reach which container.  The caller is suspended until the returned
    promise resolves ([ADisplayDone] below).  In between the function shows
    skeleton cards, awaits [enrichMoviePosters] on the movies to show and
    waits for an animation frame; the enrichment sends requests to TMDB,
    not to the backend, and may fill in [poster_path], [backdrop_path] and
    [title] of the movies shown (it is modelled on its own, see
    [enrichMoviePosters] below).  The flows do not record these requests
    ([EFetch] is a request to the backend), and the container holds the
    movies as they were given: no statement about the flows speaks of the
    requests to TMDB, or of these three fields of a movie on the page. *)
Definition displayMovies (movies : list Movie) (c : Container) (w : World) : World :=
  let shown := displayed movies w in
  emit (EDisplayMovies c shown)
    (updDom (match c with
             | SearchMovies => setSearchMoviesContent shown
             | RecommendationMovies => setRecommendationMoviesContent shown
             | UserRecommendationMovies => setUserRecommendations (URMovies shown)
             end) w).

(** *** Abort controllers *)

Definition isAborted (c : nat) (w : World) : bool :=
  match controllers w !! c with Some b => b | None => false end.

(** [if (controller) controller.abort();] *)
Definition abortIfSet (ch : Channel) (w : World) : World :=
  match controllerOf ch w with
  | Some c => emit (EAbort c) (setControllers (<[c := true]> (controllers w)) w)
  | None => w
  end.

(** [controller = new AbortController();] *)
Definition newController (ch : Channel) (w : World) : World :=
  let c := length (controllers w) in
  emit (ENewController ch c)
    (setController ch (Some c) (setControllers (controllers w ++ [false]) w)).

(** *** Suspension points *)

(** The calling function waits at an [await]; request numbers name the
    suspended functions. *)
Definition suspend (t : Task) (w : World) : World :=
  setInflight (inflight w ++ [(nextRequest w, t)]) (S (nextRequest w)) w.

(** [await fetch(url, { signal })] *)
Definition fetch (req : Request) (signal : option nat) (t : Task) (w : World) : World :=
  suspend t (emit (EFetch (nextRequest w) req signal) w).

(** *** Timers *)

Fixpoint insertTimer (t : Timer) (l : list Timer) : list Timer :=
  match l with
  | [] => [t]
  | t' :: l' => if (due t' <=? due t) then t' :: insertTimer t l' else t :: l
  end.

(** [setTimeout(cb, delay)]; the new id is [nextTimer w]. *)
Definition setTimeout (cb : Callback) (delay : Z) (w : World) : World :=
  emit (ESetTimeout (nextTimer w) delay)
    (setTimers (insertTimer (mkTimer (nextTimer w) (now w + delay) cb) (timers w))
               (Pos.succ (nextTimer w)) w).

(** [clearTimeout(id)] *)
Definition clearTimeout (i : positive) (w : World) : World :=
  emit (EClearTimeout i)
    (setTimers (filter (λ t, timerId t ≠ i) (timers w)) (nextTimer w) w).

(** *** Caches *)

(** [cached && (Date.now() - cached.time) < CACHE_TTL_MS], as written in both
    [getSearchSuggestions] and [searchMovies]. *)
Definition cacheLookup {A} (cache : gmap string (CacheEntry A)) (key : string) (t : Z)
  : option A :=
  match cache !! key with
  | Some cached => if (t - time cached <? CACHE_TTL_MS) then Some (results cached) else None
  | None => None
  end.

(** [cache.set(key, { results, time: Date.now() })] *)
Definition cacheStore {A} (cache : gmap string (CacheEntry A)) (key : string) (r : A) (t : Z)
  : gmap string (CacheEntry A) :=
  <[key := mkEntry r t]> cache.

(** *** [getSearchSuggestions(query)] *)

(** The [try] block, up to [await fetch(...)]. *)
Definition suggestionsLookup (query : string) (w : World) : World :=
  let cacheKey :=
    suggestionCacheKey query (language (userProfile w)) (safe_mode (userProfile w)) in
  let w := emit (ESuggestionCacheGet cacheKey) w in
  match cacheLookup (suggestionCache w) cacheKey (now w) with
  | Some cached =>
      displaySuggestions cached (setCurrentSuggestions cached w)
  | None =>
      let w := abortIfSet ChSuggestions w in
      let w := newController ChSuggestions w in
      fetch (ReqSearch (suggestionParams query (language (userProfile w))
                                         (safe_mode (userProfile w))))
            (suggestionsController w)
            (TSuggestFetch cacheKey (suggestionsController w)) w
  end.

Definition getSearchSuggestions (query : string) (w : World) : World :=
  if negb (JS.truthy (JS.trim query)) || (String.length query <? 2)%nat then
    hideSuggestions w
  else if (String.length query <=? 3)%nat then
    let immediateSuggestions := getImmediateSuggestions query in
    if (0 <? Z.of_nat (length immediateSuggestions)) then
      displaySuggestions immediateSuggestions
        (setCurrentSuggestions immediateSuggestions w)
    else suggestionsLookup query w
  else suggestionsLookup query w.

(** The [catch] block of [getSearchSuggestions]. *)
Definition suggestionsCatch (w : World) : World :=
  displaySuggestions [] (setCurrentSuggestions [] (emit EConsoleError w)).

(** [getSearchSuggestions] resumed with the outcome of its [fetch]. *)
Definition suggestionsResume (cacheKey : string) (r : Response) (w : World) : World :=
  match r with
  | RJson (JArray results) =>
      let w := displaySuggestions results (setCurrentSuggestions results w) in
      emit (ESuggestionCacheSet cacheKey)
        (setSuggestionCache (cacheStore (suggestionCache w) cacheKey results (now w)) w)
  | RJson JOther => displaySuggestions [] (setCurrentSuggestions [] w)
  | RFail => suggestionsCatch w
  end.

(** *** The ['focus'] listener of the search input *)

(** The ['focus'] listener. *)
Definition onFocus (value : string) (w : World) : World :=
  let query := JS.trim value in
  if (2 <=? String.length query)%nat then
    if (String.length query <=? 3)%nat then
      let immediateSuggestions := getImmediateSuggestions query in
      if (0 <? Z.of_nat (length immediateSuggestions)) then
        displaySuggestions immediateSuggestions
          (setCurrentSuggestions immediateSuggestions w)
      else getSearchSuggestions query w
    else getSearchSuggestions query w
  else w.

(** [document.getElementById('search-input').focus()]: nothing when the box
    is the active element already; otherwise the box takes the focus and
    the ['focus'] event is dispatched at once, so that its listener runs
    inside the caller. *)
Definition focusSearchInput (w : World) : World :=
  if searchInputFocused (dom w) then w
  else onFocus (searchInputValue (dom w)) (updDom (setSearchInputFocused true) w).

(** *** [searchMovies(query)] *)

(** [addToHistory] on the module-level profile, with its [saveUserProfile]. *)
Definition addToHistoryW (movieId : Z) (w : World) : World :=
  if negb (includesId movieId (history (userProfile w))) then
    emit ESaveUserProfile (setProfile (addToHistory movieId (userProfile w)) w)
  else w.

(** The [catch] and [finally] blocks of [searchMovies]. *)
Definition searchFinally (w : World) : World := updDom (setSpinnerHidden true) w.
Definition searchCatch (w : World) : World := searchFinally (emit EConsoleError w).

(** From [const searchSection = ...] to the first [await] after it. *)
Definition searchResults (results : Json) (w : World) : World :=
  match results with
  | JArray (top :: rest) =>
      let w := addToHistoryW (id top) w in
      let w := updDom (setSearchSectionHidden false) w in
      let w := displayMovies (top :: rest) SearchMovies w in
      suspend (TSearchDisplay top) w
  | _ =>
      let w := updDom (setSearchSectionHidden true) w in
      let w := updDom (setRecommendationsHidden true) w in
      let w := focusSearchInput w in
      searchFinally w
  end.

Definition searchMovies (query : string) (w : World) : World :=
  if negb (JS.truthy (JS.trim query)) then w
  else
    let w := updDom (setSpinnerHidden false) w in
    let w := hideSuggestions w in
    let w := abortIfSet ChSearch w in
    let w := abortIfSet ChRecs w in
    let w := newController ChSearch w in
    let params := searchParams query (language (userProfile w)) (safe_mode (userProfile w)) in
    let cacheKey := URLSearchParams.toString params in
    let w := emit (ESearchCacheGet cacheKey) w in
    match cacheLookup (searchResultCache w) cacheKey (now w) with
    | Some results => searchResults results w
    | None =>
        fetch (ReqSearch params) (searchController w)
              (TSearchFetch cacheKey (searchController w)) w
    end.

(** [searchMovies] resumed with the outcome of its search [fetch]. *)
Definition searchResume (cacheKey : string) (r : Response) (w : World) : World :=
  match r with
  | RJson results =>
      let w := emit (ESearchCacheSet cacheKey)
                 (setSearchResultCache
                    (cacheStore (searchResultCache w) cacheKey results (now w)) w) in
      searchResults results w
  | RFail => searchCatch w
  end.

(** [searchMovies] resumed after [await displayMovies(results, 'search-movies')]. *)
Definition searchAfterDisplay (top : Movie) (w : World) : World :=
  let w := abortIfSet ChRecs w in
  let w := newController ChRecs w in
  fetch (ReqRecommendations (id top) (safe_mode (userProfile w)) (language (userProfile w)))
        (recsController w)
        (TRecsFetch (recsController w)) w.

(** [searchMovies] resumed with the outcome of the recommendation [fetch]. *)
Definition recsResume (r : Response) (w : World) : World :=
  match r with
  | RJson (JArray (m :: rest)) =>
      let w := updDom (setRecommendationsHidden false) w in
      let w := displayMovies (m :: rest) RecommendationMovies w in
      suspend TRecsDisplay w
  | RJson _ => searchFinally (updDom (setRecommendationsHidden true) w)
  | RFail => searchCatch w
  end.

(** *** [loadPersonalizedRecommendations()] *)

Definition loadPersonalizedRecommendations (w : World) : World :=
  let w := match recsDebounceTimeout w with
           | Some i => clearTimeout i w
           | None => w
           end in
  setRecsDebounceTimeout (Some (nextTimer w)) (setTimeout CbUserRecs 400 w).

(** The timer callback, up to [await fetchPersonalizedRecommendations()];
    that [fetch] is given no [signal]. *)
Definition userRecsCallback (w : World) : World :=
  let w := abortIfSet ChRecs w in
  let w := newController ChRecs w in
  let w := updDom (setUserRecommendations URLoading) w in
  let p := userProfile w in
  fetch (ReqUserRecommendations (mood p) (language p) (liked_movies p)
                                (disliked_movies p) (map id (watchlist p)))
        None TUserRecsFetch w.

(** [fetchPersonalizedRecommendations] answers an array, [[]] on any failure. *)
Definition userRecsResume (r : Response) (w : World) : World :=
  let recommendedMovies := match r with RJson (JArray l) => l | _ => [] end in
  if (0 <? Z.of_nat (length recommendedMovies)) then
    suspend TUserRecsDisplay (displayMovies recommendedMovies UserRecommendationMovies w)
  else updDom (setUserRecommendations URHint) w.

(** *** Profile actions *)

Definition rateMovieW (movieId : Z) (liked : bool) (w : World) : World :=
  let w := setProfile (rateMovie movieId liked (userProfile w)) w in
  let w := emit ESaveUserProfile w in
  loadPersonalizedRecommendations w.

(** *** Event listeners of the search input *)

(** The ['input'] listener. *)
Definition onInput (value : string) (w : World) : World :=
  let query := JS.trim value in
  let w := match searchTimeout w with
           | Some i => clearTimeout i w
           | None => w
           end in
  if negb (JS.truthy query) then hideSuggestions w
  else setSearchTimeout (Some (nextTimer w)) (setTimeout (CbSuggest query) 150 w).

(** The ['blur'] listener: [setTimeout(() => { ... }, 150)]. *)
Definition onBlur (w : World) : World := setTimeout CbBlur 150 w.

(** *** The event loop *)

(** The signal a suspended [fetch] was given. *)
Definition taskSignal (t : Task) : option nat :=
  match t with
  | TSuggestFetch _ s | TSearchFetch _ s | TRecsFetch s => s
  | _ => None
  end.

Definition taskAborted (w : World) (t : Task) : bool :=
  match taskSignal t with Some c => isAborted c w | None => false end.

(** A [fetch] whose signal is aborted rejects with an [AbortError]; the
    function that awaits it continues in its [catch] block. *)
Definition reject (t : Task) (w : World) : World :=
  match t with
  | TSuggestFetch _ _ => suggestionsCatch w
  | TSearchFetch _ _ | TRecsFetch _ => searchCatch w
  | _ => w
  end.

(** The rejections run once the current handler has reached its [await]. *)
Definition drainAborted (w : World) : World :=
  let rejected := List.filter (λ rt, taskAborted w (snd rt)) (inflight w) in
  let kept := List.filter (λ rt, negb (taskAborted w (snd rt))) (inflight w) in
  foldl (λ w rt, reject (snd rt) w) (setInflight kept (nextRequest w) w) rejected.

Definition findTask (r : nat) (w : World) : option Task :=
  snd <$> List.find (λ rt, Nat.eqb (fst rt) r) (inflight w).

Definition removeTask (r : nat) (w : World) : World :=
  setInflight (List.filter (λ rt, negb (Nat.eqb (fst rt) r)) (inflight w))
              (nextRequest w) w.

(** The network answers request [r]. *)
Definition deliver (r : nat) (resp : Response) (w : World) : World :=
  match findTask r w with
  | Some (TSuggestFetch cacheKey _) => suggestionsResume cacheKey resp (removeTask r w)
  | Some (TSearchFetch cacheKey _) => searchResume cacheKey resp (removeTask r w)
  | Some (TRecsFetch _) => recsResume resp (removeTask r w)
  | Some TUserRecsFetch => userRecsResume resp (removeTask r w)
  | _ => w
  end.

(** The promise of a [displayMovies] call resolves. *)
Definition displayDone (r : nat) (w : World) : World :=
  match findTask r w with
  | Some (TSearchDisplay top) => searchAfterDisplay top (removeTask r w)
  | Some TRecsDisplay => searchFinally (removeTask r w)
  | Some TUserRecsDisplay => removeTask r w
  | _ => w
  end.

Definition runCallback (cb : Callback) (w : World) : World :=
  match cb with
  | CbSuggest query =>
      getSearchSuggestions query (emit (ESuggestionsQuery (now w) query) w)
  | CbUserRecs => userRecsCallback w
  | CbBlur => if suggestionHovered (dom w) then w else hideSuggestions w
  end.

(** Timers that are due at time [t] fire in order, each at its due time. *)
Definition fireDue (t : Z) (w : World) : World :=
  let dueNow := List.filter (λ tm, due tm <=? t) (timers w) in
  let later := List.filter (λ tm, negb (due tm <=? t)) (timers w) in
  foldl (λ w tm, drainAborted (runCallback (callback tm) (setNow (Z.max (now w) (due tm)) w)))
        (setTimers later (nextTimer w) w) dueNow.

(** What happens on the page: the ['input'], ['focus'] and ['blur'] events of
    the search box (with the value the box has then), a call of
    [searchMovies], a click on a rating button, the answer to a request, the
    end of a [displayMovies], the passing of time, and the pointer entering
    or leaving the suggestion items. *)
Inductive Action :=
| AInput (value : string)
| AFocus (value : string)
| ASearch (query : string)
| ARate (movieId : Z) (liked : bool)
| AResponse (request : nat) (r : Response)
| ADisplayDone (request : nat)
| ATick
| ABlur
| AHover (over : bool).

Definition handle (a : Action) (w : World) : World :=
  match a with
  | AInput value => onInput value (updDom (setSearchInput value true) w)
  | AFocus value => onFocus value (updDom (setSearchInput value true) w)
  | ASearch query => searchMovies query w
  | ARate movieId liked => rateMovieW movieId liked w
  | AResponse r resp => deliver r resp w
  | ADisplayDone r => displayDone r w
  | ATick => w
  | ABlur => onBlur (updDom (setSearchInputFocused false) w)
  | AHover over => updDom (setSuggestionHovered over) w
  end.

(** One event at time [t]: the timers due by then, then the handler, then
    the rejections it caused. *)
Definition step (w : World) (ev : Z * Action) : World :=
  let w := fireDue (fst ev) w in
  let w := setNow (Z.max (now w) (fst ev)) w in
  drainAborted (handle (snd ev) w).

Definition run (evs : list (Z * Action)) (w : World) : World := foldl step w evs.

(** ** Predicates used in the statements *)

(** No id is both liked and disliked. *)
Definition disjointRatings (p : Profile) : Prop :=
  ∀ i, i ∈ liked_movies p → i ∉ disliked_movies p.

(** A poster value the loop of [getMoviePoster] passes over, in the words of
    the specification: absent, empty, or one of the literal strings "null",
    "None", "undefined", or "nan" in any letter case. *)
Definition skippedValue (v : jsval) : Prop :=
  match v with
  | JUndefined | JNull => True
  | JStr s =>
      let raw := JS.trim s in
      raw = "" ∨ raw = "null" ∨ raw = "None" ∨ raw = "undefined"
      ∨ JS.toLowerCase raw = "nan"
  end.

(** The trimmed text of the first candidate that is not passed over. *)
Definition firstUsable (cs : list jsval) : option string := head (omap usable cs).

(** Every character is white space. *)
Fixpoint allWhiteSpace (s : string) : bool :=
  match s with
  | EmptyString => true
  | String c s' => JS.isWhiteSpace c && allWhiteSpace s'
  end.

(** Two white-space characters in a row somewhere in the string. *)
Fixpoint adjacentWhiteSpace (s : string) : bool :=
  match s with
  | String a ((String b _) as s') =>
      (JS.isWhiteSpace a && JS.isWhiteSpace b) || adjacentWhiteSpace s'
  | _ => false
  end.

(** [c] occurs in [s]. *)
Fixpoint charIn (c : ascii) (s : string) : bool :=
  match s with
  | EmptyString => false
  | String x s' => Ascii.eqb x c || charIn c s'
  end.

(** A language code as the profile holds them (ISO 639-1 codes such as
    "en"): not empty, and free of the two separators used by the keys. *)
Definition wfLanguage (code : string) : Prop :=
  code ≠ "" ∧ charIn "," code = false ∧ charIn "|" code = false.

Definition wfLanguages (langs : list string) : Prop := Forall wfLanguage langs.

(** The value of a hexadecimal digit. *)
Definition hexValue (c : ascii) : N :=
  let n := N_of_ascii c in
  if (n <? 58)%N then (n - 48)%N else (n - 55)%N.

(** Reading a form-urlencoded string back. *)
Fixpoint urlDecode (s : string) : string :=
  match s with
  | EmptyString => EmptyString
  | String "+" r => String " " (urlDecode r)
  | String "%" (String h (String l r)) =>
      String (ascii_of_N (hexValue h * 16 + hexValue l)) (urlDecode r)
  | String c r => String c (urlDecode r)
  end.

(** *** Abort controllers in the log *)

Definition isCtl (e : Effect) : bool :=
  match e with ENewController _ _ | EAbort _ => true | _ => false end.

(** The controller effects of the log, newest first. *)
Definition ctlLog (w : World) : list Effect := List.filter isCtl (log w).

(** On a log read newest first: when a controller is made for a channel,
    every controller made for that channel before has already been
    aborted. *)
Fixpoint abortBeforeNew (l : list Effect) : Prop :=
  match l with
  | [] => True
  | e :: older =>
      match e with
      | ENewController ch _ =>
          ∀ c', ENewController ch c' ∈ older → EAbort c' ∈ older
      | _ => True
      end ∧ abortBeforeNew older
  end.

(** What the flows maintain about the controllers. *)
Record CtlInv (w : World) : Prop := mkCtlInv {
  inv_order : abortBeforeNew (ctlLog w);
  inv_current : ∀ ch c, controllerOf ch w = Some c → (c < length (controllers w))%nat;
  inv_made : ∀ ch c, ENewController ch c ∈ ctlLog w →
             controllerOf ch w = Some c ∨ EAbort c ∈ ctlLog w;
  inv_flag : ∀ c, EAbort c ∈ ctlLog w → isAborted c w = true
}.

(** The channel's current controller, if any, has been aborted: the state
    in which the flows make the next one. *)
Definition Ready (ch : Channel) (w : World) : Prop :=
  CtlInv w ∧ ∀ c, controllerOf ch w = Some c → EAbort c ∈ ctlLog w.

(** [w'] differs from [w] in nothing that concerns the controllers. *)
Definition ctlSame (w w' : World) : Prop :=
  controllers w' = controllers w ∧
  suggestionsController w' = suggestionsController w ∧
  searchController w' = searchController w ∧
  recsController w' = recsController w ∧
  ctlLog w' = ctlLog w.

(** *** The debounce of the search input *)

(** The calls of [getSearchSuggestions] made by the debounce timer, with
    their time, newest first. *)
Fixpoint suggestQueries (l : list Effect) : list (Z * string) :=
  match l with
  | [] => []
  | ESuggestionsQuery t q :: l' => (t, q) :: suggestQueries l'
  | _ :: l' => suggestQueries l'
  end.

Definition timerQuery (tm : Timer) : option (Z * string) :=
  match callback tm with
  | CbSuggest q => Some (due tm, q)
  | CbUserRecs | CbBlur => None
  end.

(** The pending calls of [getSearchSuggestions]: due time and query. *)
Definition scheduled (w : World) : list (Z * string) := omap timerQuery (timers w).

(** [searchTimeout] holds the id of every pending suggestion timer. *)
Definition DebInv (w : World) : Prop :=
  ∀ tm, tm ∈ timers w → is_Some (timerQuery tm) → searchTimeout w = Some (timerId tm).

(** [w'] differs from [w] in nothing that concerns the debounce. *)
Definition debSame (w w' : World) : Prop :=
  now w' = now w ∧ timers w' = timers w ∧ searchTimeout w' = searchTimeout w ∧
  nextTimer w' = nextTimer w ∧ suggestQueries (log w') = suggestQueries (log w).

(** Keystrokes that follow the one at time [prev], each less than 150 ms
    after the one before. *)
Fixpoint rapid (prev : Z) (keys : list (Z * string)) : Prop :=
  match keys with
  | [] => True
  | (t, _) :: rest => prev ≤ t < prev + 150 ∧ rapid t rest
  end.

Fixpoint lastKey (k : Z * string) (rest : list (Z * string)) : Z * string :=
  match rest with
  | [] => k
  | k' :: rest' => lastKey k' rest'
  end.

(** The ['input'] events of a list of keystrokes (time, text of the box). *)
Definition keyEvents (keys : list (Z * string)) : list (Z * Action) :=
  map (λ k, (fst k, AInput (snd k))) keys.

(** What one keystroke leaves scheduled. *)
Definition scheduleOf (k : Z * string) : list (Z * string) :=
  if JS.truthy (JS.trim (snd k)) then [(fst k + 150, JS.trim (snd k))] else [].

Definition isQuery (e : Effect) : bool :=
  match e with ESuggestionsQuery _ _ => true | _ => false end.

(** The queries handed to [getSearchSuggestions] by the timer, newest first. *)
Definition queriesMade (w : World) : list string := map snd (suggestQueries (log w)).

(** What the event loop does with one due timer. *)
Definition fireTimer (w : World) (tm : Timer) : World :=
  drainAborted (runCallback (callback tm) (setNow (Z.max (now w) (due tm)) w)).

(** ** Further functions of [src/main.js] *)

(** [v && String(v).trim() && String(v).trim() !== 'null'], the test of
    [movieNeedsPoster] on one field. *)
Definition hasPosterText (v : jsval) : bool :=
  jsTruthy v && JS.truthy (JS.trim (jsToString v))
  && negb (String.eqb (JS.trim (jsToString v)) "null").

(** [movieNeedsPoster(movie)]; the fields of a value that is not an object
    are all [undefined]. *)
Definition movieNeedsPoster (movie : jsarg) : bool :=
  match movie with
  | ArgObject m => negb (existsb hasPosterText (candidates m))
  | _ => true
  end.

(** [handleSuggestionNavigation(direction)] on [selectedSuggestionIndex]:
    [suggestions] is [currentSuggestions.length], [items] the number of
    [.search-suggestion-item] elements on the page. *)
Definition handleSuggestionNavigation (direction : string) (suggestions items : nat)
    (selectedSuggestionIndex : Z) : Z :=
  if (suggestions =? 0)%nat then selectedSuggestionIndex
  else if (items =? 0)%nat then selectedSuggestionIndex
  else if String.eqb direction "down" then
    Z.min (selectedSuggestionIndex + 1) (Z.of_nat suggestions - 1)
  else if String.eqb direction "up" then
    Z.max (selectedSuggestionIndex - 1) (-1)
  else selectedSuggestionIndex.

(** [selectSuggestion(index)] *)
Definition selectSuggestion (index : Z) (w : World) : World :=
  if (0 <=? index) && (index <? Z.of_nat (length (currentSuggestions w))) then
    match currentSuggestions w !! Z.to_nat index with
    | Some movie =>
        searchMovies (title movie)
          (hideSuggestions (updDom (setSearchInputValue (title movie)) w))
    | None => w
    end
  else w.

(** [handleSuggestionEnter()], with the index highlighted and the text of
    the search box. *)
Definition handleSuggestionEnter (selectedSuggestionIndex : Z) (value : string)
    (w : World) : World :=
  if (0 <=? selectedSuggestionIndex)
     && (selectedSuggestionIndex <? Z.of_nat (length (currentSuggestions w)))
  then selectSuggestion selectedSuggestionIndex w
  else
    let query := JS.trim value in
    if JS.truthy query then searchMovies query w else w.

(** The profile as [saveProfile] accepts it: an age from 13 to 100, and
    Safe Mode on under 18. *)
Definition validAge (p : Profile) : Prop :=
  13 ≤ age p ≤ 100 ∧ (age p < 18 → safe_mode p = true).

(** The requests sent to the backend so far, newest first. *)
Fixpoint fetches (l : list Effect) : list (nat * Request) :=
  match l with
  | [] => []
  | EFetch r req _ :: l' => (r, req) :: fetches l'
  | _ :: l' => fetches l'
  end.

(** *** The refresh of the personalised recommendations *)

(** The pending refreshes of the personalised recommendations: due times. *)
Definition timerRefresh (tm : Timer) : option Z :=
  match callback tm with
  | CbUserRecs => Some (due tm)
  | CbSuggest _ | CbBlur => None
  end.

Definition scheduledRefresh (w : World) : list Z := omap timerRefresh (timers w).

(** At most one refresh is pending, and [recsDebounceTimeout] holds the id
    of every pending refresh timer. *)
Definition RefreshInv (w : World) : Prop :=
  (length (scheduledRefresh w) ≤ 1)%nat ∧
  ∀ tm, tm ∈ timers w → is_Some (timerRefresh tm) →
        recsDebounceTimeout w = Some (timerId tm).

(** The body [fetchPersonalizedRecommendations] posts for a profile. *)
Definition recsBody (p : Profile) : Request :=
  ReqUserRecommendations (mood p) (language p) (liked_movies p) (disliked_movies p)
                         (map id (watchlist p)).

Definition recsRequestOf (e : Effect) : option Request :=
  match e with
  | EFetch _ (ReqUserRecommendations m l a b c) _ => Some (ReqUserRecommendations m l a b c)
  | _ => None
  end.

(** The requests for personalised recommendations made so far, newest first. *)
Definition recsRequests (l : list Effect) : list Request := omap recsRequestOf l.

(** [w'] differs from [w] in nothing that concerns the refresh. *)
Definition recSame (w w' : World) : Prop :=
  recsDebounceTimeout w' = recsDebounceTimeout w ∧
  recsBody (userProfile w') = recsBody (userProfile w) ∧
  recsRequests (log w') = recsRequests (log w).

(** Ratings (time, movie id, liked) that follow the one at time [prev],
    each less than 400 ms after the one before. *)
Fixpoint rapidRatings (prev : Z) (rs : list (Z * Z * bool)) : Prop :=
  match rs with
  | [] => True
  | (t, _, _) :: rest => prev ≤ t < prev + 400 ∧ rapidRatings t rest
  end.

Fixpoint lastRating (r : Z * Z * bool) (rest : list (Z * Z * bool)) : Z * Z * bool :=
  match rest with
  | [] => r
  | r' :: rest' => lastRating r' rest'
  end.

(** The clicks on the rating buttons as events. *)
Definition rateEvents (rs : list (Z * Z * bool)) : list (Z * Action) :=
  map (λ '(t, i, b), (t, ARate i b)) rs.

(** The profile after the ratings. *)
Definition rated (rs : list (Z * Z * bool)) (p : Profile) : Profile :=
  foldl (λ p '(_, i, b), rateMovie i b p) p rs.

(** What the profile form and the list mutators keep true of a profile:
    a valid age with Safe Mode on under 18, a name, and no id twice in the
    watchlist, the liked or the disliked movies. *)
Definition profileInv (p : Profile) : Prop :=
  validAge p ∧ name p ≠ "" ∧ NoDup (map id (watchlist p)) ∧
  NoDup (liked_movies p) ∧ NoDup (disliked_movies p).

(** A sequence of arrow keys on the search box, while the suggestion list
    stays the same. *)
Definition navigate (keys : list string) (suggestions items : nat) (index : Z) : Z :=
  foldl (λ i direction, handleSuggestionNavigation direction suggestions items i) index keys.

(** *** What every flow keeps *)

(** The settings of a profile, which only the profile form, the mood
    buttons, the language selector and the watchlist button change. *)
Definition settings (p : Profile)
  : string * Z * bool * list string * string * string * list Movie :=
  (name p, age p, safe_mode p, language p, mood p, region p, watchlist p).

(** What the history and the ratings of a profile keep. *)
Definition listsInv (p : Profile) : Prop :=
  (length (history p) ≤ 100)%nat ∧ NoDup (history p) ∧
  NoDup (liked_movies p) ∧ NoDup (disliked_movies p) ∧ disjointRatings p.

Definition viewMovies (v : UserRecsView) : list Movie :=
  match v with URMovies l => l | _ => [] end.

(** The movies in the three movie containers of the page. *)
Definition moviesOnPage (d : Dom) : list Movie :=
  searchMoviesContent d ++ recommendationMoviesContent d
  ++ viewMovies (userRecommendations d).

(** No adult title is in a movie container. *)
Definition domSafe (d : Dom) : Prop := ∀ m, m ∈ moviesOnPage d → adult m = false.

(** [w'] has the settings of [w], and keeps what [w] has of the invariants
    of the lists and of Safe Mode. *)
Definition keepSame (w w' : World) : Prop :=
  settings (userProfile w') = settings (userProfile w) ∧
  (listsInv (userProfile w) → listsInv (userProfile w')) ∧
  (safe_mode (userProfile w) = true → domSafe (dom w) → domSafe (dom w')).

(** *** Further request and poster helpers *)

(** [getPosterUrl(path)] *)
Definition getPosterUrl (path : jsval) : string :=
  match path with
  | JStr s => if JS.truthy s then IMAGE_BASE_URL +:+ s else FALLBACK_POSTER_URL
  | _ => FALLBACK_POSTER_URL
  end.

(** [config.BACKEND_BASE_URL], browser default of [src/config.js]. *)
Definition BACKEND_BASE_URL : string := "http://127.0.0.1:8000".

(** The parameters [buildApiUrl] builds.  [additionalParams] is given as
    [Object.entries] lists it; a value that is [null] or [undefined] is
    [None], any other value is the string [params.set] makes of it. *)
Definition buildApiParams (p : Profile) (additionalParams : list (string * option string))
  : URLSearchParams.t :=
  let params := [] in
  let params := if safe_mode p then URLSearchParams.set "safe_mode" "true" params
                else params in
  let params := if (0 <? Z.of_nat (length (language p)))
                then URLSearchParams.set "languages" (JS.join "," (language p)) params
                else params in
  let params := URLSearchParams.set "limit" "10" params in
  foldl (λ params kv,
           match snd kv with
           | Some value =>
               if JS.truthy value then URLSearchParams.set (fst kv) value params
               else params
           | None => params
           end) params additionalParams.

(** [buildApiUrl(endpoint, page, additionalParams)]; the function does not
    use [page], and reads the profile from the module variable. *)
Definition buildApiUrl (endpoint : string) (p : Profile)
    (additionalParams : list (string * option string)) : string :=
  BACKEND_BASE_URL +:+ "/" +:+ endpoint +:+ "?"
  +:+ URLSearchParams.toString (buildApiParams p additionalParams).

(** The requests of [searchMovies]: the search itself and the
    recommendations chained to it. *)
Definition isSearchTask (t : Task) : bool :=
  match t with TSearchFetch _ _ | TRecsFetch _ => true | _ => false end.

(** *** Poster enrichment *)

(** What [enrichMoviePosters] reads of the answer of TMDB for one movie. *)
Record TmdbDetails := mkTmdbDetails {
  tmdb_poster_path : jsval;
  tmdb_backdrop_path : jsval;
  tmdb_title : string
}.

(** The three assignments of the network branch of [enrichMoviePosters],
    after [tmdbPosterCache.set]:
    [if (!m.poster_path && data.poster_path) m.poster_path = data.poster_path],
    the same for [backdrop_path], and for [title]. *)
Definition enrichFrom (data : TmdbDetails) (m : Movie) : Movie :=
  mkMovie (id m)
    (if negb (JS.truthy (title m)) && JS.truthy (tmdb_title data)
     then tmdb_title data else title m)
    (adult m)
    (if negb (jsTruthy (poster_path m)) && jsTruthy (tmdb_poster_path data)
     then tmdb_poster_path data else poster_path m)
    (poster m) (posterUrl m) (poster_url m) (image_url m) (image m) (poster_path_hq m)
    (if negb (jsTruthy (backdrop_path m)) && jsTruthy (tmdb_backdrop_path data)
     then tmdb_backdrop_path data else backdrop_path m).









(** *** What the focus listener may do inside a search *)

Definition isSuggestTask (t : Task) : bool :=
  match t with TSuggestFetch _ _ => true | _ => false end.

(** The effects of [getSearchSuggestions] and of the suggestion panel. *)
Definition suggestEffect (e : Effect) : bool :=
  match e with
  | EAbort _ | ENewController ChSuggestions _ | EFetch _ (ReqSearch _) _
  | ESuggestionCacheGet _ | EDisplaySuggestions _ | EHideSuggestions => true
  | _ => false
  end.

(** [w'] differs from [w] by suggestion work only: the sections, the spinner,
    the movie containers, the profile, the search cache and the clock are
    the same; a function newly suspended is a suggestion request; a new
    effect is one of the suggestion panel. *)
Definition suggestOnly (w w' : World) : Prop :=
  searchSectionHidden (dom w') = searchSectionHidden (dom w) ∧
  recommendationsHidden (dom w') = recommendationsHidden (dom w) ∧
  spinnerHidden (dom w') = spinnerHidden (dom w) ∧
  searchMoviesContent (dom w') = searchMoviesContent (dom w) ∧
  userProfile w' = userProfile w ∧
  searchResultCache w' = searchResultCache w ∧
  now w' = now w ∧
  (nextRequest w ≤ nextRequest w')%nat ∧
  (∀ rt, rt ∈ inflight w' →
         rt ∈ inflight w ∨ ((nextRequest w ≤ fst rt)%nat ∧ isSuggestTask (snd rt) = true)) ∧
  (∀ e, e ∈ log w' → e ∈ log w ∨ suggestEffect e = true).

(* ================================================================== *)
(** * Properties *)
(* ================================================================== *)

(** ** History *)

Section History.

Lemma includesId_true (i : Z) (l : list Z) : includesId i l = true ↔ i ∈ l.
Proof. unfold includesId. apply bool_decide_eq_true. Qed.

Lemma includesId_false (i : Z) (l : list Z) : includesId i l = false ↔ i ∉ l.
Proof. unfold includesId. apply bool_decide_eq_false. Qed.

Lemma addToHistory_absent (i : Z) (h : list Z) :
  i ∉ h → addToHistory_list i h = take 100 (i :: h).
Proof.
  intros Hi. unfold addToHistory_list, JS.slice0.
  apply includesId_false in Hi. rewrite Hi. cbn [negb].
  destruct (100 <? Z.of_nat (length (i :: h))) eqn:E; [done|].
  apply Z.ltb_ge in E. symmetry. apply take_ge. lia.
Qed.

Lemma addToHistory_present (i : Z) (h : list Z) :
  i ∈ h → addToHistory_list i h = h.
Proof.
  intros Hi. unfold addToHistory_list.
  apply includesId_true in Hi. by rewrite Hi.
Qed.

Lemma addToHistory_length (i : Z) (h : list Z) :
  (length h ≤ 100)%nat → (length (addToHistory_list i h) ≤ 100)%nat.
Proof.
  intros Hl. destruct (decide (i ∈ h)) as [Hi|Hi].
  - by rewrite addToHistory_present.
  - rewrite addToHistory_absent by done. rewrite length_take. lia.
Qed.

Lemma addToHistory_NoDup (i : Z) (h : list Z) :
  NoDup h → NoDup (addToHistory_list i h).
Proof.
  intros Hn. destruct (decide (i ∈ h)) as [Hi|Hi].
  - by rewrite addToHistory_present.
  - rewrite addToHistory_absent by done.
    apply (sublist_NoDup _ (i :: h)); [by constructor | apply sublist_take].
Qed.

End History.

(** Claim C3, as the code has it.  [addToHistory(id)] on a history list: when
    [id] is absent it is put at the front and the list is cut to its first
    100 entries; when [id] is already present the list is left exactly as it
    is (nothing is duplicated, and [id] keeps its place: it is not moved to
    the front); a list without duplicates stays so, and a list of at most
    100 entries never grows beyond 100. *)
Theorem addToHistory_spec (i : Z) (h : list Z) :
  (i ∉ h → addToHistory_list i h = take 100 (i :: h)) ∧
  (i ∈ h → addToHistory_list i h = h) ∧
  (NoDup h → NoDup (addToHistory_list i h)) ∧
  ((length h ≤ 100)%nat → (length (addToHistory_list i h) ≤ 100)%nat).
Proof.
  split; [apply addToHistory_absent|].
  split; [apply addToHistory_present|].
  split; [apply addToHistory_NoDup | apply addToHistory_length].
Qed.

Lemma addToHistory_spec_witness :
  addToHistory_list 7 [1; 2] = [7; 1; 2] ∧
  addToHistory_list 2 [1; 2] = [1; 2] ∧
  NoDup (addToHistory_list 2 [1; 2]) ∧
  (length (addToHistory_list 2 [1; 2]%Z) ≤ 100)%nat.
Proof.
  destruct (addToHistory_spec 7 [1; 2]) as (Habs & _).
  destruct (addToHistory_spec 2 [1; 2]) as (_ & Hpres & Hnd & Hlen).
  split; [apply Habs; rewrite !not_elem_of_cons; repeat split; [lia..|apply not_elem_of_nil]|].
  split; [apply Hpres; rewrite !elem_of_cons; auto|].
  split; [|apply Hlen; simpl; lia].
  apply Hnd. constructor; [rewrite list_elem_of_singleton; lia | apply NoDup_singleton].
Defined.

(** Claim C3, as stated, fails: the id 2 is present in the history [1; 2];
    the call leaves it in second place instead of moving it to the front. *)
Lemma addToHistory_not_moved_to_front :
  2 ∈ [1; 2] ∧
  addToHistory_list 2 [1; 2] = [1; 2] ∧
  head (addToHistory_list 2 [1; 2]) ≠ Some 2.
Proof.
  split; [rewrite !elem_of_cons; auto|]. split; [reflexivity|]. simpl. congruence.
Qed.

(** Every history reached from the empty one by calls of [addToHistory] has
    at most 100 entries and no duplicates. *)
Lemma history_reachable (ids : list Z) :
  let h := foldl (λ h i, addToHistory_list i h) [] ids in
  (length h ≤ 100)%nat ∧ NoDup h.
Proof.
  cbn zeta. induction ids as [|i ids IH] using rev_ind.
  - simpl. split; [lia | constructor].
  - rewrite foldl_app. simpl. destruct IH as [Hl Hn].
    split; [by apply addToHistory_length | by apply addToHistory_NoDup].
Qed.

(** ** Ratings *)

Section Ratings.

Lemma rateMovie_liked (p : Profile) (i : Z) :
  i ∈ liked_movies (rateMovie i true p) ∧ i ∉ disliked_movies (rateMovie i true p).
Proof.
  unfold rateMovie. cbn. split.
  - destruct (includesId i (liked_movies p)) eqn:E; cbn.
    + by apply includesId_true.
    + set_solver.
  - rewrite list_elem_of_filter. tauto.
Qed.

Lemma rateMovie_disliked (p : Profile) (i : Z) :
  i ∈ disliked_movies (rateMovie i false p) ∧ i ∉ liked_movies (rateMovie i false p).
Proof.
  unfold rateMovie. cbn. split.
  - destruct (includesId i (disliked_movies p)) eqn:E; cbn.
    + by apply includesId_true.
    + set_solver.
  - rewrite list_elem_of_filter. tauto.
Qed.

Lemma rateMovie_preserves (p : Profile) (i : Z) (b : bool) :
  disjointRatings p → disjointRatings (rateMovie i b p).
Proof.
  unfold disjointRatings, rateMovie. intros Hd j.
  destruct b; cbn; rewrite list_elem_of_filter.
  - destruct (includesId i (liked_movies p)); cbn.
    + intros Hj [_ Hj']. by apply (Hd j).
    + rewrite elem_of_app, list_elem_of_singleton.
      intros [Hj| ->] [Hne Hj']; [by apply (Hd j) | done].
  - destruct (includesId i (disliked_movies p)); cbn.
    + intros [_ Hj] Hj'. by apply (Hd j).
    + rewrite elem_of_app, list_elem_of_singleton.
      intros [Hne Hj] [Hj'| ->]; [by apply (Hd j) | done].
Qed.

Lemma mutate_preserves (m : Mutation) (p : Profile) :
  disjointRatings p → disjointRatings (mutate m p).
Proof.
  destruct m; cbn; try done.
  - apply rateMovie_preserves.
  - unfold toggleWatchlist. by destruct (findIndexId _ _).
  - unfold saveProfile. destruct formAge as [a|]; [|done].
    by repeat (destruct (_ || _) || destruct (_ && _)).
Qed.

Lemma mutations_preserve (ms : list Mutation) (p : Profile) :
  disjointRatings p → disjointRatings (mutations ms p).
Proof.
  revert p. induction ms as [|m ms IH]; intros p Hp; [done|].
  cbn. apply IH. by apply mutate_preserves.
Qed.

End Ratings.

(** Claim C4.  Rating a movie liked puts its id among the liked ones and
    removes it from the disliked ones, and the other way round, whatever the
    profile was; every mutation of the profile keeps the liked and the
    disliked ids disjoint; so in every profile reached from the default one
    no id is in both lists. *)
Theorem ratings_disjoint :
  (∀ p i, i ∈ liked_movies (rateMovie i true p)
          ∧ i ∉ disliked_movies (rateMovie i true p)) ∧
  (∀ p i, i ∈ disliked_movies (rateMovie i false p)
          ∧ i ∉ liked_movies (rateMovie i false p)) ∧
  (∀ p m, disjointRatings p → disjointRatings (mutate m p)) ∧
  (∀ ms, disjointRatings (mutations ms defaultProfile)).
Proof.
  split; [apply rateMovie_liked|].
  split; [apply rateMovie_disliked|].
  split; [intros p m; apply mutate_preserves|].
  intros ms. apply mutations_preserve. intros i Hi. cbn in Hi. set_solver.
Qed.

Lemma ratings_disjoint_witness :
  disjointRatings (mutate (MRate 5 true) (mutate (MRate 5 false) defaultProfile)) ∧
  liked_movies (mutate (MRate 5 true) (mutate (MRate 5 false) defaultProfile)) = [5] ∧
  disliked_movies (mutate (MRate 5 true) (mutate (MRate 5 false) defaultProfile)) = [].
Proof.
  destruct ratings_disjoint as (_ & _ & Hpres & Hreach).
  split; [|split; reflexivity].
  apply Hpres. apply (Hreach [MRate 5 false]).
Defined.

(** ** Posters *)

Section Posters.

Lemma truthy_nonempty (s : string) : JS.truthy s = true ↔ s ≠ "".
Proof. destruct s; cbn; split; congruence. Qed.

Lemma skippedRaw_false_nonempty (raw : string) : skippedRaw raw = false → raw ≠ "".
Proof. intros H ->. discriminate H. Qed.

Lemma posterFromRaw_nonempty (raw : string) : raw ≠ "" → posterFromRaw raw ≠ "".
Proof.
  intros Hraw. unfold posterFromRaw.
  repeat match goal with |- context [if ?b then _ else _] => destruct b end;
    try assumption; cbv [String.append IMAGE_BASE_URL]; discriminate.
Qed.

Lemma usable_nonempty (v : jsval) (raw : string) : usable v = Some raw → raw ≠ "".
Proof.
  unfold usable. destruct (jsTruthy v); [|discriminate].
  destruct (skippedRaw _) eqn:E; [discriminate|].
  intros [= <-]. by apply skippedRaw_false_nonempty.
Qed.

Lemma skippedRaw_true (raw : string) :
  skippedRaw raw = true ↔
  raw = "" ∨ raw = "null" ∨ raw = "None" ∨ raw = "undefined"
  ∨ JS.toLowerCase raw = "nan".
Proof.
  unfold skippedRaw. rewrite !orb_true_iff, negb_true_iff, !String.eqb_eq.
  assert (JS.truthy raw = false ↔ raw = "") as ->
    by (destruct raw; cbn; split; congruence).
  tauto.
Qed.

Lemma usable_None (v : jsval) : usable v = None ↔ skippedValue v.
Proof.
  destruct v as [| |s]; cbn; [tauto..|].
  unfold usable. cbn [jsTruthy jsToString]. rewrite <- skippedRaw_true.
  destruct s as [|c s]; cbn [JS.truthy]; [done|].
  destruct (skippedRaw _); split; congruence.
Qed.

Lemma posterLoop_firstUsable (cs : list jsval) :
  posterLoop cs = posterFromRaw <$> firstUsable cs.
Proof.
  unfold firstUsable. induction cs as [|c cs IH]; [done|].
  cbn [posterLoop omap list_omap]. unfold usable at 1.
  destruct (jsTruthy c); cbn [negb]; [|exact IH].
  destruct (skippedRaw _); [exact IH | done].
Qed.

Lemma posterLoop_None (cs : list jsval) :
  posterLoop cs = None ↔ ∀ v, v ∈ cs → skippedValue v.
Proof.
  induction cs as [|c cs IH].
  - split; [intros _ v Hv; by apply elem_of_nil in Hv | done].
  - assert (posterLoop (c :: cs) =
            match usable c with Some raw => Some (posterFromRaw raw)
                           | None => posterLoop cs end) as ->.
    { cbn [posterLoop]. unfold usable.
      destruct (jsTruthy c); cbn [negb]; [|done]. by destruct (skippedRaw _). }
    destruct (usable c) as [raw|] eqn:E.
    + split; [discriminate|]. intros H.
      assert (usable c = None) by (apply usable_None, H; left). congruence.
    + rewrite IH. split.
      * intros H v [->|Hv]%elem_of_cons; [by apply usable_None | by apply H].
      * intros H v Hv. apply H. by right.
Qed.

Lemma posterLoop_nonempty (cs : list jsval) (url : string) :
  posterLoop cs = Some url → url ≠ "".
Proof.
  rewrite posterLoop_firstUsable. unfold firstUsable.
  induction cs as [|c cs IH]; [discriminate|].
  cbn [omap list_omap]. destruct (usable c) as [raw|] eqn:E; [|exact IH].
  cbn. intros [= <-]. eapply posterFromRaw_nonempty, usable_nonempty, E.
Qed.

End Posters.

Section FallbackPoster.

(** The two texts from which the chain of [return]s makes the fallback
    URL: the fallback URL itself, and the same URL without its scheme. *)
Lemma posterFromRaw_fallback (raw : string) :
  posterFromRaw raw = FALLBACK_POSTER_URL ↔
  raw = FALLBACK_POSTER_URL ∨
  raw = "//dummyimage.com/500x750/1f2937/9ca3af&text=No+Poster".
Proof.
  split; [|by intros [->| ->]].
  unfold posterFromRaw.
  destruct (JS.startsWith "data:image" raw) eqn:Ed; [by left|].
  destruct (JS.startsWith "http" raw) eqn:Eh; [by left|].
  destruct (JS.startsWith "//" raw) eqn:Es.
  { intros H. right. cbv [FALLBACK_POSTER_URL String.append] in H. by injection H. }
  assert (Hno : "https:" +:+ raw ≠ FALLBACK_POSTER_URL).
  { intros H. cbv [FALLBACK_POSTER_URL String.append] in H. injection H as ->.
    discriminate Es. }
  destruct (JS.includes "image.tmdb.org" raw); [done|].
  destruct (JS.startsWith "/" raw); intros H;
    cbv [FALLBACK_POSTER_URL IMAGE_BASE_URL String.append] in H; discriminate H.
Qed.

End FallbackPoster.

(** Claim C10.  [getMoviePoster] always answers a non-empty string.  For
    [null], [undefined] or a value that is not an object it answers the
    fallback poster URL.  For a movie object it answers the URL made from
    the first poster or backdrop field that is not passed over, and the
    fallback when there is none; there is none exactly when every field is
    absent, empty, or one of "null", "None", "undefined" or "nan" in any
    case.  The fallback is also what a field that is not passed over gives
    when its text is the fallback URL itself, with or without "https:" in
    front: the answer is the fallback exactly when no field is usable or
    the first usable one holds one of these two texts. *)
Theorem getMoviePoster_spec (movie : jsarg) :
  getMoviePoster movie ≠ "" ∧
  (∀ v, usable v = None ↔ skippedValue v) ∧
  match movie with
  | ArgObject m =>
      getMoviePoster movie =
        match firstUsable (candidates m) with
        | Some raw => posterFromRaw raw
        | None => FALLBACK_POSTER_URL
        end
      ∧ (firstUsable (candidates m) = None ↔ ∀ v, v ∈ candidates m → skippedValue v)
      ∧ (getMoviePoster movie = FALLBACK_POSTER_URL ↔
         (∀ v, v ∈ candidates m → skippedValue v) ∨
         firstUsable (candidates m) = Some FALLBACK_POSTER_URL ∨
         firstUsable (candidates m)
         = Some "//dummyimage.com/500x750/1f2937/9ca3af&text=No+Poster")
  | _ => getMoviePoster movie = FALLBACK_POSTER_URL
  end.
Proof.
  split; [|split; [apply usable_None|]].
  - destruct movie as [| | |m]; cbn [getMoviePoster]; try discriminate.
    destruct (posterLoop (candidates m)) as [url|] eqn:E; [|discriminate].
    by apply posterLoop_nonempty in E.
  - destruct movie as [| | |m]; try reflexivity.
    assert (Hnone : firstUsable (candidates m) = None ↔
                    ∀ v, v ∈ candidates m → skippedValue v).
    { rewrite <- posterLoop_None, posterLoop_firstUsable.
      by destruct (firstUsable (candidates m)). }
    split; [|split; [exact Hnone|]].
    + cbn [getMoviePoster]. rewrite posterLoop_firstUsable.
      by destruct (firstUsable (candidates m)).
    + rewrite <- Hnone. cbn [getMoviePoster]. rewrite posterLoop_firstUsable.
      destruct (firstUsable (candidates m)) as [raw|]; cbn [fmap option_fmap option_map].
      * rewrite posterFromRaw_fallback. split.
        -- intros [->| ->]; [right; by left | right; by right].
        -- intros [?|[[= ->]|[= ->]]]; [done | by left | by right].
      * split; [by left | done].
Qed.

Lemma getMoviePoster_spec_witness :
  let m := mkMovie 603 "The Matrix" false (JStr " NaN ") JNull (JStr "/abc.jpg")
                   JUndefined JUndefined JUndefined JUndefined JUndefined in
  getMoviePoster (ArgObject m) = "https://image.tmdb.org/t/p/w500/abc.jpg" ∧
  getMoviePoster (ArgObject m) ≠ "" ∧
  getMoviePoster ArgNull = FALLBACK_POSTER_URL.
Proof.
  cbn zeta.
  pose proof (getMoviePoster_spec
    (ArgObject (mkMovie 603 "The Matrix" false (JStr " NaN ") JNull (JStr "/abc.jpg")
                   JUndefined JUndefined JUndefined JUndefined JUndefined)))
    as (Hne & _ & Heq & _).
  pose proof (getMoviePoster_spec ArgNull) as (_ & _ & Hnull).
  split; [rewrite Heq; reflexivity|]. split; [exact Hne | exact Hnull].
Defined.

(** Claim C10, as stated, fails for a movie whose [poster_path] is the
    fallback URL (such a value can come back from the backend): the field
    is not passed over, it is the first usable candidate, and
    [getMoviePoster] answers the fallback all the same, from the
    [return raw] of the loop.  The same happens with the fallback URL
    written without its scheme. *)
Lemma getMoviePoster_fallback_from_usable :
  let m := mkMovie 603 "The Matrix" false (JStr FALLBACK_POSTER_URL) JUndefined JUndefined
                   JUndefined JUndefined JUndefined JUndefined JUndefined in
  let m' := mkMovie 603 "The Matrix" false JNull
                    (JStr "//dummyimage.com/500x750/1f2937/9ca3af&text=No+Poster")
                    JUndefined JUndefined JUndefined JUndefined JUndefined JUndefined in
  (firstUsable (candidates m) = Some FALLBACK_POSTER_URL ∧
   ¬ skippedValue (poster_path m) ∧
   posterLoop (candidates m) = Some FALLBACK_POSTER_URL ∧
   getMoviePoster (ArgObject m) = FALLBACK_POSTER_URL) ∧
  (firstUsable (candidates m')
   = Some "//dummyimage.com/500x750/1f2937/9ca3af&text=No+Poster" ∧
   getMoviePoster (ArgObject m') = FALLBACK_POSTER_URL).
Proof.
  cbn zeta. split; [|by split]. split; [reflexivity|]. split; [|by split].
  cbn. intros [H|[H|[H|[H|H]]]]; discriminate H.
Qed.

(** ** Local suggestions for short queries *)

Section ImmediateSuggestions.

Lemma trimEnd_empty (s : string) : JS.trimEnd s = "" → allWhiteSpace s = true.
Proof.
  induction s as [|c s IH]; [done|]. cbn [JS.trimEnd allWhiteSpace].
  destruct (JS.trimEnd s); [|discriminate].
  destruct (JS.isWhiteSpace c); [|discriminate]. intros _. by apply IH.
Qed.

Lemma trim_empty (s : string) : JS.trim s = "" → allWhiteSpace s = true.
Proof.
  unfold JS.trim. induction s as [|c s IH]; [done|].
  cbn [JS.trimStart allWhiteSpace].
  destruct (JS.isWhiteSpace c) eqn:E; [exact IH|].
  intros H%trimEnd_empty. cbn [allWhiteSpace] in H. by rewrite E in H.
Qed.

Lemma lowerChar_whiteSpace (c : ascii) :
  JS.isWhiteSpace c = true → JS.isWhiteSpace (JS.lowerChar c) = true.
Proof. destruct c as [[] [] [] [] [] [] [] []]; by cbn. Qed.

Lemma prefix_cons (a b : ascii) (s t : string) :
  String.prefix (String a s) (String b t) = true → a = b ∧ String.prefix s t = true.
Proof. cbn. by destruct (ascii_dec a b). Qed.

Lemma adjacentWhiteSpace_cons (a b : ascii) (s : string) :
  adjacentWhiteSpace (String a (String b s))
  = (JS.isWhiteSpace a && JS.isWhiteSpace b) || adjacentWhiteSpace (String b s).
Proof. reflexivity. Qed.

Lemma includes_adjacent (a b : ascii) (r t : string) :
  JS.isWhiteSpace a = true → JS.isWhiteSpace b = true →
  JS.includes (String a (String b r)) t = true → adjacentWhiteSpace t = true.
Proof.
  intros Ha Hb. induction t as [|x t IH]; [done|].
  cbn [JS.includes]. intros [Hp|Hi]%orb_true_iff.
  - apply prefix_cons in Hp as [<- Hp]. destruct t as [|y t]; [done|].
    apply prefix_cons in Hp as [<- _]. rewrite adjacentWhiteSpace_cons.
    by rewrite Ha, Hb.
  - specialize (IH Hi). destruct t as [|y t]; [done|].
    rewrite adjacentWhiteSpace_cons, IH. apply orb_true_r.
Qed.

Lemma filter_none {A} (f : A → bool) (l : list A) :
  (∀ x, x ∈ l → f x = false) → List.filter f l = [].
Proof.
  induction l as [|x l IH]; [done|]. intros H. cbn.
  rewrite (H x) by left. apply IH. intros y Hy. apply H. by right.
Qed.

Lemma titles_single_spaced :
  ∀ m, m ∈ commonMovies → adjacentWhiteSpace (JS.toLowerCase (title m)) = false.
Proof.
  intros m Hm. unfold commonMovies in Hm.
  repeat (apply elem_of_cons in Hm as [->|Hm]; [reflexivity|]).
  by apply elem_of_nil in Hm.
Qed.

(** A query of two or more characters that is all white space matches no
    title of the local list. *)
Lemma blank_query_no_match (query : string) :
  (2 ≤ String.length query)%nat → JS.trim query = "" →
  getImmediateSuggestions query = [].
Proof.
  intros Hlen Hblank%trim_empty.
  destruct query as [|a [|b r]]; cbn in Hlen; [lia..|].
  cbn [allWhiteSpace] in Hblank.
  apply andb_true_iff in Hblank as [Ha [Hb _]%andb_true_iff].
  unfold getImmediateSuggestions, JS.slice0. rewrite filter_none; [done|].
  intros m Hm. cbn [JS.toLowerCase].
  destruct (JS.includes _ _) eqn:E; [|done].
  apply includes_adjacent in E; [|by apply lowerChar_whiteSpace..].
  by rewrite titles_single_spaced in E.
Qed.

Lemma length_pos_nonempty {A} (l : list A) : (0 <? Z.of_nat (length l)) = true ↔ l ≠ [].
Proof. destruct l; cbn; split; (congruence || lia || done). Qed.

End ImmediateSuggestions.

(** Claim C2, as the code has it.  [getSearchSuggestions] hides the panel for
    a text of fewer than two characters.  For a text of two or three
    characters whose case-insensitive substring match against the fixed local
    list is not empty, it shows the first four matches at once: the only
    effect is the display, no request is issued, no controller is touched
    and the suggestion cache is neither read nor written. *)
Theorem short_query_local_suggestions (w : World) (query : string) :
  ((String.length query < 2)%nat → getSearchSuggestions query w = hideSuggestions w) ∧
  ((2 ≤ String.length query ≤ 3)%nat → getImmediateSuggestions query ≠ [] →
   let immediate := getImmediateSuggestions query in
   let w' := getSearchSuggestions query w in
   immediate = take 4 (List.filter
                 (λ m, JS.includes (JS.toLowerCase query) (JS.toLowerCase (title m)))
                 commonMovies) ∧
   log w' = EDisplaySuggestions immediate :: log w ∧
   suggestionsContent (dom w') = immediate ∧
   suggestionsHidden (dom w') = false ∧
   currentSuggestions w' = immediate ∧
   inflight w' = inflight w ∧ nextRequest w' = nextRequest w ∧
   controllers w' = controllers w ∧
   suggestionCache w' = suggestionCache w).
Proof.
  split.
  - intros Hlen. unfold getSearchSuggestions.
    apply Nat.ltb_lt in Hlen. rewrite Hlen. by rewrite orb_true_r.
  - intros [Hlo Hhi] Hne. cbn zeta. unfold getSearchSuggestions.
    assert (JS.truthy (JS.trim query) = true) as ->.
    { apply truthy_nonempty. intros Hblank. apply Hne.
      by apply blank_query_no_match. }
    assert ((String.length query <? 2)%nat = false) as -> by (apply Nat.ltb_ge; lia).
    assert ((String.length query <=? 3)%nat = true) as -> by (apply Nat.leb_le; lia).
    cbn [negb orb].
    apply length_pos_nonempty in Hne. rewrite Hne.
    split; [reflexivity|]. destruct w as [? ? ? ? ? ? ? ? ? ? ? ? ? ? ? [] ?].
    repeat split.
Qed.

Lemma short_query_local_suggestions_witness :
  map title (getImmediateSuggestions "av") = ["Avatar"; "The Avengers"] ∧
  log (getSearchSuggestions "av" initialWorld)
    = [EDisplaySuggestions (getImmediateSuggestions "av")] ∧
  inflight (getSearchSuggestions "av" initialWorld) = [].
Proof.
  destruct (short_query_local_suggestions initialWorld "av") as [_ H].
  destruct H as (_ & Hlog & _ & _ & _ & Hin & _).
  - cbn. lia.
  - discriminate.
  - split; [reflexivity|]. split; [exact Hlog | exact Hin].
Defined.

(** Claim C2, as stated, fails for the query "a": its first four local
    matches are other titles, neither "Avatar" nor "The Avengers", and the
    pipeline shows none of them, since [getSearchSuggestions] hides the
    panel for a text of one character. *)
Lemma query_a_shows_nothing :
  map title (getImmediateSuggestions "a")
    = ["The Dark Knight"; "Interstellar"; "The Matrix"; "The Godfather"] ∧
  trace (getSearchSuggestions "a" initialWorld) = [EHideSuggestions] ∧
  trace (run [(0, AInput "a"); (1000, ATick)] initialWorld)
    = [ESetTimeout 1 150; ESuggestionsQuery 150 "a"; EHideSuggestions] ∧
  suggestionsHidden (dom (run [(0, AInput "a"); (1000, ATick)] initialWorld)) = true.
Proof. repeat split. Qed.

(** ** Cache expiry *)

(** Unfolding of the field updates on a world given by its fields. *)
Ltac wcbn :=
  cbn [now userProfile searchResultCache suggestionCache currentSuggestions
       suggestionsController searchController recsController controllers
       searchTimeout recsDebounceTimeout timers nextTimer inflight nextRequest
       dom log
       emit setNow setProfile setSearchResultCache setSuggestionCache
       setCurrentSuggestions setController setControllers setSearchTimeout
       setRecsDebounceTimeout setTimers setInflight setDom updDom controllerOf
       hideSuggestions displaySuggestions abortIfSet newController suspend fetch
       suggestionsHidden suggestionsContent searchSectionHidden searchMoviesContent
       recommendationsHidden recommendationMoviesContent userRecommendations
       spinnerHidden setSuggestionsPanel setSearchSectionHidden
       setSearchMoviesContent setRecommendationsHidden
       setRecommendationMoviesContent setUserRecommendations setSpinnerHidden
       searchInputValue searchInputFocused suggestionHovered setSearchInput
       setSearchInputValue setSearchInputFocused setSuggestionHovered
       negb orb andb] in *.

Section CacheTTL.

Context {A : Type}.
Implicit Types (cache : gmap string (CacheEntry A)) (k : string) (v : A).

Lemma cacheLookup_store cache k v (T t : Z) :
  cacheLookup (cacheStore cache k v T) k t
  = if (t - T <? CACHE_TTL_MS) then Some v else None.
Proof. unfold cacheLookup, cacheStore. by rewrite lookup_insert_eq. Qed.

Lemma cacheLookup_None cache k (t : Z) :
  cacheLookup cache k t = None ↔
  cache !! k = None ∨ ∃ e, cache !! k = Some e ∧ CACHE_TTL_MS ≤ t - time e.
Proof.
  unfold cacheLookup. destruct (cache !! k) as [e|]; [|by split; [left|]].
  destruct (t - time e <? CACHE_TTL_MS) eqn:E.
  - apply Z.ltb_lt in E. split; [done|].
    intros [?|(e' & [= <-] & ?)]; [done | lia].
  - apply Z.ltb_ge in E. split; [|done]. intros _. right. by exists e.
Qed.

Lemma cacheLookup_Some cache k v (t : Z) :
  cacheLookup cache k t = Some v ↔
  ∃ e, cache !! k = Some e ∧ results e = v ∧ t - time e < CACHE_TTL_MS.
Proof.
  unfold cacheLookup. destruct (cache !! k) as [e|].
  - destruct (t - time e <? CACHE_TTL_MS) eqn:E.
    + apply Z.ltb_lt in E. split; [intros [= <-]; by exists e|].
      by intros (e' & [= <-] & <- & _).
    + apply Z.ltb_ge in E. split; [done|]. intros (e' & [= <-] & _ & ?). lia.
  - split; [done|]. by intros (e' & ? & _).
Qed.

End CacheTTL.

Lemma searchMovies_miss_fetches (w : World) (query : string) :
  JS.trim query ≠ "" →
  cacheLookup (searchResultCache w)
    (searchCacheKey query (language (userProfile w)) (safe_mode (userProfile w)))
    (now w) = None →
  head (log (searchMovies query w))
  = Some (EFetch (nextRequest w)
            (ReqSearch (searchParams query (language (userProfile w))
                                     (safe_mode (userProfile w))))
            (Some (length (controllers w)))).
Proof.
  intros Hq%truthy_nonempty Hmiss. unfold searchMovies, searchCacheKey in *. rewrite Hq.
  destruct w as [? ? ? ? ? ? sc rc ? ? ? ? ? ? ? [] ?].
  destruct sc, rc; wcbn; rewrite Hmiss; wcbn; by rewrite ?length_insert.
Qed.

Lemma suggestionsLookup_miss_fetches (w : World) (query : string) :
  cacheLookup (suggestionCache w)
    (suggestionCacheKey query (language (userProfile w)) (safe_mode (userProfile w)))
    (now w) = None →
  head (log (suggestionsLookup query w))
  = Some (EFetch (nextRequest w)
            (ReqSearch (suggestionParams query (language (userProfile w))
                                         (safe_mode (userProfile w))))
            (Some (length (controllers w)))).
Proof.
  intros Hmiss. unfold suggestionsLookup.
  destruct w as [? ? ? ? ? uc ? ? ? ? ? ? ? ? ? [] ?].
  destruct uc; wcbn; rewrite Hmiss; wcbn; by rewrite ?length_insert.
Qed.

(** Claim C6.  With the time to live of 30000 ms, a value stored under a key
    at time [T] is found by a lookup of that key at time [t] exactly when
    [t - T < 30000]: it is found at [T] itself and it is absent at
    [T + 30000 + eps] for every positive [eps].  A lookup that finds nothing
    (no entry, or an entry as old as the time to live) makes [searchMovies]
    and [getSearchSuggestions] issue their request. *)
Theorem cache_ttl :
  CACHE_TTL_MS = 30000 ∧
  (∀ A (cache : gmap string (CacheEntry A)) k (v : A) (T t : Z),
     cacheLookup (cacheStore cache k v T) k t = Some v ↔ t - T < 30000) ∧
  (∀ A (cache : gmap string (CacheEntry A)) k (v : A) (T : Z),
     cacheLookup (cacheStore cache k v T) k T = Some v) ∧
  (∀ A (cache : gmap string (CacheEntry A)) k (v : A) (T eps : Z),
     0 < eps → cacheLookup (cacheStore cache k v T) k (T + 30000 + eps) = None) ∧
  (∀ A (cache : gmap string (CacheEntry A)) k (t : Z),
     cacheLookup cache k t = None ↔
     cache !! k = None ∨ ∃ e, cache !! k = Some e ∧ 30000 ≤ t - time e) ∧
  (∀ w query,
     JS.trim query ≠ "" →
     cacheLookup (searchResultCache w)
       (searchCacheKey query (language (userProfile w)) (safe_mode (userProfile w)))
       (now w) = None →
     head (log (searchMovies query w))
     = Some (EFetch (nextRequest w)
               (ReqSearch (searchParams query (language (userProfile w))
                                        (safe_mode (userProfile w))))
               (Some (length (controllers w))))) ∧
  (∀ w query,
     cacheLookup (suggestionCache w)
       (suggestionCacheKey query (language (userProfile w)) (safe_mode (userProfile w)))
       (now w) = None →
     head (log (suggestionsLookup query w))
     = Some (EFetch (nextRequest w)
               (ReqSearch (suggestionParams query (language (userProfile w))
                                            (safe_mode (userProfile w))))
               (Some (length (controllers w))))).
Proof.
  split; [reflexivity|].
  split.
  { intros. rewrite cacheLookup_store. unfold CACHE_TTL_MS.
    destruct (t - T <? 30000) eqn:E.
    - apply Z.ltb_lt in E. by split.
    - apply Z.ltb_ge in E. split; [done | lia]. }
  split.
  { intros. rewrite cacheLookup_store. by rewrite Z.sub_diag. }
  split.
  { intros. rewrite cacheLookup_store. unfold CACHE_TTL_MS.
    destruct (_ <? _) eqn:E; [|done]. apply Z.ltb_lt in E. lia. }
  split; [intros; apply cacheLookup_None|].
  split; [apply searchMovies_miss_fetches | apply suggestionsLookup_miss_fetches].
Qed.

Lemma cache_ttl_witness :
  let w := setNow 30011 (run [(0, ASearch "up");
                              (10, AResponse 0%nat (RJson (JArray [])))] initialWorld) in
  cacheLookup (searchResultCache w) (searchCacheKey "up" ["en"] true) 30009
    = Some (JArray []) ∧
  cacheLookup (searchResultCache w) (searchCacheKey "up" ["en"] true) 30011 = None ∧
  head (log (searchMovies "up" w))
  = Some (EFetch 1%nat (ReqSearch (searchParams "up" ["en"] true)) (Some 1%nat)).
Proof.
  cbn zeta. destruct cache_ttl as (_ & _ & _ & Hexp & _ & Hsearch & _).
  split; [reflexivity|]. split; [exact (Hexp _ ∅ _ (JArray []) 10 1 ltac:(lia))|].
  apply (Hsearch (setNow 30011 (run [(0, ASearch "up");
                              (10, AResponse 0%nat (RJson (JArray [])))] initialWorld)) "up").
  - discriminate.
  - reflexivity.
Defined.

(** ** Cache keys *)

Section CacheKeys.

Lemma append_cons (x : ascii) (a b : string) : String x a +:+ b = String x (a +:+ b).
Proof. reflexivity. Qed.

Lemma append_assoc (a b c : string) : (a +:+ b) +:+ c = a +:+ (b +:+ c).
Proof. induction a as [|x a IH]; [done|]. by rewrite !append_cons, IH. Qed.

Lemma charIn_app (c : ascii) (a b : string) :
  charIn c (a +:+ b) = charIn c a || charIn c b.
Proof.
  induction a as [|x a IH]; [done|].
  rewrite append_cons. cbn [charIn]. by rewrite IH, orb_assoc.
Qed.

Lemma charIn_cons_same (c : ascii) (s : string) : charIn c (String c s) = true.
Proof. cbn. by rewrite Ascii.eqb_refl. Qed.

(** Cutting at the first occurrence of a separator. *)
Lemma sep_first_unique (c : ascii) (x1 x2 y1 y2 : string) :
  charIn c x1 = false → charIn c x2 = false →
  x1 +:+ String c y1 = x2 +:+ String c y2 → x1 = x2 ∧ y1 = y2.
Proof.
  revert x2. induction x1 as [|a x1 IH]; intros [|b x2] H1 H2 Heq.
  - by injection Heq as ->.
  - injection Heq as <- _. by rewrite charIn_cons_same in H2.
  - injection Heq as -> _. by rewrite charIn_cons_same in H1.
  - rewrite !append_cons in Heq. injection Heq as -> Heq.
    cbn [charIn] in H1, H2.
    apply orb_false_iff in H1 as [_ H1]. apply orb_false_iff in H2 as [_ H2].
    destruct (IH x2 H1 H2 Heq) as [-> ->]. done.
Qed.

(** Cutting at the last occurrence of a separator. *)
Lemma sep_last_unique (c : ascii) (x1 x2 y1 y2 : string) :
  charIn c y1 = false → charIn c y2 = false →
  x1 +:+ String c y1 = x2 +:+ String c y2 → x1 = x2 ∧ y1 = y2.
Proof.
  intros H1 H2. revert x2. induction x1 as [|a x1 IH]; intros [|b x2] Heq.
  - by injection Heq as ->.
  - rewrite append_cons in Heq. injection Heq as <- Heq.
    rewrite Heq, charIn_app, charIn_cons_same, orb_true_r in H1. done.
  - rewrite append_cons in Heq. injection Heq as -> Heq.
    rewrite <- Heq, charIn_app, charIn_cons_same, orb_true_r in H2. done.
  - rewrite !append_cons in Heq. injection Heq as -> Heq.
    destruct (IH x2 Heq) as [-> ->]. done.
Qed.

Lemma append_nonempty_l (a b : string) : a ≠ "" → a +:+ b ≠ "".
Proof. by destruct a. Qed.

Lemma join_cons2 (sep h h' : string) (t : list string) :
  JS.join sep (h :: h' :: t) = h +:+ sep +:+ JS.join sep (h' :: t).
Proof. reflexivity. Qed.

Lemma join_nonempty (sep h : string) (t : list string) :
  h ≠ "" → JS.join sep (h :: t) ≠ "".
Proof. intros Hh. destruct t; [done|]. rewrite join_cons2. by apply append_nonempty_l. Qed.

Lemma join_no_bar (langs : list string) :
  wfLanguages langs → charIn "|" (JS.join "," langs) = false.
Proof.
  induction 1 as [|h t (_ & _ & Hh) _ IH]; [done|].
  destruct t as [|h' t]; [done|].
  rewrite join_cons2, !charIn_app, Hh, IH. done.
Qed.

Lemma join_injective (l1 l2 : list string) :
  wfLanguages l1 → wfLanguages l2 →
  JS.join "," l1 = JS.join "," l2 → l1 = l2.
Proof.
  intros H1. revert l2.
  induction H1 as [|h1 t1 (Hne1 & Hc1 & _) Ht1 IH]; intros l2 H2 Heq.
  - destruct H2 as [|h2 t2 (Hne2 & _) _]; [done|].
    symmetry in Heq. by apply join_nonempty in Heq.
  - destruct H2 as [|h2 t2 (Hne2 & Hc2 & _) Ht2].
    { by apply join_nonempty in Heq. }
    destruct t1 as [|h1' t1], t2 as [|h2' t2].
    + cbn in Heq. by subst.
    + rewrite join_cons2 in Heq. cbn [JS.join String.concat] in Heq.
      rewrite Heq, charIn_app in Hc1. rewrite append_cons, charIn_cons_same in Hc1.
      by rewrite orb_true_r in Hc1.
    + rewrite join_cons2 in Heq. cbn [JS.join String.concat] in Heq.
      rewrite <- Heq, charIn_app in Hc2. rewrite append_cons, charIn_cons_same in Hc2.
      by rewrite orb_true_r in Hc2.
    + rewrite !join_cons2, !append_cons in Heq.
      apply sep_first_unique in Heq as [-> Heq]; [|done..].
      f_equal. by apply IH.
Qed.

(** Decoding undoes the encoding, so the encoding is injective. *)
Lemma urlDecode_encodeChar (c : ascii) (s : string) :
  urlDecode (URLSearchParams.encodeChar c +:+ s) = String c (urlDecode s).
Proof. destruct c as [[] [] [] [] [] [] [] []]; reflexivity. Qed.

Lemma urlDecode_encode (s : string) : urlDecode (URLSearchParams.encode s) = s.
Proof.
  induction s as [|c s IH]; [done|].
  cbn [URLSearchParams.encode]. by rewrite urlDecode_encodeChar, IH.
Qed.

Lemma encode_injective (s t : string) :
  URLSearchParams.encode s = URLSearchParams.encode t → s = t.
Proof. intros H. by rewrite <- (urlDecode_encode s), H, urlDecode_encode. Qed.

Lemma encodeChar_no_amp (c : ascii) (s : string) :
  charIn "&" (URLSearchParams.encodeChar c +:+ s) = charIn "&" s.
Proof. destruct c as [[] [] [] [] [] [] [] []]; reflexivity. Qed.

Lemma encode_no_amp (s : string) : charIn "&" (URLSearchParams.encode s) = false.
Proof.
  induction s as [|c s IH]; [done|].
  cbn [URLSearchParams.encode]. by rewrite encodeChar_no_amp.
Qed.

(** The key of the search cache, written out. *)
Lemma searchCacheKey_shape (query : string) (langs : list string) (safe : bool) :
  searchCacheKey query langs safe
  = "query=" +:+ URLSearchParams.encode query +:+
    String "&" ((if safe then "safe_mode=true&" else "") +:+
                match langs with
                | [] => "limit=10"
                | _ => "languages=" +:+ URLSearchParams.encode (JS.join "," langs)
                       +:+ "&limit=10"
                end).
Proof. destruct safe, langs as [|h t]; reflexivity. Qed.

Lemma suggestionCacheKey_shape (query : string) (langs : list string) (safe : bool) :
  suggestionCacheKey query langs safe
  = (query +:+ String "|" (JS.join "," langs))
    +:+ String "|" (if safe then "1" else "0").
Proof.
  unfold suggestionCacheKey. rewrite append_assoc, append_cons. reflexivity.
Qed.

Lemma suggestionCacheKey_injective q1 q2 l1 l2 (s1 s2 : bool) :
  wfLanguages l1 → wfLanguages l2 →
  suggestionCacheKey q1 l1 s1 = suggestionCacheKey q2 l2 s2 →
  q1 = q2 ∧ l1 = l2 ∧ s1 = s2.
Proof.
  intros H1 H2. rewrite !suggestionCacheKey_shape. intros Heq.
  apply sep_last_unique in Heq as [Heq Hs]; [|by destruct s1 | by destruct s2].
  apply sep_last_unique in Heq as [-> Hj]; [|by apply join_no_bar..].
  split; [done|]. split; [by apply join_injective|].
  by destruct s1, s2.
Qed.

Lemma string_cons_inj (c : ascii) (a b : string) : String c a = String c b → a = b.
Proof. by intros [= ->]. Qed.

Lemma append_nil_l (a : string) : "" +:+ a = a.
Proof. reflexivity. Qed.

Lemma searchCacheKey_injective q1 q2 l1 l2 (s1 s2 : bool) :
  wfLanguages l1 → wfLanguages l2 →
  searchCacheKey q1 l1 s1 = searchCacheKey q2 l2 s2 →
  q1 = q2 ∧ l1 = l2 ∧ s1 = s2.
Proof.
  intros H1 H2. rewrite !searchCacheKey_shape. intros Heq.
  rewrite !append_cons, !append_nil_l in Heq.
  repeat apply string_cons_inj in Heq.
  apply sep_first_unique in Heq as [Hq Heq]; [|apply encode_no_amp..].
  apply encode_injective in Hq as ->. split; [done|].
  destruct s1, s2, l1 as [|h1 t1], l2 as [|h2 t2];
    rewrite ?append_cons, ?append_nil_l in Heq;
    try discriminate Heq; try (split; reflexivity).
  all: repeat apply string_cons_inj in Heq;
    apply sep_first_unique in Heq as [Hj _]; [|apply encode_no_amp..];
    apply encode_injective in Hj; apply join_injective in Hj; [|done..];
    by rewrite Hj.
Qed.

End CacheKeys.

(** Claim C7.  Both cache keys are functions of the query text, the language
    list and the safe-mode flag alone, and for language codes that are not
    empty and contain neither "," nor "|" (as ISO codes are) two triples
    have the same key exactly when they are the same triple: distinct
    queries never collide, identical ones always hit.  The query text is
    arbitrary. *)
Theorem cache_key_injective (q1 q2 : string) (l1 l2 : list string) (s1 s2 : bool) :
  wfLanguages l1 → wfLanguages l2 →
  (suggestionCacheKey q1 l1 s1 = suggestionCacheKey q2 l2 s2
   ↔ q1 = q2 ∧ l1 = l2 ∧ s1 = s2) ∧
  (searchCacheKey q1 l1 s1 = searchCacheKey q2 l2 s2
   ↔ q1 = q2 ∧ l1 = l2 ∧ s1 = s2).
Proof.
  intros H1 H2. split; split.
  - by apply suggestionCacheKey_injective.
  - by intros (-> & -> & ->).
  - by apply searchCacheKey_injective.
  - by intros (-> & -> & ->).
Qed.

Lemma cache_key_injective_witness :
  suggestionCacheKey "a|b" ["en"; "hi"] true ≠ suggestionCacheKey "a" ["en"; "hi"] true ∧
  searchCacheKey "a|b" ["en"; "hi"] true ≠ searchCacheKey "a|b" ["en"; "hi"] false.
Proof.
  assert (wfLanguages ["en"; "hi"]) as Hwf.
  { repeat constructor; discriminate. }
  split; intros Heq.
  - apply (cache_key_injective "a|b" "a" ["en"; "hi"] ["en"; "hi"] true true Hwf Hwf)
      in Heq as [Hq _]. discriminate Hq.
  - apply (cache_key_injective "a|b" "a|b" ["en"; "hi"] ["en"; "hi"] true false Hwf Hwf)
      in Heq as (_ & _ & Hs). discriminate Hs.
Defined.

(** The hypothesis on the language codes is needed: a code with a comma in
    it is not told apart from two codes. *)
Lemma cache_key_separator_in_code :
  suggestionCacheKey "x" ["a"; "b"] true = suggestionCacheKey "x" ["a,b"] true ∧
  searchCacheKey "x" ["a"; "b"] true = searchCacheKey "x" ["a,b"] true.
Proof. split; reflexivity. Qed.

(** ** Search with no result *)

Section EmptySearch.

Lemma find_filter_removed (r : nat) (l : list (nat * Task)) :
  List.find (λ rt, Nat.eqb (fst rt) r)
            (List.filter (λ rt, negb (Nat.eqb (fst rt) r)) l) = None.
Proof.
  induction l as [|[r' t] l IH]; [done|]. cbn.
  destruct (Nat.eqb r' r) eqn:E; cbn; [done|]. by rewrite E.
Qed.

Lemma findTask_removeTask (r : nat) (w : World) : findTask r (removeTask r w) = None.
Proof.
  unfold findTask, removeTask. destruct w. wcbn. by rewrite find_filter_removed.
Qed.

End EmptySearch.

Section FocusInsideSearch.

Lemma suggestOnly_refl w : suggestOnly w w.
Proof. unfold suggestOnly. repeat split; try done; intros; by left. Qed.

Lemma suggestOnly_trans w1 w2 w3 :
  suggestOnly w1 w2 → suggestOnly w2 w3 → suggestOnly w1 w3.
Proof.
  intros (? & ? & ? & ? & ? & ? & ? & Hn & Hi & Hl) (? & ? & ? & ? & ? & ? & ? & Hn' & Hi' & Hl').
  unfold suggestOnly. repeat split; try congruence; try lia.
  - intros rt Hrt. destruct (Hi' rt Hrt) as [Hold|[Hge Hs]]; [by apply Hi|].
    right. split; [lia | done].
  - intros e He. destruct (Hl' e He) as [Hold|?]; [by apply Hl | by right].
Qed.

(** A field update that leaves all of this alone. *)
Lemma suggestOnly_quiet w w' :
  dom w' = dom w ∨
    (searchSectionHidden (dom w') = searchSectionHidden (dom w) ∧
     recommendationsHidden (dom w') = recommendationsHidden (dom w) ∧
     spinnerHidden (dom w') = spinnerHidden (dom w) ∧
     searchMoviesContent (dom w') = searchMoviesContent (dom w)) →
  userProfile w' = userProfile w → searchResultCache w' = searchResultCache w →
  now w' = now w → nextRequest w' = nextRequest w → inflight w' = inflight w →
  log w' = log w ∨ (∃ e, log w' = e :: log w ∧ suggestEffect e = true) →
  suggestOnly w w'.
Proof.
  intros Hd Hp Hc Hn Hr Hi Hl. unfold suggestOnly.
  assert (searchSectionHidden (dom w') = searchSectionHidden (dom w) ∧
          recommendationsHidden (dom w') = recommendationsHidden (dom w) ∧
          spinnerHidden (dom w') = spinnerHidden (dom w) ∧
          searchMoviesContent (dom w') = searchMoviesContent (dom w)) as (? & ? & ? & ?)
    by (destruct Hd as [->|?]; done).
  repeat split; try done; try lia.
  - intros rt. rewrite Hi. by left.
  - intros e. destruct Hl as [->|(e' & -> & He')]; [by left|].
    intros [->|?]%elem_of_cons; [by right | by left].
Qed.

Ltac sq := apply suggestOnly_quiet;
  [ first [ by left | right; by repeat split ] | done | done | done | done | done
  | first [ by left | right; eexists; by split ] ].

Lemma hideSuggestions_suggestOnly w : suggestOnly w (hideSuggestions w).
Proof. destruct w as [? ? ? ? ? ? ? ? ? ? ? ? ? ? ? [] ?]. unfold hideSuggestions. wcbn. sq. Qed.

Lemma displaySuggestions_suggestOnly l w :
  suggestOnly w (displaySuggestions l (setCurrentSuggestions l w)).
Proof.
  destruct w as [? ? ? ? ? ? ? ? ? ? ? ? ? ? ? [] ?]. unfold displaySuggestions. wcbn. sq.
Qed.

Lemma suggestionsLookup_suggestOnly q w : suggestOnly w (suggestionsLookup q w).
Proof.
  unfold suggestionsLookup. cbv zeta.
  destruct w as [? ? ? ? ? sc ? ? ? ? ? ? ? ? ? [] ?]. wcbn.
  destruct (cacheLookup _ _ _) as [cached|]; wcbn.
  - unfold suggestOnly. wcbn. repeat split; try done; try lia.
    + intros rt. by left.
    + intros e. rewrite !elem_of_cons. intros [->|[->|?]]; [by right | by right | by left].
  - destruct sc as [c|]; wcbn; unfold suggestOnly; wcbn; repeat split; try done; try lia.
    + intros rt [?| ->%list_elem_of_singleton]%elem_of_app; [by left|]. right. cbn. split; [lia|done].
    + intros e. rewrite !elem_of_cons.
      intros [->|[->|[->|[->|?]]]]; try (by right); by left.
    + intros rt [?| ->%list_elem_of_singleton]%elem_of_app; [by left|]. right. cbn. split; [lia|done].
    + intros e. rewrite !elem_of_cons.
      intros [->|[->|[->|?]]]; try (by right); by left.
Qed.

Lemma getSearchSuggestions_suggestOnly q w : suggestOnly w (getSearchSuggestions q w).
Proof.
  unfold getSearchSuggestions. cbv zeta.
  repeat match goal with |- context [if ?c then _ else _] => destruct c end;
    first [ apply hideSuggestions_suggestOnly | apply displaySuggestions_suggestOnly
          | apply suggestionsLookup_suggestOnly ].
Qed.

Lemma onFocus_suggestOnly v w : suggestOnly w (onFocus v w).
Proof.
  unfold onFocus. cbv zeta.
  repeat match goal with |- context [if ?c then _ else _] => destruct c end;
    first [ apply suggestOnly_refl | apply displaySuggestions_suggestOnly
          | apply getSearchSuggestions_suggestOnly ].
Qed.

Lemma focusSearchInput_suggestOnly w : suggestOnly w (focusSearchInput w).
Proof.
  unfold focusSearchInput. destruct (searchInputFocused (dom w)); [apply suggestOnly_refl|].
  eapply suggestOnly_trans; [|apply onFocus_suggestOnly].
  destruct w as [? ? ? ? ? ? ? ? ? ? ? ? ? ? ? [] ?]. wcbn. sq.
Qed.

Lemma focusSearchInput_focused w :
  searchInputFocused (dom w) = true → focusSearchInput w = w.
Proof. intros H. unfold focusSearchInput. by rewrite H. Qed.

End FocusInsideSearch.

Section EmptySearchSteps.

Lemma searchFinally_fields w :
  let w' := searchFinally w in
  searchSectionHidden (dom w') = searchSectionHidden (dom w) ∧
  recommendationsHidden (dom w') = recommendationsHidden (dom w) ∧
  spinnerHidden (dom w') = true ∧
  userProfile w' = userProfile w ∧ inflight w' = inflight w ∧
  nextRequest w' = nextRequest w ∧ log w' = log w ∧
  searchResultCache w' = searchResultCache w.
Proof. by destruct w as [? ? ? ? ? ? ? ? ? ? ? ? ? ? ? [] ?]. Qed.

(** [searchMovies] up to the [focus()] of its empty-result branch, when the
    cache holds the empty list. *)
Lemma searchMovies_empty_hit (w : World) (query : string) :
  JS.trim query ≠ "" →
  cacheLookup (searchResultCache w)
    (searchCacheKey query (language (userProfile w)) (safe_mode (userProfile w)))
    (now w) = Some (JArray []) →
  ∃ w0, searchMovies query w = searchFinally (focusSearchInput w0) ∧
        searchSectionHidden (dom w0) = true ∧ recommendationsHidden (dom w0) = true ∧
        userProfile w0 = userProfile w ∧ inflight w0 = inflight w ∧
        nextRequest w0 = nextRequest w ∧
        searchInputFocused (dom w0) = searchInputFocused (dom w) ∧
        (∀ e, e ∈ log w0 → e ∈ log w ∨
           match e with
           | EHideSuggestions | EAbort _ | ENewController _ _ | ESearchCacheGet _ => True
           | _ => False
           end).
Proof.
  intros Hq%truthy_nonempty Hhit.
  unfold searchMovies, searchCacheKey in *. rewrite Hq.
  destruct w as [? ? ? ? ? ? sc rc ? ? ? ? ? ? ? [] ?].
  destruct sc, rc; wcbn; rewrite Hhit; unfold searchResults; cbv zeta;
    (eexists; split; [reflexivity|]); wcbn; (repeat split; []);
    intros e He; repeat (apply elem_of_cons in He as [->|He]; [by right|]); by left.
Qed.

(** [deliver] up to the same point, for an empty answer. *)
Lemma deliver_empty (w : World) (r : nat) (key : string) (sig : option nat) :
  findTask r w = Some (TSearchFetch key sig) →
  ∃ w0, deliver r (RJson (JArray [])) w = searchFinally (focusSearchInput w0) ∧
        searchSectionHidden (dom w0) = true ∧ recommendationsHidden (dom w0) = true ∧
        userProfile w0 = userProfile w ∧
        inflight w0 = List.filter (λ rt, negb (Nat.eqb (fst rt) r)) (inflight w) ∧
        nextRequest w0 = nextRequest w ∧
        searchInputFocused (dom w0) = searchInputFocused (dom w) ∧
        searchResultCache w0 = cacheStore (searchResultCache w) key (JArray []) (now w) ∧
        log w0 = ESearchCacheSet key :: log w.
Proof.
  intros Hfind. unfold deliver. rewrite Hfind.
  unfold searchResume, searchResults, removeTask. cbv zeta.
  eexists; split; [reflexivity|].
  by destruct w as [? ? ? ? ? ? ? ? ? ? ? ? ? ? ? [] ?].
Qed.

End EmptySearchSteps.

(** Claim C8.  A search whose result list is empty, whether the list comes
    from the cache or from the network, ends in the ordinary way: the
    search-results and recommendations sections are both hidden, the spinner
    is hidden by the [finally] block, nothing is logged as an error, nothing
    is displayed in a movie container, the profile and its history are as
    before, and no recommendation request is issued.  The branch ends with
    [focus()] on the search box: when the box has the focus already nothing
    else happens (no request at all, no function suspended); when it has
    not, the focus listener runs inside the search, and all it can add is
    work on the suggestion panel, possibly a suggestion request.  The empty
    list from the network is stored in the cache like any other result. *)
Theorem search_empty_results (w : World) :
  (∀ query,
     JS.trim query ≠ "" →
     cacheLookup (searchResultCache w)
       (searchCacheKey query (language (userProfile w)) (safe_mode (userProfile w)))
       (now w) = Some (JArray []) →
     let w' := searchMovies query w in
     searchSectionHidden (dom w') = true ∧
     recommendationsHidden (dom w') = true ∧
     spinnerHidden (dom w') = true ∧
     userProfile w' = userProfile w ∧
     (∀ rt, rt ∈ inflight w' → rt ∈ inflight w ∨ isSuggestTask (snd rt) = true) ∧
     (∀ e, e ∈ log w' → e ∈ log w ∨
        match e with
        | EFetch _ (ReqRecommendations _ _ _) _
        | EFetch _ (ReqUserRecommendations _ _ _ _ _) _
        | EConsoleError | ESaveUserProfile | EDisplayMovies _ _ => False
        | _ => True
        end) ∧
     (searchInputFocused (dom w) = true →
      inflight w' = inflight w ∧ nextRequest w' = nextRequest w ∧
      ∀ e, e ∈ log w' → e ∈ log w ∨
        match e with
        | EFetch _ _ _ | EConsoleError | ESaveUserProfile | EDisplayMovies _ _ => False
        | _ => True
        end)) ∧
  (∀ r key sig,
     findTask r w = Some (TSearchFetch key sig) →
     let w' := deliver r (RJson (JArray [])) w in
     searchSectionHidden (dom w') = true ∧
     recommendationsHidden (dom w') = true ∧
     spinnerHidden (dom w') = true ∧
     userProfile w' = userProfile w ∧
     (∀ rt, rt ∈ inflight w' →
        (rt ∈ inflight w ∧ fst rt ≠ r) ∨
        ((nextRequest w ≤ fst rt)%nat ∧ isSuggestTask (snd rt) = true)) ∧
     searchResultCache w' !! key = Some (mkEntry (JArray []) (now w)) ∧
     (∀ e, e ∈ log w' → e ∈ log w ∨
        match e with
        | EFetch _ (ReqRecommendations _ _ _) _
        | EFetch _ (ReqUserRecommendations _ _ _ _ _) _
        | EConsoleError | ESaveUserProfile | EDisplayMovies _ _ => False
        | _ => True
        end) ∧
     (searchInputFocused (dom w) = true →
      findTask r w' = None ∧ (∀ rt, rt ∈ inflight w' → rt ∈ inflight w) ∧
      nextRequest w' = nextRequest w ∧ log w' = ESearchCacheSet key :: log w)).
Proof.
  split.
  - intros query Hq Hhit. cbn zeta.
    destruct (searchMovies_empty_hit w query Hq Hhit)
      as (w0 & -> & Hs & Hr & Hp & Hi & Hn & Hf & Hl).
    destruct (searchFinally_fields (focusSearchInput w0))
      as (Hs' & Hr' & Hsp' & Hp' & Hi' & Hn' & Hl' & _). cbn zeta in *.
    destruct (focusSearchInput_suggestOnly w0)
      as (Hs2 & Hr2 & _ & _ & Hp2 & _ & _ & _ & Hi2 & Hl2).
    rewrite Hs', Hr', Hsp', Hp', Hi', Hl', Hn', Hs2, Hr2, Hp2.
    split; [done|]. split; [done|]. split; [done|]. split; [done|].
    split; [|split].
    + intros rt Hrt. destruct (Hi2 rt Hrt) as [Hold|[_ Hsug]]; [left; by rewrite <- Hi | by right].
    + intros e He. destruct (Hl2 e He) as [Hold|Hsug].
      * destruct (Hl e Hold) as [?|Hown]; [by left|]. right. by destruct e.
      * right. destruct e as [| | ? [] ?| | | | | | | | | | | |]; done.
    + intros Hfoc. rewrite focusSearchInput_focused by (by rewrite Hf).
      split; [done|]. split; [done|]. intros e He.
      destruct (Hl e He) as [?|Hown]; [by left|]. right. by destruct e.
  - intros r key sig Hfind. cbn zeta.
    destruct (deliver_empty w r key sig Hfind)
      as (w0 & -> & Hs & Hr & Hp & Hi & Hn & Hf & Hc & Hl).
    destruct (searchFinally_fields (focusSearchInput w0))
      as (Hs' & Hr' & Hsp' & Hp' & Hi' & Hn' & Hl' & Hc'). cbn zeta in *.
    destruct (focusSearchInput_suggestOnly w0)
      as (Hs2 & Hr2 & _ & _ & Hp2 & Hc2 & _ & _ & Hi2 & Hl2).
    rewrite Hs', Hr', Hsp', Hp', Hi', Hl', Hn', Hc', Hs2, Hr2, Hp2, Hc2.
    split; [done|]. split; [done|]. split; [done|]. split; [done|].
    split; [|split; [|split]].
    + intros rt Hrt. destruct (Hi2 rt Hrt) as [Hold|[Hge Hsug]].
      * left. rewrite Hi in Hold. apply list_elem_of_In, filter_In in Hold as [Hin Hne].
        split; [by apply list_elem_of_In|]. by apply negb_true_iff, Nat.eqb_neq in Hne.
      * right. split; [lia | done].
    + rewrite Hc. unfold cacheStore. by rewrite lookup_insert_eq.
    + intros e He. destruct (Hl2 e He) as [Hold|Hsug].
      * rewrite Hl in Hold. apply elem_of_cons in Hold as [->|?]; [by right | by left].
      * right. destruct e as [| | ? [] ?| | | | | | | | | | | |]; done.
    + intros Hfoc. rewrite focusSearchInput_focused by (by rewrite Hf).
      destruct (searchFinally_fields w0) as (_ & _ & _ & _ & Hi0 & Hn0 & Hl0 & _).
      cbn zeta in *. unfold findTask. rewrite ?Hi0, ?Hn0, ?Hl0, ?Hi.
      split; [|split; [|split]]; try done.
      * by rewrite find_filter_removed.
      * intros rt. intros [Hin _]%list_elem_of_In%filter_In.
        by apply list_elem_of_In.
Qed.

Lemma search_empty_results_witness :
  let w0 := run [(0, ASearch "matrix");
                 (100, AResponse 0 (RJson (JArray [titled "The Matrix" 603])));
                 (110, ADisplayDone 1);
                 (200, AResponse 2 (RJson (JArray [titled "Inception" 27205])));
                 (210, ADisplayDone 3);
                 (300, AInput "zzzzzznotfound"); (320, ABlur);
                 (320, ASearch "zzzzzznotfound")] initialWorld in
  let w1 := deliver 4%nat (RJson (JArray [])) w0 in
  (searchSectionHidden (dom w0) = false ∧ recommendationsHidden (dom w0) = false ∧
   history (userProfile w0) = [603] ∧
   recommendationMoviesContent (dom w0) = [titled "Inception" 27205]) ∧
  (searchSectionHidden (dom w1) = true ∧ recommendationsHidden (dom w1) = true ∧
   spinnerHidden (dom w1) = true ∧ history (userProfile w1) = [603]) ∧
  inflight w1 = [(5%nat, TSuggestFetch (suggestionCacheKey "zzzzzznotfound" ["en"] true)
                                        (Some 3%nat))].
Proof.
  cbn zeta.
  pose proof (search_empty_results
    (run [(0, ASearch "matrix");
          (100, AResponse 0 (RJson (JArray [titled "The Matrix" 603])));
          (110, ADisplayDone 1);
          (200, AResponse 2 (RJson (JArray [titled "Inception" 27205])));
          (210, ADisplayDone 3);
          (300, AInput "zzzzzznotfound"); (320, ABlur);
          (320, ASearch "zzzzzznotfound")] initialWorld)) as [_ Hnet].
  specialize (Hnet 4%nat (searchCacheKey "zzzzzznotfound" ["en"] true) (Some 2%nat)).
  cbn zeta in Hnet. destruct Hnet as (Hs & Hr & Hsp & Hp & _); [vm_compute; reflexivity|].
  split; [repeat apply conj; vm_compute; reflexivity|].
  split; [|vm_compute; reflexivity].
  split; [exact Hs|]. split; [exact Hr|]. split; [exact Hsp|].
  rewrite Hp. vm_compute. reflexivity.
Defined.

(** ** One live controller per channel *)

Section ControllerFrame.

Lemma ctlSame_refl (w : World) : ctlSame w w.
Proof. by repeat split. Qed.

Lemma ctlSame_trans (w1 w2 w3 : World) : ctlSame w1 w2 → ctlSame w2 w3 → ctlSame w1 w3.
Proof.
  intros (? & ? & ? & ? & ?) (? & ? & ? & ? & ?). repeat split; congruence.
Qed.

Lemma ctlSame_controllerOf (w w' : World) (ch : Channel) :
  ctlSame w w' → controllerOf ch w' = controllerOf ch w.
Proof. intros (? & ? & ? & ? & ?). by destruct ch. Qed.

Lemma ctlSame_isAborted (w w' : World) (c : nat) :
  ctlSame w w' → isAborted c w' = isAborted c w.
Proof. intros (H & _). unfold isAborted. by rewrite H. Qed.

Lemma CtlInv_same (w w' : World) : ctlSame w w' → CtlInv w → CtlInv w'.
Proof.
  intros Hs [Ho Hc Hm Hf]. pose proof Hs as (Hctl & _ & _ & _ & Hlog).
  split.
  - by rewrite Hlog.
  - intros ch c. rewrite (ctlSame_controllerOf w w') by done. rewrite Hctl. apply Hc.
  - intros ch c. rewrite Hlog, (ctlSame_controllerOf w w') by done. apply Hm.
  - intros c. rewrite Hlog, (ctlSame_isAborted w w') by done. apply Hf.
Qed.

Lemma Ready_same (ch : Channel) (w w' : World) : ctlSame w w' → Ready ch w → Ready ch w'.
Proof.
  intros Hs [Hi Hr]. split; [by apply (CtlInv_same w)|].
  intros c. rewrite (ctlSame_controllerOf w w') by done.
  destruct Hs as (_ & _ & _ & _ & ->). apply Hr.
Qed.

End ControllerFrame.

(** Field updates and displays leave the controllers alone. *)
Ltac quiet :=
  lazymatch goal with
  | |- ctlSame ?w _ =>
      first [ is_var w; destruct w as [? ? ? ? ? ? ? ? ? ? ? ? ? ? ? [] ?] | idtac ];
      unfold ctlSame, ctlLog; wcbn; repeat split
  end.

Section QuietUpdates.

Lemma emit_same (e : Effect) (w : World) : isCtl e = false → ctlSame w (emit e w).
Proof. intros He. destruct w. unfold ctlSame, ctlLog. wcbn. cbn. rewrite He. by repeat split. Qed.

Lemma hideSuggestions_same w : ctlSame w (hideSuggestions w).
Proof. quiet. Qed.

Lemma displaySuggestions_same l w : ctlSame w (displaySuggestions l w).
Proof. quiet. Qed.

Lemma setCurrentSuggestions_same l w : ctlSame w (setCurrentSuggestions l w).
Proof. quiet. Qed.

Lemma displayMovies_same l c w : ctlSame w (displayMovies l c w).
Proof. unfold displayMovies. destruct c; quiet. Qed.

Lemma suspend_same t w : ctlSame w (suspend t w).
Proof. quiet. Qed.

Lemma fetch_same req s t w : ctlSame w (fetch req s t w).
Proof. quiet. Qed.

Lemma updDom_same f w : ctlSame w (updDom f w).
Proof. destruct w. unfold ctlSame, ctlLog. wcbn. by repeat split. Qed.

Lemma setNow_same t w : ctlSame w (setNow t w).
Proof. quiet. Qed.

Lemma setProfile_same p w : ctlSame w (setProfile p w).
Proof. quiet. Qed.

Lemma setSearchResultCache_same x w : ctlSame w (setSearchResultCache x w).
Proof. quiet. Qed.

Lemma setSuggestionCache_same x w : ctlSame w (setSuggestionCache x w).
Proof. quiet. Qed.

Lemma setInflight_same x n w : ctlSame w (setInflight x n w).
Proof. quiet. Qed.

Lemma setTimers_same x n w : ctlSame w (setTimers x n w).
Proof. quiet. Qed.

Lemma setSearchTimeout_same x w : ctlSame w (setSearchTimeout x w).
Proof. quiet. Qed.

Lemma setRecsDebounceTimeout_same x w : ctlSame w (setRecsDebounceTimeout x w).
Proof. quiet. Qed.

Lemma setTimeout_same cb d w : ctlSame w (setTimeout cb d w).
Proof. unfold setTimeout. quiet. Qed.

Lemma clearTimeout_same i w : ctlSame w (clearTimeout i w).
Proof. unfold clearTimeout. quiet. Qed.

End QuietUpdates.

Section ControllerOps.

Lemma abortIfSet_None ch w : controllerOf ch w = None → abortIfSet ch w = w.
Proof. intros H. unfold abortIfSet. by rewrite H. Qed.

Lemma abortIfSet_Some ch c w :
  controllerOf ch w = Some c →
  ctlLog (abortIfSet ch w) = EAbort c :: ctlLog w ∧
  controllers (abortIfSet ch w) = <[c := true]> (controllers w) ∧
  ∀ ch', controllerOf ch' (abortIfSet ch w) = controllerOf ch' w.
Proof.
  intros H. unfold abortIfSet. rewrite H. destruct w. unfold ctlLog. wcbn.
  repeat split; try by intros [].
Qed.

Lemma newController_fields ch w :
  ctlLog (newController ch w)
  = ENewController ch (length (controllers w)) :: ctlLog w ∧
  controllers (newController ch w) = controllers w ++ [false] ∧
  ∀ ch', controllerOf ch' (newController ch w)
         = if decide (ch' = ch) then Some (length (controllers w))
           else controllerOf ch' w.
Proof.
  destruct w. unfold newController, ctlLog. wcbn.
  split; [by destruct ch|]. split; [by destruct ch|].
  intros ch'. destruct ch, ch'; reflexivity.
Qed.

Lemma isAborted_insert (c c' : nat) (w w' : World) :
  controllers w' = <[c := true]> (controllers w) →
  isAborted c' w = true → isAborted c' w' = true.
Proof.
  unfold isAborted. intros ->. destruct (controllers w !! c') as [b|] eqn:E; [|done].
  intros ->. destruct (decide (c = c')) as [->|Hne].
  - rewrite list_lookup_insert_eq; [done|]. by apply lookup_lt_Some in E.
  - by rewrite list_lookup_insert_ne, E.
Qed.

Lemma abortIfSet_inv ch w : CtlInv w → CtlInv (abortIfSet ch w).
Proof.
  intros Hi. destruct (controllerOf ch w) as [c|] eqn:Hc;
    [|by rewrite abortIfSet_None].
  destruct (abortIfSet_Some ch c w Hc) as (Hlog & Hctl & Hof).
  destruct Hi as [Ho Hcur Hm Hf]. split.
  - rewrite Hlog. by split.
  - intros ch' c'. rewrite Hof, Hctl, length_insert. apply Hcur.
  - intros ch' c'. rewrite Hlog, Hof, elem_of_cons.
    intros [?|Hin]; [done|]. destruct (Hm ch' c' Hin); [by left | right; by right].
  - intros c'. rewrite Hlog, elem_of_cons. intros [[= ->]|Hin].
    + unfold isAborted. rewrite Hctl, list_lookup_insert_eq; [done|]. by eapply Hcur.
    + eapply isAborted_insert; [done|]. by apply Hf.
Qed.

Lemma abortIfSet_ready ch w : CtlInv w → Ready ch (abortIfSet ch w).
Proof.
  intros Hi. split; [by apply abortIfSet_inv|].
  destruct (controllerOf ch w) as [c|] eqn:Hc.
  - destruct (abortIfSet_Some ch c w Hc) as (Hlog & _ & Hof).
    intros c'. rewrite Hof, Hc, Hlog. intros [= <-]. by left.
  - rewrite abortIfSet_None by done. intros c'. by rewrite Hc.
Qed.

Lemma abortIfSet_keeps_ready ch ch' w : Ready ch w → Ready ch (abortIfSet ch' w).
Proof.
  intros [Hi Hr]. split; [by apply abortIfSet_inv|].
  destruct (controllerOf ch' w) as [c|] eqn:Hc;
    [|by rewrite abortIfSet_None].
  destruct (abortIfSet_Some ch' c w Hc) as (Hlog & _ & Hof).
  intros c'. rewrite Hof, Hlog. intros H. right. by apply Hr.
Qed.

Lemma newController_inv ch w : Ready ch w → CtlInv (newController ch w).
Proof.
  intros [[Ho Hcur Hm Hf] Hr].
  destruct (newController_fields ch w) as (Hlog & Hctl & Hof).
  split.
  - rewrite Hlog. split; [|done]. intros c' Hin.
    destruct (Hm ch c' Hin) as [Hc|?]; [by apply Hr | done].
  - intros ch' c'. rewrite Hof, Hctl, length_app. cbn. case_decide.
    + intros [= <-]. lia.
    + intros H'. apply Hcur in H'. lia.
  - intros ch' c'. rewrite Hlog, Hof, elem_of_cons. intros [[= -> ->]|Hin].
    + left. by rewrite decide_True.
    + case_decide as Hch.
      * subst ch'. right. right.
        destruct (Hm ch c' Hin) as [Hc|?]; [by apply Hr | done].
      * destruct (Hm ch' c' Hin); [by left | right; by right].
  - intros c'. rewrite Hlog, elem_of_cons. intros [?|Hin]; [done|].
    specialize (Hf c' Hin). unfold isAborted in *. rewrite Hctl.
    destruct (controllers w !! c') as [b|] eqn:E; [|done].
    by rewrite (lookup_app_l_Some _ _ _ _ E).
Qed.

End ControllerOps.

Ltac one_same :=
  first [ apply emit_same; reflexivity
        | apply hideSuggestions_same | apply displaySuggestions_same
        | apply setCurrentSuggestions_same | apply displayMovies_same
        | apply suspend_same | apply fetch_same | apply updDom_same
        | apply setNow_same | apply setProfile_same
        | apply setSearchResultCache_same | apply setSuggestionCache_same
        | apply setInflight_same | apply setTimers_same
        | apply setSearchTimeout_same | apply setRecsDebounceTimeout_same
        | apply setTimeout_same | apply clearTimeout_same ].

Ltac same :=
  repeat first
    [ apply ctlSame_refl
    | eapply ctlSame_trans; [| one_same]
    | match goal with
      | |- ctlSame _ (if ?c then _ else _) => destruct c
      | |- ctlSame _ (match ?x with _ => _ end) => destruct x
      end ].

Section QuietFlows.

Lemma searchFinally_same w : ctlSame w (searchFinally w).
Proof. unfold searchFinally. same. Qed.

Lemma searchCatch_same w : ctlSame w (searchCatch w).
Proof. unfold searchCatch, searchFinally. same. Qed.

Lemma suggestionsCatch_same w : ctlSame w (suggestionsCatch w).
Proof. unfold suggestionsCatch. same. Qed.

Lemma addToHistoryW_same i w : ctlSame w (addToHistoryW i w).
Proof. unfold addToHistoryW. same. Qed.

Lemma suggestionsResume_same k r w : ctlSame w (suggestionsResume k r w).
Proof.
  unfold suggestionsResume. destruct r as [[l|]|]; cbv zeta;
    [same | same | apply suggestionsCatch_same].
Qed.

Lemma recsResume_same r w : ctlSame w (recsResume r w).
Proof.
  unfold recsResume. destruct r as [[[|m rest]|]|]; cbv zeta;
    unfold searchFinally; try apply searchCatch_same; same.
Qed.

Lemma userRecsResume_same r w : ctlSame w (userRecsResume r w).
Proof. unfold userRecsResume. cbv zeta. same. Qed.

Lemma removeTask_same r w : ctlSame w (removeTask r w).
Proof. unfold removeTask. same. Qed.

Lemma loadPersonalizedRecommendations_same w :
  ctlSame w (loadPersonalizedRecommendations w).
Proof. unfold loadPersonalizedRecommendations. cbv zeta. same. Qed.

Lemma rateMovieW_same i b w : ctlSame w (rateMovieW i b w).
Proof.
  unfold rateMovieW. cbv zeta.
  eapply ctlSame_trans; [|apply loadPersonalizedRecommendations_same]. same.
Qed.

Lemma onInput_same v w : ctlSame w (onInput v w).
Proof. unfold onInput. cbv zeta. same. Qed.

Lemma reject_same t w : ctlSame w (reject t w).
Proof.
  destruct t; cbn [reject];
    first [apply ctlSame_refl | apply suggestionsCatch_same | apply searchCatch_same].
Qed.

Lemma foldl_reject_same (ts : list (nat * Task)) (w : World) :
  ctlSame w (foldl (λ w rt, reject (snd rt) w) w ts).
Proof.
  revert w. induction ts as [|rt ts IH]; intros w; [apply ctlSame_refl|].
  cbn. eapply ctlSame_trans; [apply (reject_same (snd rt))|apply IH].
Qed.

Lemma drainAborted_same w : ctlSame w (drainAborted w).
Proof.
  unfold drainAborted. cbv zeta.
  eapply ctlSame_trans; [|apply foldl_reject_same]. same.
Qed.

End QuietFlows.

(** One step of a proof that a flow keeps [CtlInv]. *)
Ltac inv_step :=
  lazymatch goal with
  | |- CtlInv (newController _ _) => apply newController_inv
  | |- Ready ?ch (abortIfSet ?ch _) => apply abortIfSet_ready
  | |- Ready _ (abortIfSet _ _) => apply abortIfSet_keeps_ready
  | |- CtlInv (abortIfSet _ _) => apply abortIfSet_inv
  | |- CtlInv (if ?c then _ else _) => destruct c
  | |- CtlInv (match ?x with _ => _ end) => destruct x
  | |- Ready _ _ => eapply Ready_same; [one_same|]
  | |- CtlInv _ => first [ assumption | eapply CtlInv_same; [one_same|] ]
  end.

Section Flows.

Lemma suggestionsLookup_inv q w : CtlInv w → CtlInv (suggestionsLookup q w).
Proof. intros Hi. unfold suggestionsLookup. cbv zeta. repeat inv_step. Qed.

Lemma getSearchSuggestions_inv q w : CtlInv w → CtlInv (getSearchSuggestions q w).
Proof.
  intros Hi. unfold getSearchSuggestions. cbv zeta.
  repeat first [ apply suggestionsLookup_inv | inv_step ].
Qed.

Lemma onFocus_inv v w : CtlInv w → CtlInv (onFocus v w).
Proof.
  intros Hi. unfold onFocus. cbv zeta.
  repeat first [ apply getSearchSuggestions_inv | inv_step ].
Qed.

Lemma focusSearchInput_inv w : CtlInv w → CtlInv (focusSearchInput w).
Proof.
  intros Hi. unfold focusSearchInput. destruct (searchInputFocused (dom w)); [done|].
  apply onFocus_inv. eapply CtlInv_same; [apply updDom_same | done].
Qed.

Lemma searchResults_inv r w : CtlInv w → CtlInv (searchResults r w).
Proof.
  intros Hi. unfold searchResults. destruct r as [[|top rest]|]; cbv zeta.
  - eapply CtlInv_same; [apply searchFinally_same|]. apply focusSearchInput_inv.
    repeat inv_step.
  - eapply CtlInv_same; [|exact Hi].
    eapply ctlSame_trans; [apply addToHistoryW_same|]. same.
  - eapply CtlInv_same; [apply searchFinally_same|]. apply focusSearchInput_inv.
    repeat inv_step.
Qed.

Lemma searchResume_inv k r w : CtlInv w → CtlInv (searchResume k r w).
Proof.
  intros Hi. unfold searchResume.
  destruct r as [j|]; [|by eapply CtlInv_same; [apply searchCatch_same|]]. cbv zeta.
  apply searchResults_inv. repeat inv_step.
Qed.

Lemma deliver_inv r resp w : CtlInv w → CtlInv (deliver r resp w).
Proof.
  intros Hi. unfold deliver.
  assert (CtlInv (removeTask r w)) as Hr
    by (eapply CtlInv_same; [apply removeTask_same | done]).
  destruct (findTask r w) as [[]|]; try done.
  - eapply CtlInv_same; [apply suggestionsResume_same | done].
  - by apply searchResume_inv.
  - eapply CtlInv_same; [apply recsResume_same | done].
  - eapply CtlInv_same; [apply userRecsResume_same | done].
Qed.

Lemma searchMovies_inv q w : CtlInv w → CtlInv (searchMovies q w).
Proof.
  intros Hi. unfold searchMovies. cbv zeta.
  repeat first [ apply searchResults_inv | inv_step ].
Qed.

Lemma searchAfterDisplay_inv top w : CtlInv w → CtlInv (searchAfterDisplay top w).
Proof. intros Hi. unfold searchAfterDisplay. cbv zeta. repeat inv_step. Qed.

Lemma userRecsCallback_inv w : CtlInv w → CtlInv (userRecsCallback w).
Proof. intros Hi. unfold userRecsCallback. cbv zeta. repeat inv_step. Qed.

Lemma displayDone_inv r w : CtlInv w → CtlInv (displayDone r w).
Proof.
  intros Hi. unfold displayDone. destruct (findTask r w) as [[]|]; try done.
  - apply searchAfterDisplay_inv. eapply CtlInv_same; [apply removeTask_same | done].
  - eapply CtlInv_same; [apply searchFinally_same|].
    eapply CtlInv_same; [apply removeTask_same | done].
  - eapply CtlInv_same; [apply removeTask_same | done].
Qed.

Lemma runCallback_inv cb w : CtlInv w → CtlInv (runCallback cb w).
Proof.
  intros Hi. destruct cb; cbn [runCallback].
  - apply getSearchSuggestions_inv. eapply CtlInv_same; [|done]. same.
  - by apply userRecsCallback_inv.
  - destruct (suggestionHovered (dom w)); [done|].
    eapply CtlInv_same; [apply hideSuggestions_same | done].
Qed.

Lemma handle_inv a w : CtlInv w → CtlInv (handle a w).
Proof.
  intros Hi. destruct a; cbn [handle]; try done.
  - eapply CtlInv_same; [|exact Hi].
    eapply ctlSame_trans; [apply updDom_same | apply onInput_same].
  - apply onFocus_inv. eapply CtlInv_same; [apply updDom_same | done].
  - by apply searchMovies_inv.
  - eapply CtlInv_same; [apply rateMovieW_same | done].
  - by apply deliver_inv.
  - by apply displayDone_inv.
  - eapply CtlInv_same; [|exact Hi]. unfold onBlur.
    eapply ctlSame_trans; [apply updDom_same | apply setTimeout_same].
  - eapply CtlInv_same; [apply updDom_same | done].
Qed.

Lemma fireDue_inv t w : CtlInv w → CtlInv (fireDue t w).
Proof.
  intros Hi. unfold fireDue. cbv zeta.
  assert (CtlInv (setTimers (List.filter (λ tm, negb (due tm <=? t)) (timers w))
                            (nextTimer w) w)) as Hi'
    by (eapply CtlInv_same; [apply setTimers_same | done]).
  revert Hi'. generalize (setTimers (List.filter (λ tm, negb (due tm <=? t)) (timers w))
                                    (nextTimer w) w).
  induction (List.filter (λ tm, due tm <=? t) (timers w)) as [|tm tms IH];
    intros w0 H0; [done|].
  cbn [foldl]. apply IH.
  eapply CtlInv_same; [apply drainAborted_same|].
  apply runCallback_inv. eapply CtlInv_same; [apply setNow_same | done].
Qed.

Lemma step_inv w ev : CtlInv w → CtlInv (step w ev).
Proof.
  intros Hi. unfold step. cbv zeta.
  eapply CtlInv_same; [apply drainAborted_same|].
  apply handle_inv. eapply CtlInv_same; [apply setNow_same|].
  by apply fireDue_inv.
Qed.

Lemma run_inv evs w : CtlInv w → CtlInv (run evs w).
Proof.
  revert w. induction evs as [|ev evs IH]; intros w Hi; [done|].
  cbn. apply IH. by apply step_inv.
Qed.

Lemma initialWorld_inv : CtlInv initialWorld.
Proof.
  split; cbn.
  - done.
  - by intros [].
  - intros ch c H. by apply elem_of_nil in H.
  - intros c H. by apply elem_of_nil in H.
Qed.

End Flows.

Section ControllerTrace.

Lemma abortBeforeNew_app (l1 l2 : list Effect) :
  abortBeforeNew (l1 ++ l2) → abortBeforeNew l2.
Proof. induction l1 as [|e l1 IH]; [done|]. cbn. intros [_ H]. by apply IH. Qed.

Lemma elem_of_ctl_filter (e : Effect) (l : list Effect) :
  isCtl e = true → e ∈ List.filter isCtl l ↔ e ∈ l.
Proof.
  intros He. rewrite !list_elem_of_In, filter_In. tauto.
Qed.

Lemma elem_of_ctlLog (e : Effect) (w : World) :
  isCtl e = true → e ∈ ctlLog w ↔ e ∈ trace w.
Proof.
  intros He. unfold ctlLog, trace. rewrite elem_of_ctl_filter by done.
  by rewrite elem_of_reverse.
Qed.

Lemma abort_precedes_new (w : World) (pre post : list Effect) ch c c' :
  abortBeforeNew (ctlLog w) →
  trace w = pre ++ ENewController ch c :: post →
  ENewController ch c' ∈ pre → EAbort c' ∈ pre.
Proof.
  unfold ctlLog, trace. intros Ho Htr.
  assert (log w = reverse post ++ ENewController ch c :: reverse pre) as Hlog.
  { rewrite <- (reverse_involutive (log w)), Htr.
    by rewrite reverse_app, reverse_cons, <- app_assoc. }
  rewrite Hlog, List.filter_app in Ho. apply abortBeforeNew_app in Ho.
  cbn in Ho. destruct Ho as [Ho _]. intros Hin.
  specialize (Ho c'). rewrite !elem_of_ctl_filter, !elem_of_reverse in Ho by done.
  by apply Ho.
Qed.

End ControllerTrace.

(** Claim C5.  In every run of the client, whenever a controller is made
    for a channel, every controller made for that channel earlier has been
    aborted before; so a controller that is not aborted is the one the
    channel variable holds, and a channel never has two controllers that are
    not aborted. *)
Theorem one_live_controller_per_channel (evs : list (Z * Action)) :
  let w := run evs initialWorld in
  (∀ pre post ch c c',
     trace w = pre ++ ENewController ch c :: post →
     ENewController ch c' ∈ pre → EAbort c' ∈ pre) ∧
  (∀ ch c,
     ENewController ch c ∈ trace w → isAborted c w = false →
     controllerOf ch w = Some c) ∧
  (∀ ch c c',
     ENewController ch c ∈ trace w → ENewController ch c' ∈ trace w →
     isAborted c w = false → isAborted c' w = false → c = c').
Proof.
  cbn zeta. pose proof (run_inv evs initialWorld initialWorld_inv) as [Ho Hcur Hm Hf].
  assert (∀ ch c, ENewController ch c ∈ trace (run evs initialWorld) →
                  isAborted c (run evs initialWorld) = false →
                  controllerOf ch (run evs initialWorld) = Some c) as Hlive.
  { intros ch c Hin Hna. apply elem_of_ctlLog in Hin; [|done].
    destruct (Hm ch c Hin) as [?|Hab]; [done|].
    apply Hf in Hab. congruence. }
  split; [|split; [exact Hlive|]].
  - intros pre post ch c c'. by apply abort_precedes_new.
  - intros ch c c' Hc Hc' Ha Ha'.
    pose proof (Hlive ch c Hc Ha). pose proof (Hlive ch c' Hc' Ha'). congruence.
Qed.

Lemma one_live_controller_per_channel_witness :
  let w := run [(0, ASearch "matrix"); (50, ASearch "inception")] initialWorld in
  trace w
  = [EHideSuggestions; ENewController ChSearch 0;
     ESearchCacheGet (searchCacheKey "matrix" ["en"] true);
     EFetch 0 (ReqSearch (searchParams "matrix" ["en"] true)) (Some 0%nat);
     EHideSuggestions; EAbort 0; ENewController ChSearch 1;
     ESearchCacheGet (searchCacheKey "inception" ["en"] true);
     EFetch 1 (ReqSearch (searchParams "inception" ["en"] true)) (Some 1%nat);
     EConsoleError] ∧
  EAbort 0 ∈ [EHideSuggestions; ENewController ChSearch 0;
     ESearchCacheGet (searchCacheKey "matrix" ["en"] true);
     EFetch 0 (ReqSearch (searchParams "matrix" ["en"] true)) (Some 0%nat);
     EHideSuggestions; EAbort 0] ∧
  controllerOf ChSearch w = Some 1%nat.
Proof.
  cbn zeta.
  destruct (one_live_controller_per_channel
              [(0, ASearch "matrix"); (50, ASearch "inception")]) as (Hord & Hlive & _).
  cbn zeta in Hord, Hlive.
  split; [reflexivity|]. split.
  - eapply (Hord _ _ ChSearch 1%nat 0%nat); [reflexivity|].
    apply elem_of_cons; right. apply elem_of_cons; by left.
  - apply Hlive; [|reflexivity].
    unfold trace. apply elem_of_reverse.
    do 3 (apply elem_of_cons; right). apply elem_of_cons; by left.
Defined.

(** ** Debounce *)

Create HintDb deb.

Section DebounceFrame.

Lemma debSame_refl w : debSame w w.
Proof. by repeat split. Qed.

Lemma debSame_trans w1 w2 w3 : debSame w1 w2 → debSame w2 w3 → debSame w1 w3.
Proof. intros (?&?&?&?&?) (?&?&?&?&?). repeat split; congruence. Qed.

Lemma emit_deb e w : isQuery e = false → debSame w (emit e w).
Proof. intros He. destruct w. unfold debSame. wcbn. repeat split. by destruct e. Qed.

Lemma updDom_deb f w : debSame w (updDom f w).
Proof. destruct w. unfold debSame. wcbn. by repeat split. Qed.

Lemma setProfile_deb p w : debSame w (setProfile p w).
Proof. destruct w. by repeat split. Qed.

Lemma setSearchResultCache_deb x w : debSame w (setSearchResultCache x w).
Proof. destruct w. by repeat split. Qed.

Lemma setSuggestionCache_deb x w : debSame w (setSuggestionCache x w).
Proof. destruct w. by repeat split. Qed.

Lemma setCurrentSuggestions_deb x w : debSame w (setCurrentSuggestions x w).
Proof. destruct w. by repeat split. Qed.

Lemma setInflight_deb x n w : debSame w (setInflight x n w).
Proof. destruct w. by repeat split. Qed.

Lemma setController_deb ch x w : debSame w (setController ch x w).
Proof. destruct w, ch; by repeat split. Qed.

Lemma setControllers_deb x w : debSame w (setControllers x w).
Proof. destruct w. by repeat split. Qed.

End DebounceFrame.

#[local] Hint Resolve emit_deb updDom_deb setProfile_deb setSearchResultCache_deb
  setSuggestionCache_deb setCurrentSuggestions_deb setInflight_deb
  setController_deb setControllers_deb : deb.
#[local] Hint Extern 1 (isQuery _ = false) => reflexivity : deb.

Ltac deb :=
  repeat first
    [ apply debSame_refl
    | eapply debSame_trans; [| solve [auto with deb nocore]]
    | match goal with
      | |- debSame _ (if ?c then _ else _) => destruct c
      | |- debSame _ (match ?x with _ => _ end) => destruct x
      end ].

Section DebounceFlows.

Lemma hideSuggestions_deb w : debSame w (hideSuggestions w).
Proof. unfold hideSuggestions. deb. Qed.

Lemma displaySuggestions_deb l w : debSame w (displaySuggestions l w).
Proof. unfold displaySuggestions. deb. Qed.

Lemma abortIfSet_deb ch w : debSame w (abortIfSet ch w).
Proof. unfold abortIfSet. deb. Qed.

Lemma newController_deb ch w : debSame w (newController ch w).
Proof. unfold newController. deb. Qed.

Lemma suspend_deb t w : debSame w (suspend t w).
Proof. unfold suspend. deb. Qed.

Lemma fetch_deb req s t w : debSame w (fetch req s t w).
Proof. unfold fetch, suspend. deb. Qed.

Lemma displayMovies_deb l c w : debSame w (displayMovies l c w).
Proof. unfold displayMovies. cbv zeta. deb. Qed.

End DebounceFlows.

#[local] Hint Resolve hideSuggestions_deb displaySuggestions_deb abortIfSet_deb
  newController_deb suspend_deb fetch_deb displayMovies_deb : deb.

Section DebounceCallbacks.

Lemma suggestionsLookup_deb q w : debSame w (suggestionsLookup q w).
Proof. unfold suggestionsLookup. cbv zeta. deb. Qed.

Lemma getSearchSuggestions_deb q w : debSame w (getSearchSuggestions q w).
Proof.
  unfold getSearchSuggestions. cbv zeta.
  repeat first [ apply suggestionsLookup_deb | progress deb ].
Qed.

Lemma userRecsCallback_deb w : debSame w (userRecsCallback w).
Proof. unfold userRecsCallback. cbv zeta. deb. Qed.

Lemma blurCallback_deb w : debSame w (runCallback CbBlur w).
Proof. cbn [runCallback]. destruct (suggestionHovered (dom w)); deb. Qed.

Lemma suggestionsCatch_deb w : debSame w (suggestionsCatch w).
Proof. unfold suggestionsCatch. deb. Qed.

Lemma searchCatch_deb w : debSame w (searchCatch w).
Proof. unfold searchCatch, searchFinally. deb. Qed.

Lemma reject_deb t w : debSame w (reject t w).
Proof.
  destruct t; cbn [reject];
    first [apply debSame_refl | apply suggestionsCatch_deb | apply searchCatch_deb].
Qed.

Lemma foldl_reject_deb (ts : list (nat * Task)) (w : World) :
  debSame w (foldl (λ w rt, reject (snd rt) w) w ts).
Proof.
  revert w. induction ts as [|rt ts IH]; intros w; [apply debSame_refl|].
  cbn [foldl]. eapply debSame_trans; [apply (reject_deb (snd rt))|apply IH].
Qed.

Lemma drainAborted_deb w : debSame w (drainAborted w).
Proof.
  unfold drainAborted. cbv zeta.
  eapply debSame_trans; [|apply foldl_reject_deb]. apply setInflight_deb.
Qed.

End DebounceCallbacks.

Section DebounceTimers.

Lemma fireDue_fold t w :
  fireDue t w
  = foldl fireTimer
      (setTimers (List.filter (λ tm, negb (due tm <=? t)) (timers w)) (nextTimer w) w)
      (List.filter (λ tm, due tm <=? t) (timers w)).
Proof. reflexivity. Qed.

Lemma fireTimer_fields w tm :
  let w' := fireTimer w tm in
  timers w' = timers w ∧ searchTimeout w' = searchTimeout w ∧
  nextTimer w' = nextTimer w ∧ now w' = Z.max (now w) (due tm) ∧
  queriesMade w' = map snd (option_list (timerQuery tm)) ++ queriesMade w.
Proof.
  cbn zeta. unfold fireTimer, queriesMade, timerQuery.
  destruct (callback tm) as [q| |]; [cbn [runCallback]..|].
  - pose proof (drainAborted_deb
      (getSearchSuggestions q
         (emit (ESuggestionsQuery (now (setNow (now w `max` due tm) w)) q)
               (setNow (now w `max` due tm) w)))) as (Hn & Ht & Hs & Hx & Hq).
    pose proof (getSearchSuggestions_deb q
         (emit (ESuggestionsQuery (now (setNow (now w `max` due tm) w)) q)
               (setNow (now w `max` due tm) w))) as (Hn' & Ht' & Hs' & Hx' & Hq').
    rewrite Hn, Ht, Hs, Hx, Hq, Hn', Ht', Hs', Hx', Hq'.
    destruct w. wcbn. by repeat split.
  - pose proof (drainAborted_deb (userRecsCallback (setNow (now w `max` due tm) w)))
      as (Hn & Ht & Hs & Hx & Hq).
    pose proof (userRecsCallback_deb (setNow (now w `max` due tm) w))
      as (Hn' & Ht' & Hs' & Hx' & Hq').
    rewrite Hn, Ht, Hs, Hx, Hq, Hn', Ht', Hs', Hx', Hq'.
    destruct w. wcbn. by repeat split.
  - pose proof (drainAborted_deb (runCallback CbBlur (setNow (now w `max` due tm) w)))
      as (Hn & Ht & Hs & Hx & Hq).
    pose proof (blurCallback_deb (setNow (now w `max` due tm) w))
      as (Hn' & Ht' & Hs' & Hx' & Hq').
    rewrite Hn, Ht, Hs, Hx, Hq, Hn', Ht', Hs', Hx', Hq'.
    destruct w. wcbn. by repeat split.
Qed.

Lemma foldl_fireTimer_fields (l : list Timer) (w : World) (t : Z) :
  let w' := foldl fireTimer w l in
  timers w' = timers w ∧ searchTimeout w' = searchTimeout w ∧
  nextTimer w' = nextTimer w ∧
  queriesMade w' = reverse (map snd (omap timerQuery l)) ++ queriesMade w ∧
  ((∀ tm, tm ∈ l → due tm ≤ t) → now w ≤ t → now w' ≤ t).
Proof.
  cbn zeta. revert w. induction l as [|tm l IH]; intros w.
  - cbn. by repeat split.
  - cbn [foldl]. destruct (IH (fireTimer w tm)) as (Ht & Hs & Hx & Hq & Hn).
    destruct (fireTimer_fields w tm) as (Ht' & Hs' & Hx' & Hn' & Hq').
    rewrite Ht, Hs, Hx, Hq, Ht', Hs', Hx', Hq'. repeat split.
    + cbn [omap list_omap]. destruct (timerQuery tm) as [dq|];
        cbn [option_list map app]; [|done].
      by rewrite reverse_cons, <- app_assoc.
    + intros Hdue Hnow. apply Hn.
      * intros tm' Hin. apply Hdue. by right.
      * rewrite Hn'. specialize (Hdue tm ltac:(by left)). lia.
Qed.

Lemma omap_filter_due (f : Z → bool) (l : list Timer) :
  omap timerQuery (List.filter (λ tm, f (due tm)) l)
  = List.filter (λ dq, f (fst dq)) (omap timerQuery l).
Proof.
  induction l as [|tm l IH]; [done|]. cbn [List.filter omap list_omap].
  unfold timerQuery at 2. destruct (callback tm) as [q| |] eqn:E.
  - cbn [List.filter fst]. destruct (f (due tm)); [|exact IH].
    cbn [omap list_omap]. unfold timerQuery at 1. rewrite E. by rewrite IH.
  - destruct (f (due tm)); [|exact IH].
    cbn [omap list_omap]. unfold timerQuery at 1. rewrite E. exact IH.
  - destruct (f (due tm)); [|exact IH].
    cbn [omap list_omap]. unfold timerQuery at 1. rewrite E. exact IH.
Qed.

Lemma filter_all {A} (f : A → bool) (l : list A) :
  (∀ x, x ∈ l → f x = true) → List.filter f l = l.
Proof.
  induction l as [|x l IH]; [done|]. intros H. cbn.
  rewrite (H x) by left. f_equal. apply IH. intros y Hy. apply H. by right.
Qed.

Lemma fireDue_fields t w :
  let w' := fireDue t w in
  scheduled w' = List.filter (λ dq, negb (fst dq <=? t)) (scheduled w) ∧
  (∀ tm, tm ∈ timers w' → tm ∈ timers w) ∧
  searchTimeout w' = searchTimeout w ∧
  queriesMade w'
  = reverse (map snd (List.filter (λ dq, fst dq <=? t) (scheduled w))) ++ queriesMade w ∧
  (now w ≤ t → now w' ≤ t).
Proof.
  cbn zeta. rewrite fireDue_fold.
  destruct (foldl_fireTimer_fields
              (List.filter (λ tm, due tm <=? t) (timers w))
              (setTimers (List.filter (λ tm, negb (due tm <=? t)) (timers w))
                         (nextTimer w) w) t) as (Ht & Hs & Hx & Hq & Hn).
  unfold scheduled. rewrite Ht, Hs, Hq.
  rewrite (omap_filter_due (λ d, d <=? t)).
  destruct w. wcbn. unfold queriesMade. wcbn.
  split; [apply (omap_filter_due (λ d, negb (d <=? t)))|].
  split.
  { intros tm Hin. apply list_elem_of_In, filter_In in Hin as [Hin _].
    by apply list_elem_of_In. }
  split; [done|]. split; [done|].
  intros Hnow. apply Hn; [|done].
  intros tm Hin. apply list_elem_of_In, filter_In in Hin as [_ Hd].
  by apply Z.leb_le.
Qed.

Lemma omap_nil_None {A B} (f : A → option B) (l : list A) :
  omap f l = [] ↔ ∀ x, x ∈ l → f x = None.
Proof.
  induction l as [|x l IH]; cbn [omap list_omap].
  - split; [intros _ x Hx; by apply elem_of_nil in Hx | done].
  - destruct (f x) as [y|] eqn:E.
    + split; [done|]. intros H. specialize (H x ltac:(by left)). congruence.
    + rewrite IH. split.
      * intros H y [->|Hy]%elem_of_cons; [done | by apply H].
      * intros H y Hy. apply H. by right.
Qed.

Lemma elem_of_insertTimer (tm t : Timer) (l : list Timer) :
  tm ∈ insertTimer t l ↔ tm = t ∨ tm ∈ l.
Proof.
  induction l as [|t' l IH]; cbn [insertTimer].
  - rewrite list_elem_of_singleton, elem_of_nil. tauto.
  - destruct (due t' <=? due t).
    + rewrite !elem_of_cons, IH. tauto.
    + rewrite !elem_of_cons. tauto.
Qed.

Lemma omap_insertTimer (t : Timer) (l : list Timer) :
  omap timerQuery l = [] →
  omap timerQuery (insertTimer t l) = option_list (timerQuery t).
Proof.
  induction l as [|t' l IH]; cbn [insertTimer omap list_omap].
  - intros _. by destruct (timerQuery t).
  - destruct (timerQuery t') as [dq|] eqn:E; [done|]. intros Hl.
    destruct (due t' <=? due t); cbn [omap list_omap]; rewrite E.
    + by apply IH.
    + rewrite Hl. by destruct (timerQuery t).
Qed.

End DebounceTimers.

Section DebounceSteps.

Lemma DebInv_of_nothing_scheduled w : scheduled w = [] → DebInv w.
Proof.
  unfold scheduled, DebInv. rewrite omap_nil_None.
  intros H tm Hin [dq Hq]. rewrite (H tm Hin) in Hq. done.
Qed.

(** Clearing the timer whose id [searchTimeout] holds leaves no suggestion
    timer pending. *)
Lemma clear_search_timer w :
  DebInv w →
  let w1 := match searchTimeout w with Some i => clearTimeout i w | None => w end in
  scheduled w1 = [] ∧ now w1 = now w ∧ nextTimer w1 = nextTimer w ∧
  suggestQueries (log w1) = suggestQueries (log w).
Proof.
  intros Hd. cbn zeta. unfold scheduled, DebInv in *.
  destruct (searchTimeout w) as [i|] eqn:Hs.
  - unfold clearTimeout. destruct w. wcbn. repeat split.
    apply omap_nil_None. intros tm [Hne Hin]%list_elem_of_filter.
    destruct (timerQuery tm) eqn:E; [|done].
    specialize (Hd tm Hin ltac:(by eexists)). congruence.
  - repeat split. apply omap_nil_None. intros tm Hin.
    destruct (timerQuery tm) eqn:E; [|done].
    specialize (Hd tm Hin ltac:(by eexists)). congruence.
Qed.

Lemma onInput_fields v w :
  DebInv w →
  let w' := onInput v w in
  DebInv w' ∧ now w' = now w ∧ scheduled w' = scheduleOf (now w, v) ∧
  queriesMade w' = queriesMade w.
Proof.
  intros Hd. cbn zeta. unfold onInput. cbv zeta.
  pose proof (clear_search_timer w Hd) as H. cbn zeta in H. revert H.
  generalize (match searchTimeout w with Some i => clearTimeout i w | None => w end).
  intros w1 (Hsch & Hnow & Hnext & Hq).
  unfold scheduleOf, queriesMade. cbn [fst snd].
  destruct (JS.truthy (JS.trim v)); cbn [negb].
  - unfold scheduled, DebInv, setTimeout in *. rewrite <- Hnow, <- Hq. clear Hd Hnow Hq Hnext.
    destruct w1. wcbn. repeat split.
    + intros tm [->|Hin]%elem_of_insertTimer [dq Hsome]; [done|].
      rewrite omap_nil_None in Hsch. by rewrite (Hsch tm Hin) in Hsome.
    + by rewrite omap_insertTimer.
  - destruct (hideSuggestions_deb w1) as (Hn' & Ht' & Hs' & Hx' & Hq').
    split; [|split; [congruence|split]].
    + apply DebInv_of_nothing_scheduled. unfold scheduled in *. by rewrite Ht'.
    + unfold scheduled in *. by rewrite Ht'.
    + by rewrite Hq', Hq.
Qed.

Lemma setNow_fields t w :
  timers (setNow t w) = timers w ∧ searchTimeout (setNow t w) = searchTimeout w ∧
  now (setNow t w) = t ∧ log (setNow t w) = log w.
Proof. by destruct w. Qed.

(** A keystroke at time [t], when nothing scheduled is due by then. *)
Lemma key_step w t v :
  DebInv w → now w ≤ t → (∀ dq, dq ∈ scheduled w → t < fst dq) →
  let w' := step w (t, AInput v) in
  DebInv w' ∧ now w' = t ∧ scheduled w' = scheduleOf (t, v) ∧
  queriesMade w' = queriesMade w.
Proof.
  intros Hd Hnow Hlate. cbn zeta. unfold step. cbn [fst snd handle].
  destruct (fireDue_fields t w) as (Hsch & Htm & Hst & Hq & Hn).
  specialize (Hn Hnow).
  rewrite (filter_none _ (scheduled w)) in Hq.
  2:{ intros dq Hin. apply Z.leb_gt. by apply Hlate. }
  rewrite (filter_all _ (scheduled w)) in Hsch.
  2:{ intros dq Hin. apply negb_true_iff, Z.leb_gt. by apply Hlate. }
  cbn [map reverse app] in Hq.
  set (w1 := updDom (setSearchInput v true)
               (setNow (now (fireDue t w) `max` t) (fireDue t w))).
  assert (timers w1 = timers (fireDue t w) ∧
          searchTimeout w1 = searchTimeout (fireDue t w) ∧
          now w1 = now (fireDue t w) `max` t ∧ log w1 = log (fireDue t w))
    as (Ht1 & Hs1 & Hn1 & Hl1) by (subst w1; by destruct (fireDue t w)).
  assert (DebInv w1) as Hd1.
  { intros tm Hin Hsome. rewrite Ht1 in Hin. rewrite Hs1, Hst.
    apply Hd; [by apply Htm | done]. }
  destruct (onInput_fields v w1 Hd1) as (Hd2 & Hn2 & Hsch2 & Hq2).
  destruct (drainAborted_deb (onInput v w1)) as (Hn3 & Ht3 & Hs3 & Hx3 & Hq3).
  assert (now w1 = t) as Hw1 by lia.
  repeat split.
  - intros tm. rewrite Ht3, Hs3. apply Hd2.
  - by rewrite Hn3, Hn2.
  - unfold scheduled in *. by rewrite Ht3, Hsch2, Hw1.
  - unfold queriesMade in *. by rewrite Hq3, Hq2, Hl1, Hq.
Qed.

(** Time passes until [t], when everything scheduled is due. *)
Lemma tick_step w t :
  (∀ dq, dq ∈ scheduled w → fst dq ≤ t) →
  let w' := step w (t, ATick) in
  scheduled w' = [] ∧
  queriesMade w' = reverse (map snd (scheduled w)) ++ queriesMade w.
Proof.
  intros Hdue. cbn zeta. unfold step. cbn [fst snd handle].
  destruct (fireDue_fields t w) as (Hsch & _ & _ & Hq & _).
  rewrite (filter_all _ (scheduled w)) in Hq.
  2:{ intros dq Hin. apply Z.leb_le. by apply Hdue. }
  rewrite (filter_none _ (scheduled w)) in Hsch.
  2:{ intros dq Hin. apply negb_false_iff, Z.leb_le. by apply Hdue. }
  destruct (setNow_fields (now (fireDue t w) `max` t) (fireDue t w))
    as (Ht1 & _ & _ & Hl1).
  destruct (drainAborted_deb (setNow (now (fireDue t w) `max` t) (fireDue t w)))
    as (_ & Ht3 & _ & _ & Hq3).
  unfold scheduled, queriesMade in *. rewrite Ht3, Ht1, Hq3, Hl1. by split.
Qed.

Lemma run_keys (rest : list (Z * string)) (k : Z * string) (w : World) :
  DebInv w → now w ≤ fst k → (∀ dq, dq ∈ scheduled w → fst k < fst dq) →
  rapid (fst k) rest →
  let w' := run (keyEvents (k :: rest)) w in
  DebInv w' ∧ now w' = fst (lastKey k rest) ∧
  scheduled w' = scheduleOf (lastKey k rest) ∧
  queriesMade w' = queriesMade w.
Proof.
  cbn zeta. revert k w. induction rest as [|k' rest IH]; intros [t v] w Hd Hnow Hlate Hrapid.
  - cbn. by apply key_step.
  - destruct k' as [t' v']. cbn [rapid fst] in Hrapid. destruct Hrapid as [Hgap Hrapid].
    destruct (key_step w t v Hd Hnow Hlate) as (Hd1 & Hn1 & Hs1 & Hq1).
    cbn [keyEvents map run foldl fst snd lastKey] in *.
    specialize (IH (t', v') (step w (t, AInput v)) Hd1).
    cbn [keyEvents map run foldl fst snd] in IH.
    rewrite <- Hq1. apply IH; [lia| |done].
    intros dq. rewrite Hs1. unfold scheduleOf. cbn [fst snd].
    destruct (JS.truthy (JS.trim v)); [|by intros ?%elem_of_nil].
    intros ->%list_elem_of_singleton. cbn. lia.
Qed.

End DebounceSteps.

Section DebounceReachable.

Lemma DebInv_same w w' : debSame w w' → DebInv w → DebInv w'.
Proof.
  intros (_ & Ht & Hs & _ & _) Hd tm. rewrite Ht, Hs. apply Hd.
Qed.

Lemma onFocus_deb v w : debSame w (onFocus v w).
Proof.
  unfold onFocus. cbv zeta.
  repeat first [ apply getSearchSuggestions_deb | progress deb ].
Qed.

Lemma focusSearchInput_deb w : debSame w (focusSearchInput w).
Proof.
  unfold focusSearchInput. destruct (searchInputFocused (dom w)); [apply debSame_refl|].
  eapply debSame_trans; [|apply onFocus_deb]. deb.
Qed.

Lemma searchResults_deb r w : debSame w (searchResults r w).
Proof.
  unfold searchResults, addToHistoryW, searchFinally.
  destruct r as [[|top rest]|]; cbv zeta;
    repeat first [ (eapply debSame_trans; [|apply focusSearchInput_deb]) | progress deb ].
Qed.

Lemma searchMovies_deb q w : debSame w (searchMovies q w).
Proof.
  unfold searchMovies. cbv zeta.
  repeat first [ (eapply debSame_trans; [|apply searchResults_deb]) | progress deb ].
Qed.

Lemma removeTask_deb r w : debSame w (removeTask r w).
Proof. unfold removeTask. deb. Qed.

Lemma deliver_deb r resp w : debSame w (deliver r resp w).
Proof.
  unfold deliver. destruct (findTask r w) as [[]|]; try apply debSame_refl;
    (eapply debSame_trans; [apply removeTask_deb|]).
  - unfold suggestionsResume. destruct resp as [[l|]|]; cbv zeta;
      [deb | deb | apply suggestionsCatch_deb].
  - unfold searchResume. destruct resp as [j|]; [|apply searchCatch_deb]. cbv zeta.
    eapply debSame_trans; [|apply searchResults_deb]. deb.
  - unfold recsResume, searchFinally.
    destruct resp as [[[|m rest]|]|]; cbv zeta; try apply searchCatch_deb; deb.
  - unfold userRecsResume. cbv zeta. deb.
Qed.

Lemma displayDone_deb r w : debSame w (displayDone r w).
Proof.
  unfold displayDone. destruct (findTask r w) as [[]|]; try apply debSame_refl;
    (eapply debSame_trans; [apply removeTask_deb|]).
  - unfold searchAfterDisplay. cbv zeta. deb.
  - unfold searchFinally. deb.
  - apply debSame_refl.
Qed.

Lemma rateMovieW_DebInv i b w : DebInv w → DebInv (rateMovieW i b w).
Proof.
  intros Hd. unfold rateMovieW, loadPersonalizedRecommendations. cbv zeta.
  assert (DebInv (emit ESaveUserProfile (setProfile (rateMovie i b (userProfile w)) w)))
    as Hd1 by (eapply DebInv_same; [|exact Hd]; deb).
  revert Hd1. generalize (emit ESaveUserProfile (setProfile (rateMovie i b (userProfile w)) w)).
  clear Hd. intros w1 Hd.
  assert (DebInv (match recsDebounceTimeout w1 with
                  | Some j => clearTimeout j w1 | None => w1 end)) as Hd2.
  { destruct (recsDebounceTimeout w1) as [j|]; [|done].
    unfold DebInv, clearTimeout in *. destruct w1. wcbn.
    intros tm [_ Hin]%list_elem_of_filter. by apply Hd. }
  revert Hd2. generalize (match recsDebounceTimeout w1 with
                          | Some j => clearTimeout j w1 | None => w1 end).
  clear Hd. intros w2 Hd. unfold DebInv, setTimeout in *. destruct w2. wcbn.
  intros tm [->|Hin]%elem_of_insertTimer [dq Hsome]; [done|].
  apply Hd; [done | by eexists].
Qed.

Lemma onBlur_DebInv w :
  DebInv w → DebInv (onBlur (updDom (setSearchInputFocused false) w)).
Proof.
  intros Hd. unfold onBlur, DebInv, setTimeout in *. destruct w. wcbn.
  intros tm [->|Hin]%elem_of_insertTimer [dq Hsome]; [done|].
  apply Hd; [done | by eexists].
Qed.

Lemma fireDue_DebInv t w : DebInv w → DebInv (fireDue t w).
Proof.
  intros Hd. rewrite fireDue_fold.
  destruct (foldl_fireTimer_fields
              (List.filter (λ tm, due tm <=? t) (timers w))
              (setTimers (List.filter (λ tm, negb (due tm <=? t)) (timers w))
                         (nextTimer w) w) t) as (Ht & Hs & _).
  intros tm. rewrite Ht, Hs. unfold DebInv in Hd. destruct w. wcbn.
  intros [Hin _]%list_elem_of_In%filter_In. apply Hd. by apply list_elem_of_In.
Qed.

Lemma step_DebInv w ev : DebInv w → DebInv (step w ev).
Proof.
  intros Hd. unfold step. cbv zeta.
  eapply DebInv_same; [apply drainAborted_deb|].
  assert (DebInv (setNow (now (fireDue (fst ev) w) `max` fst ev) (fireDue (fst ev) w)))
    as Hd1.
  { pose proof (fireDue_DebInv (fst ev) w Hd) as Hf.
    destruct (setNow_fields (now (fireDue (fst ev) w) `max` fst ev) (fireDue (fst ev) w))
      as (Ht & Hs & _).
    intros tm. rewrite Ht, Hs. apply Hf. }
  revert Hd1. generalize (setNow (now (fireDue (fst ev) w) `max` fst ev) (fireDue (fst ev) w)).
  intros w1 Hd1. destruct (snd ev); cbn [handle]; try done.
  - apply onInput_fields. eapply DebInv_same; [apply updDom_deb | done].
  - eapply DebInv_same; [|exact Hd1].
    eapply debSame_trans; [apply updDom_deb | apply onFocus_deb].
  - eapply DebInv_same; [apply searchMovies_deb | done].
  - by apply rateMovieW_DebInv.
  - eapply DebInv_same; [apply deliver_deb | done].
  - eapply DebInv_same; [apply displayDone_deb | done].
  - by apply onBlur_DebInv.
  - eapply DebInv_same; [apply updDom_deb | done].
Qed.

(** In every run of the client [searchTimeout] names the pending
    suggestion timer. *)
Lemma DebInv_reachable evs : DebInv (run evs initialWorld).
Proof.
  assert (∀ w, DebInv w → DebInv (run evs w)) as H.
  { induction evs as [|ev evs IH]; intros w Hd; [done|].
    cbn. apply IH. by apply step_DebInv. }
  apply H. by apply DebInv_of_nothing_scheduled.
Qed.

End DebounceReachable.

(** Claim C9, as the code has it.  At any point of a run of the client,
    after keystrokes that each come less than 150 ms after the one before
    (what was scheduled before them not being due yet at the first one): if
    the text of the box after the last keystroke is not blank,
    exactly one call of [getSearchSuggestions] is scheduled, for that
    trimmed text and 150 ms after the last keystroke, and it is the only one
    made once that time has passed; if the text is blank nothing is
    scheduled and no call is made.  Every keystroke replaces what was
    scheduled by its own schedule. *)
Theorem debounce_one_query (evs : list (Z * Action)) (k : Z * string)
    (rest : list (Z * string)) (T : Z) :
  let w := run evs initialWorld in
  (∀ dq, dq ∈ scheduled w → fst k < fst dq) → now w ≤ fst k → rapid (fst k) rest →
  fst (lastKey k rest) + 150 ≤ T →
  let last := lastKey k rest in
  let wk := run (keyEvents (k :: rest)) w in
  let w' := step wk (T, ATick) in
  scheduled wk
  = (if JS.truthy (JS.trim (snd last)) then [(fst last + 150, JS.trim (snd last))] else []) ∧
  queriesMade wk = queriesMade w ∧
  queriesMade w'
  = (if JS.truthy (JS.trim (snd last)) then [JS.trim (snd last)] else []) ++ queriesMade w ∧
  scheduled w' = [] ∧
  (∀ w0 t v, DebInv w0 → now w0 ≤ t → (∀ dq, dq ∈ scheduled w0 → t < fst dq) →
     scheduled (step w0 (t, AInput v))
     = if JS.truthy (JS.trim v) then [(t + 150, JS.trim v)] else []).
Proof.
  cbn zeta. generalize (DebInv_reachable evs). generalize (run evs initialWorld).
  intros w HdR Hlate Hnow Hrapid HT.
  destruct (run_keys rest k w) as (Hd & Hn & Hs & Hq); try done.
  destruct (tick_step (run (keyEvents (k :: rest)) w) T) as (Hs' & Hq').
  { intros dq. rewrite Hs. unfold scheduleOf.
    destruct (JS.truthy _); [|by intros ?%elem_of_nil].
    intros ->%list_elem_of_singleton. cbn [fst]. lia. }
  split; [exact Hs|]. split; [exact Hq|]. split; [|split; [exact Hs'|]].
  - rewrite Hq', Hs, Hq. unfold scheduleOf. by destruct (JS.truthy _).
  - intros w0 t v Hd0 Hn0 Hl0. by destruct (key_step w0 t v Hd0 Hn0 Hl0) as (_ & _ & -> & _).
Qed.

Lemma debounce_one_query_witness :
  let keys := [(0, "m"); (100, "ma"); (220, "mat")] in
  scheduled (run (keyEvents keys) initialWorld) = [(370, "mat")] ∧
  queriesMade (step (run (keyEvents keys) initialWorld) (370, ATick)) = ["mat"].
Proof.
  cbn zeta.
  destruct (debounce_one_query [] (0, "m") [(100, "ma"); (220, "mat")] 370)
    as (Hs & _ & Hq & _).
  - intros dq Hdq. by apply elem_of_nil in Hdq.
  - cbn. lia.
  - cbn. lia.
  - cbn. lia.
  - split; [exact Hs | exact Hq].
Defined.

(** Claim C9, as stated, fails when the last keystroke empties the box: the
    pending schedule is cancelled and none takes its place, so no
    suggestion query is made at all. *)
Lemma debounce_blank_no_query :
  rapid 0 [(50, "")] ∧
  scheduled (run (keyEvents [(0, "a"); (50, "")]) initialWorld) = [] ∧
  queriesMade (run (keyEvents [(0, "a"); (50, "")] ++ [(1000, ATick)]) initialWorld) = [].
Proof. split; [cbn; lia|]. split; reflexivity. Qed.

(** ** Superseded requests *)

(** Claim C1 fails on the code in two of the three channels.

    Recommendations: two ratings 500 ms apart start two personalised
    requests (numbers 0 and 1).  The second start aborts the controller of
    the first, but [fetchPersonalizedRecommendations] is not given the
    signal, so request 0 stays pending.  The answer to request 1 arrives
    first and is shown; the answer to the superseded request 0 arrives
    afterwards and replaces it on the page.

    Suggestions: the request for "matr" is superseded by the one for
    "matri".  Its rejection runs the [catch] block of
    [getSearchSuggestions], which empties [currentSuggestions] and replaces
    the suggestions shown (here the local match for "mat") by the
    "No movies found" notice. *)
Theorem stale_completion_applied :
  let old := titled "Alien" 348 in
  let new := titled "Brazil" 68 in
  let started := run [(0, ARate 1 true); (500, ARate 2 true); (1000, ATick)] initialWorld in
  let fresh := step started (1100, AResponse 1%nat (RJson (JArray [new]))) in
  let stale := step fresh (1500, AResponse 0%nat (RJson (JArray [old]))) in
  (inflight started = [(0%nat, TUserRecsFetch); (1%nat, TUserRecsFetch)] ∧
   recsController started = Some 1%nat ∧ isAborted 0 started = true ∧
   userRecommendations (dom fresh) = URMovies [new] ∧
   userRecommendations (dom stale) = URMovies [old]) ∧
  let typed := run [(0, AInput "mat"); (200, AInput "matr"); (400, AInput "matri")]
                   initialWorld in
  let superseded := step typed (600, ATick) in
  (suggestionsContent (dom typed) = [titled "The Matrix" 603] ∧
   inflight typed = [(0%nat, TSuggestFetch (suggestionCacheKey "matr" ["en"] true)
                                           (Some 0%nat))] ∧
   inflight superseded
   = [(1%nat, TSuggestFetch (suggestionCacheKey "matri" ["en"] true) (Some 1%nat))] ∧
   suggestionsContent (dom superseded) = [] ∧
   suggestionsHidden (dom superseded) = false ∧
   currentSuggestions superseded = []).
Proof. cbn zeta. repeat apply conj; vm_compute; reflexivity. Qed.

Section SupersededSearch.

Lemma reject_inflight t w :
  inflight (reject t w) = inflight w ∧ controllers (reject t w) = controllers w.
Proof.
  destruct t; cbn [reject]; try done;
    unfold suggestionsCatch, searchCatch, searchFinally; by destruct w.
Qed.

Lemma foldl_reject_inflight (ts : list (nat * Task)) (w : World) :
  inflight (foldl (λ w rt, reject (snd rt) w) w ts) = inflight w.
Proof.
  revert w. induction ts as [|rt ts IH]; intros w; [done|].
  cbn [foldl]. rewrite IH. apply reject_inflight.
Qed.

Lemma drainAborted_inflight w :
  inflight (drainAborted w)
  = List.filter (λ rt, negb (taskAborted w (snd rt))) (inflight w).
Proof.
  unfold drainAborted. cbv zeta. rewrite foldl_reject_inflight. by destruct w.
Qed.

Lemma find_filter_none (r : nat) (f : nat * Task → bool) (l : list (nat * Task)) :
  (∀ t, (r, t) ∈ l → f (r, t) = false) →
  List.find (λ rt, Nat.eqb (fst rt) r) (List.filter f l) = None.
Proof.
  induction l as [|[r' t] l IH]; [done|]. intros H. cbn [List.filter].
  assert (List.find (λ rt, Nat.eqb (fst rt) r) (List.filter f l) = None) as IH'.
  { apply IH. intros t' Hin. apply H. by right. }
  destruct (f (r', t)) eqn:E; [|done]. cbn [List.find fst].
  destruct (Nat.eqb r' r) eqn:Er; [|done].
  apply Nat.eqb_eq in Er as ->. rewrite H in E by left. done.
Qed.

Lemma insert_true_keeps (c c' : nat) (l : list bool) :
  l !! c = Some true → <[c' := true]> l !! c = Some true.
Proof.
  intros H. destruct (decide (c' = c)) as [->|Hne].
  - apply list_lookup_insert_eq. by apply lookup_lt_Some in H.
  - by rewrite list_lookup_insert_ne.
Qed.

Lemma insert_true_here (c : nat) (l : list bool) :
  (c < length l)%nat → <[c := true]> l !! c = Some true.
Proof. apply list_lookup_insert_eq. Qed.

Lemma append_keeps (c : nat) (l : list bool) :
  l !! c = Some true → (l ++ [false]) !! c = Some true.
Proof. intros H. by apply lookup_app_l_Some. Qed.

Lemma abortIfSet_aborted ch w c :
  isAborted c w = true → isAborted c (abortIfSet ch w) = true.
Proof.
  intros H. destruct (controllerOf ch w) as [c'|] eqn:E; [|by rewrite abortIfSet_None].
  destruct (abortIfSet_Some ch c' w E) as (_ & Hc & _).
  by eapply isAborted_insert.
Qed.

Lemma newController_aborted ch w c :
  isAborted c w = true → isAborted c (newController ch w) = true.
Proof.
  destruct (newController_fields ch w) as (_ & Hc & _). unfold isAborted. rewrite Hc.
  destruct (controllers w !! c) as [b|] eqn:E; [|done].
  by rewrite (lookup_app_l_Some _ _ _ _ E).
Qed.

Lemma aborted_same w w' c :
  controllers w' = controllers w → isAborted c w = true → isAborted c w' = true.
Proof. unfold isAborted. by intros ->. Qed.

Lemma quiet_next w w' :
  controllers w' = controllers w → inflight w' = inflight w →
  (∀ c, isAborted c w = true → isAborted c w' = true) ∧
  (∀ r t, (r, t) ∈ inflight w' → (r, t) ∈ inflight w ∨ r = nextRequest w).
Proof.
  intros Hc Hi. split; [intros c; by apply aborted_same|].
  intros r t. rewrite Hi. by left.
Qed.

Lemma suggestionsLookup_next q w :
  (∀ c, isAborted c w = true → isAborted c (suggestionsLookup q w) = true) ∧
  (∀ r t, (r, t) ∈ inflight (suggestionsLookup q w) →
          (r, t) ∈ inflight w ∨ r = nextRequest w).
Proof.
  unfold suggestionsLookup. cbv zeta.
  destruct (cacheLookup _ _ _) as [cached|]; [apply quiet_next; by destruct w|].
  set (w1 := newController ChSuggestions (abortIfSet ChSuggestions (emit _ w))).
  assert ((∀ c, isAborted c w = true → isAborted c w1 = true) ∧
          inflight w1 = inflight w ∧ nextRequest w1 = nextRequest w) as (Ha & Hi & Hn).
  { subst w1. split.
    - intros c Hc. apply newController_aborted, abortIfSet_aborted.
      eapply aborted_same; [|exact Hc]. by destruct w.
    - unfold newController, abortIfSet.
      by destruct w as [? ? ? ? ? [sg|] ? ? ? ? ? ? ? ? ? ? ?]. }
  clearbody w1. rewrite <- Hi, <- Hn. split.
  - intros c Hc. eapply aborted_same; [|by apply Ha].
    unfold fetch, suspend. by destruct w1.
  - intros r t. unfold fetch, suspend. destruct w1. wcbn.
    rewrite elem_of_app, list_elem_of_singleton. intros [?|[= -> _]]; [by left | by right].
Qed.

Lemma getSearchSuggestions_next q w :
  (∀ c, isAborted c w = true → isAborted c (getSearchSuggestions q w) = true) ∧
  (∀ r t, (r, t) ∈ inflight (getSearchSuggestions q w) →
          (r, t) ∈ inflight w ∨ r = nextRequest w).
Proof.
  unfold getSearchSuggestions. cbv zeta.
  repeat match goal with
         | |- context [if ?c then _ else _] => destruct c
         end; try apply suggestionsLookup_next; apply quiet_next; by destruct w.
Qed.

Lemma focusSearchInput_next w :
  (∀ c, isAborted c w = true → isAborted c (focusSearchInput w) = true) ∧
  (∀ r t, (r, t) ∈ inflight (focusSearchInput w) →
          (r, t) ∈ inflight w ∨ r = nextRequest w).
Proof.
  unfold focusSearchInput, onFocus. cbv zeta.
  destruct (searchInputFocused (dom w)); [by apply quiet_next|].
  assert (isAb : ∀ c, isAborted c w = true →
                      isAborted c (updDom (setSearchInputFocused true) w) = true)
    by (intros c; apply aborted_same; by destruct w).
  assert (inflight (updDom (setSearchInputFocused true) w) = inflight w ∧
          nextRequest (updDom (setSearchInputFocused true) w) = nextRequest w) as [Hi Hn]
    by (by destruct w).
  revert isAb Hi Hn. generalize (updDom (setSearchInputFocused true) w).
  generalize (searchInputValue (dom w)). intros v w1 isAb Hi Hn.
  rewrite <- Hi, <- Hn.
  assert (∀ w2, ((∀ c, isAborted c w1 = true → isAborted c w2 = true) ∧
                 (∀ r t, (r, t) ∈ inflight w2 → (r, t) ∈ inflight w1 ∨ r = nextRequest w1)) →
          (∀ c, isAborted c w = true → isAborted c w2 = true) ∧
          (∀ r t, (r, t) ∈ inflight w2 → (r, t) ∈ inflight w1 ∨ r = nextRequest w1)) as Hw.
  { intros w2 [H1 H2]. split; [|done]. intros c Hc. by apply H1, isAb. }
  repeat match goal with
         | |- context [if ?c then _ else _] => destruct c
         end; apply Hw; try apply getSearchSuggestions_next;
    apply quiet_next; by destruct w1.
Qed.

(** What a call of [searchMovies] does to the pending requests and to the
    controllers of the search and of the recommendation fetch it
    supersedes. *)
Lemma searchMovies_supersedes (w : World) (c : nat) (q : string) :
  JS.trim q ≠ "" →
  searchController w = Some c ∨ recsController w = Some c →
  (c < length (controllers w))%nat →
  isAborted c (searchMovies q w) = true ∧
  ∀ r t, (r, t) ∈ inflight (searchMovies q w) →
         (r, t) ∈ inflight w ∨ r = nextRequest w.
Proof.
  intros Hq%truthy_nonempty Hc Hlt. unfold searchMovies. rewrite Hq. cbn [negb]. cbv zeta.
  set (w1 := newController ChSearch (abortIfSet ChRecs (abortIfSet ChSearch
               (hideSuggestions (updDom (setSpinnerHidden false) w))))).
  assert (isAborted c w1 = true ∧ inflight w1 = inflight w ∧
          nextRequest w1 = nextRequest w) as (Hab & Hi & Hn).
  { subst w1. unfold isAborted.
    assert (∀ l : list bool, l !! c = Some true →
            match l !! c with Some b => b | None => false end = true) as Hread
      by (by intros l ->).
    destruct w as [? ? ? ? ? ? sc rc ? ? ? ? ? ? ? [] ?]. wcbn.
    destruct sc as [c1|], rc as [c2|]; wcbn;
      (destruct Hc as [Hc|Hc]; [try discriminate Hc; try injection Hc as ->..]);
      (split; [|done]);
      apply Hread, append_keeps;
      first [ by apply insert_true_here; rewrite ?length_insert
            | by apply insert_true_keeps, insert_true_here ]. }
  clearbody w1. rewrite <- Hi, <- Hn. clear Hi Hn Hc Hlt Hq.
  set (key := URLSearchParams.toString _).
  set (w2 := emit (ESearchCacheGet key) w1).
  assert (isAborted c w2 = true ∧ inflight w2 = inflight w1 ∧
          nextRequest w2 = nextRequest w1) as (Hab2 & Hi & Hn)
    by (subst w2; split; [eapply aborted_same; [|exact Hab]|]; by destruct w1).
  clearbody w2. rewrite <- Hi, <- Hn. clear Hi Hn Hab.
  assert (∀ t w3, controllers w3 = controllers w2 → inflight w3 = inflight w2 →
            nextRequest w3 = nextRequest w2 →
            isAborted c (suspend t w3) = true ∧
            ∀ r t', (r, t') ∈ inflight (suspend t w3) →
                    (r, t') ∈ inflight w2 ∨ r = nextRequest w2) as Hsus.
  { intros t w3 Hc Hi Hn. split.
    - eapply aborted_same; [|exact Hab2]. rewrite <- Hc. by destruct w3.
    - intros r t'. unfold suspend. rewrite <- Hi, <- Hn. destruct w3. wcbn.
      rewrite elem_of_app, list_elem_of_singleton.
      intros [?|[= -> _]]; [by left | by right]. }
  assert (∀ w3, controllers w3 = controllers w2 → inflight w3 = inflight w2 →
            nextRequest w3 = nextRequest w2 →
            isAborted c (searchFinally (focusSearchInput w3)) = true ∧
            ∀ r t', (r, t') ∈ inflight (searchFinally (focusSearchInput w3)) →
                    (r, t') ∈ inflight w2 ∨ r = nextRequest w2) as Hfoc.
  { intros w3 Hc Hi Hn. destruct (focusSearchInput_next w3) as [Ha Hin]. split.
    - eapply aborted_same; [|apply Ha; eapply aborted_same; [exact Hc | exact Hab2]].
      unfold searchFinally. by destruct (focusSearchInput w3).
    - intros r t'. rewrite <- Hi, <- Hn. intros H. apply Hin.
      unfold searchFinally in H. by destruct (focusSearchInput w3). }
  destruct (cacheLookup _ _ _) as [[[|top rest]|]|].
  - unfold searchResults. cbv zeta. apply Hfoc; by destruct w2.
  - unfold searchResults. cbv zeta. apply Hsus;
      unfold displayMovies, addToHistoryW; cbv zeta;
      destruct (negb _); by destruct w2.
  - unfold searchResults. cbv zeta. apply Hfoc; by destruct w2.
  - unfold fetch. apply Hsus; by destruct w2.
Qed.

End SupersededSearch.

(** The answer to a superseded request is dropped.  If request [r] is a
    pending search or recommendation request, made with the current
    controller of its channel, then a new call of [searchMovies] rejects it:
    once the rejections have run the request is no longer pending, and its
    answer, whatever it is and whenever it comes, changes nothing. *)
Lemma superseded_search_dropped (w : World) (r c : nat) (task : Task) (q : string) :
  JS.trim q ≠ "" →
  taskSignal task = Some c →
  searchController w = Some c ∨ recsController w = Some c →
  (c < length (controllers w))%nat →
  (r < nextRequest w)%nat →
  (∀ t, (r, t) ∈ inflight w → t = task) →
  let w' := drainAborted (searchMovies q w) in
  findTask r w' = None ∧ ∀ resp, deliver r resp w' = w'.
Proof.
  intros Hq Hsig Hc Hlt Hr Honly. cbn zeta.
  destruct (searchMovies_supersedes w c q Hq Hc Hlt) as [Hab Hin].
  assert (findTask r (drainAborted (searchMovies q w)) = None) as Hnone.
  { unfold findTask. rewrite drainAborted_inflight, find_filter_none; [done|].
    intros t Ht. destruct (Hin r t Ht) as [Hold| ->]; [|lia].
    rewrite (Honly t Hold). cbn [snd]. unfold taskAborted.
    by rewrite Hsig, Hab. }
  split; [exact Hnone|]. intros resp. unfold deliver. by rewrite Hnone.
Qed.

(** The scenario of the specification: [search("matrix")] is superseded by
    [search("inception")] before its answer arrives; the late answer to
    request 0 changes nothing, and only the result of "inception" reaches
    the cache, the history and the page. *)
Lemma superseded_search_scenario :
  let old := titled "The Matrix" 603 in
  let new := titled "Inception" 27205 in
  let w := run [(0, ASearch "matrix"); (50, ASearch "inception");
                (300, AResponse 1%nat (RJson (JArray [new])))] initialWorld in
  let w' := step w (500, AResponse 0%nat (RJson (JArray [old]))) in
  w' = setNow 500 w ∧
  history (userProfile w') = [27205] ∧
  searchMoviesContent (dom w') = [new] ∧
  searchResultCache w' !! searchCacheKey "matrix" ["en"] true = None ∧
  results <$> searchResultCache w' !! searchCacheKey "inception" ["en"] true
  = Some (JArray [new]).
Proof. cbn zeta. repeat apply conj; vm_compute; reflexivity. Qed.

(* ================================================================== *)
(** * Further properties of the code *)
(* ================================================================== *)

(** ** Watchlist *)

Section Watchlist.

Lemma findIndexId_None (i : Z) (l : list Movie) :
  findIndexId i l = None ↔ i ∉ map id l.
Proof.
  induction l as [|m l IH]; cbn [findIndexId map].
  - split; [intros _ H; by apply elem_of_nil in H | done].
  - rewrite not_elem_of_cons. case_bool_decide as E.
    + split; [done | intros [H _]; by destruct H].
    + destruct (findIndexId i l); cbn.
      * split; [done|]. intros [_ H]. by apply IH in H.
      * split; [|done]. intros _. split; [congruence | by apply IH].
Qed.

(** The index found is that of the first movie with the id. *)
Lemma findIndexId_Some (i : Z) (l : list Movie) (k : nat) :
  findIndexId i l = Some k →
  ∃ l1 m l2, l = (l1 ++ m :: l2) ∧ id m = i ∧ (i ∉ map id l1) ∧
             k = length l1 ∧ delete k l = (l1 ++ l2).
Proof.
  revert k. induction l as [|m l IH]; intros k; cbn [findIndexId]; [done|].
  case_bool_decide as E.
  - intros [= <-]. exists [], m, l. repeat split; [done|]. apply not_elem_of_nil.
  - destruct (findIndexId i l) as [k'|] eqn:Ek; cbn; [|done]. intros [= <-].
    destruct (IH k' eq_refl) as (l1 & m' & l2 & -> & Hm & Hl1 & -> & Hdel).
    exists (m :: l1), m', l2. repeat split; try done.
    + cbn [map]. rewrite not_elem_of_cons. split; [congruence | done].
    + cbn [delete]. cbn. f_equal. exact Hdel.
Qed.

Lemma findIndexId_last (m : Movie) (l : list Movie) :
  id m ∉ map id l → findIndexId (id m) (l ++ [m]) = Some (length l).
Proof.
  induction l as [|m' l IH]; cbn [findIndexId map app length].
  - intros _. by rewrite bool_decide_eq_true_2.
  - rewrite not_elem_of_cons. intros [Hne Hl].
    rewrite bool_decide_eq_false_2 by congruence. by rewrite IH.
Qed.

Lemma delete_last {A} (l : list A) (x : A) : delete (length l) (l ++ [x]) = l.
Proof. induction l as [|y l IH]; [done|]. cbn. f_equal. exact IH. Qed.

Lemma toggleWatchlist_absent (m : Movie) (p : Profile) :
  id m ∉ map id (watchlist p) →
  watchlist (toggleWatchlist m p) = watchlist p ++ [m].
Proof.
  intros H. unfold toggleWatchlist. apply findIndexId_None in H. by rewrite H.
Qed.

Lemma toggleWatchlist_present (m : Movie) (p : Profile) :
  id m ∈ map id (watchlist p) →
  ∃ l1 m' l2, watchlist p = (l1 ++ m' :: l2) ∧ id m' = id m ∧ (id m ∉ map id l1) ∧
              watchlist (toggleWatchlist m p) = (l1 ++ l2).
Proof.
  intros H. unfold toggleWatchlist.
  destruct (findIndexId (id m) (watchlist p)) as [k|] eqn:E.
  - destruct (findIndexId_Some _ _ _ E) as (l1 & m' & l2 & Hl & Hm & Hl1 & _ & Hdel).
    exists l1, m', l2. by repeat split.
  - apply findIndexId_None in E. done.
Qed.

Lemma toggleWatchlist_effect (m : Movie) (p : Profile) :
  NoDup (map id (watchlist p)) →
  let p' := toggleWatchlist m p in
  NoDup (map id (watchlist p')) ∧
  (id m ∈ map id (watchlist p') ↔ id m ∉ map id (watchlist p)) ∧
  (∀ j, j ≠ id m → j ∈ map id (watchlist p') ↔ j ∈ map id (watchlist p)) ∧
  (if bool_decide (id m ∈ map id (watchlist p))
   then S (length (watchlist p')) = length (watchlist p)
   else length (watchlist p') = S (length (watchlist p))).
Proof.
  intros Hnd. cbn zeta. destruct (decide (id m ∈ map id (watchlist p))) as [Hin|Hout].
  - rewrite bool_decide_eq_true_2 by done.
    destruct (toggleWatchlist_present m p Hin) as (l1 & m' & l2 & Hl & Hm & Hl1 & Hl').
    assert (HW : map id (watchlist p) = map id l1 ++ id m :: map id l2)
      by (rewrite Hl, map_app; cbn [map]; by rewrite Hm).
    assert (HW' : map id (watchlist (toggleWatchlist m p)) = map id l1 ++ map id l2)
      by (by rewrite Hl', map_app).
    rewrite Hl', Hl, !length_app. cbn [length]. rewrite <- Hl, <- Hl', HW', HW.
    rewrite HW in Hnd.
    apply NoDup_app in Hnd as (Hn1 & Hdis & Hn2). apply NoDup_cons in Hn2 as [Hm2 Hn2].
    split; [|split; [|split]].
    + apply NoDup_app. split; [done|]. split; [|done].
      intros x Hx Hx'. apply (Hdis x Hx). by right.
    + rewrite !elem_of_app, elem_of_cons. tauto.
    + intros j Hj. rewrite !elem_of_app, elem_of_cons. tauto.
    + lia.
  - rewrite bool_decide_eq_false_2 by done.
    rewrite toggleWatchlist_absent by done. rewrite map_app, length_app. cbn [map length].
    split; [|split; [|split]].
    + apply NoDup_app. split; [done|]. split; [|apply NoDup_singleton].
      intros x Hx ->%list_elem_of_singleton. done.
    + rewrite elem_of_app, list_elem_of_singleton. tauto.
    + intros j Hj. rewrite elem_of_app, list_elem_of_singleton. tauto.
    + lia.
Qed.

End Watchlist.

(** The watchlist toggle.  On a watchlist that holds each id at most once:
    the toggle keeps it so, it changes the length by one, it makes the id
    of the movie present exactly when it was absent, and it leaves the
    presence of every other id as it was. *)
Theorem toggleWatchlist_flips (m : Movie) (p : Profile) :
  NoDup (map id (watchlist p)) →
  let p' := toggleWatchlist m p in
  NoDup (map id (watchlist p')) ∧
  (id m ∈ map id (watchlist p') ↔ id m ∉ map id (watchlist p)) ∧
  (∀ j, j ≠ id m → j ∈ map id (watchlist p') ↔ j ∈ map id (watchlist p)) ∧
  (if bool_decide (id m ∈ map id (watchlist p))
   then S (length (watchlist p')) = length (watchlist p)
   else length (watchlist p') = S (length (watchlist p))).
Proof. exact (toggleWatchlist_effect m p). Qed.

Lemma toggleWatchlist_flips_witness :
  let m := titled "Avatar" 19995 in
  let p := toggleWatchlist (titled "Titanic" 597) defaultProfile in
  NoDup (map id (watchlist (toggleWatchlist m p))) ∧
  length (watchlist (toggleWatchlist m p)) = 2%nat.
Proof.
  cbn zeta.
  destruct (toggleWatchlist_flips (titled "Avatar" 19995)
              (toggleWatchlist (titled "Titanic" 597) defaultProfile))
    as (Hnd & _ & _ & Hlen).
  - cbn. apply NoDup_singleton.
  - split; [exact Hnd|]. cbn in Hlen. exact Hlen.
Defined.

(** Toggling twice.  A movie that is not in the watchlist is added and
    then removed again: the profile is exactly as before.  A movie that is
    in a watchlist without repeated ids is removed and then put back at the
    end: the length and the ids are as before. *)
Theorem toggleWatchlist_twice (m : Movie) (p : Profile) :
  (id m ∉ map id (watchlist p) → toggleWatchlist m (toggleWatchlist m p) = p) ∧
  (NoDup (map id (watchlist p)) →
   let p'' := toggleWatchlist m (toggleWatchlist m p) in
   length (watchlist p'') = length (watchlist p) ∧
   ∀ j, j ∈ map id (watchlist p'') ↔ j ∈ map id (watchlist p)).
Proof.
  split.
  - intros Hout. pose proof (toggleWatchlist_absent m p Hout) as H1.
    unfold toggleWatchlist at 1. rewrite H1, findIndexId_last by done.
    cbv iota beta. rewrite delete_last. unfold toggleWatchlist.
    apply findIndexId_None in Hout. rewrite Hout. by destruct p.
  - intros Hnd. cbn zeta.
    destruct (toggleWatchlist_effect m p Hnd) as (Hnd1 & Hflip1 & Hoth1 & Hlen1).
    destruct (toggleWatchlist_effect m (toggleWatchlist m p) Hnd1)
      as (_ & Hflip2 & Hoth2 & Hlen2).
    split.
    + destruct (decide (id m ∈ map id (watchlist p))) as [Hin|Hout].
      * rewrite bool_decide_eq_true_2 in Hlen1 by done.
        rewrite bool_decide_eq_false_2 in Hlen2 by (rewrite Hflip1; tauto). lia.
      * rewrite bool_decide_eq_false_2 in Hlen1 by done.
        rewrite bool_decide_eq_true_2 in Hlen2 by (by apply Hflip1). lia.
    + intros j. destruct (decide (j = id m)) as [->|Hne].
      * rewrite Hflip2, Hflip1. destruct (decide (id m ∈ map id (watchlist p))); tauto.
      * by rewrite Hoth2, Hoth1.
Qed.

Lemma toggleWatchlist_twice_witness :
  let m := titled "Avatar" 19995 in
  toggleWatchlist m (toggleWatchlist m defaultProfile) = defaultProfile ∧
  length (watchlist (toggleWatchlist m (toggleWatchlist m (toggleWatchlist m defaultProfile))))
  = 1%nat.
Proof.
  cbn zeta.
  destruct (toggleWatchlist_twice (titled "Avatar" 19995) defaultProfile) as [Habs _].
  destruct (toggleWatchlist_twice (titled "Avatar" 19995)
              (toggleWatchlist (titled "Avatar" 19995) defaultProfile)) as [_ Hpres].
  split.
  - apply Habs. cbn. apply not_elem_of_nil.
  - cbn zeta in Hpres. destruct Hpres as [Hlen _].
    + cbn. apply NoDup_singleton.
    + exact Hlen.
Defined.

(** ** Ratings and history, continued *)

Section RatingsMore.

Lemma filter_ne_idem (i : Z) (l : list Z) :
  filter (λ j, j ≠ i) (filter (λ j, j ≠ i) l) = filter (λ j, j ≠ i) l.
Proof.
  induction l as [|x l IH]; [done|].
  rewrite (filter_cons _ x l). destruct (decide (x ≠ i)) as [Hx|Hx]; [|done].
  rewrite filter_cons. destruct (decide (x ≠ i)); [|done]. by rewrite IH.
Qed.

Lemma push_absent_includes (i : Z) (l : list Z) :
  includesId i (if negb (includesId i l) then l ++ [i] else l) = true.
Proof.
  destruct (includesId i l) eqn:E; cbn [negb]; [done|].
  apply includesId_true, elem_of_app. right. by left.
Qed.

Lemma push_absent_NoDup (i : Z) (l : list Z) :
  NoDup l → NoDup (if negb (includesId i l) then l ++ [i] else l).
Proof.
  intros Hn. destruct (includesId i l) eqn:E; cbn [negb]; [done|].
  apply includesId_false in E. apply NoDup_app. split; [done|].
  split; [|apply NoDup_singleton]. by intros x Hx ->%list_elem_of_singleton.
Qed.

Lemma push_absent_other (i j : Z) (l : list Z) :
  j ≠ i → j ∈ (if negb (includesId i l) then l ++ [i] else l) ↔ j ∈ l.
Proof.
  intros Hne. destruct (includesId i l); cbn [negb]; [done|].
  rewrite elem_of_app, list_elem_of_singleton. tauto.
Qed.

Lemma rateMovie_NoDup (i : Z) (b : bool) (p : Profile) :
  NoDup (liked_movies p) → NoDup (disliked_movies p) →
  NoDup (liked_movies (rateMovie i b p)) ∧ NoDup (disliked_movies (rateMovie i b p)).
Proof.
  intros Hl Hd. unfold rateMovie. destruct b; cbn; split;
    first [by apply push_absent_NoDup | by apply NoDup_filter].
Qed.

Lemma saveProfile_cases n a r s l p :
  saveProfile n a r s l p = p ∨
  ∃ a', a = Some a' ∧ 13 ≤ a' ≤ 100 ∧ (a' < 18 → s = true) ∧
        saveProfile n a r s l p
        = {| name := if JS.truthy n then n else "User"; age := a'; safe_mode := s;
             language := if (0 <? Z.of_nat (length l)) then l else ["en"];
             mood := mood p; region := r;
             watchlist := watchlist p; history := history p;
             liked_movies := liked_movies p; disliked_movies := disliked_movies p |}.
Proof.
  unfold saveProfile. destruct a as [a|]; [|by left].
  destruct ((a =? 0) || (a <? 13) || (100 <? a)) eqn:E1; [by left|].
  destruct ((a <? 18) && negb s) eqn:E2; [by left|].
  right. exists a. split; [done|]. split; [lia|]. split; [|done].
  intros Hlt. destruct s; [done|]. cbn in E2. lia.
Qed.

Lemma mutate_profileInv (m : Mutation) (p : Profile) :
  profileInv p → profileInv (mutate m p).
Proof.
  intros (Ha & Hn & Hw & Hl & Hd). destruct m; cbn [mutate]; try done.
  - destruct (rateMovie_NoDup movieId liked p Hl Hd) as [Hl' Hd'].
    unfold rateMovie in *. by destruct liked.
  - split; [|split; [|split]].
    + unfold toggleWatchlist. by destruct (findIndexId _ _).
    + unfold toggleWatchlist. by destruct (findIndexId _ _).
    + by apply toggleWatchlist_effect.
    + unfold toggleWatchlist. by destruct (findIndexId _ _).
  - destruct (saveProfile_cases formName formAge formRegion safeMode languages p)
      as [->|(a' & _ & Hrange & Hsafe & ->)]; [done|].
    split; [done|]. split; [|done]. cbn. by destruct formName.
Qed.

End RatingsMore.

(** Rating is idempotent: pressing the same rating button of a movie a second
    time leaves the profile exactly as the first press left it. *)
Theorem rateMovie_idempotent (i : Z) (b : bool) (p : Profile) :
  rateMovie i b (rateMovie i b p) = rateMovie i b p.
Proof.
  unfold rateMovie. destruct b; cbn.
  - rewrite push_absent_includes, filter_ne_idem. done.
  - rewrite push_absent_includes, filter_ne_idem. done.
Qed.

(** Rating one movie says nothing about the others: every other id is
    liked, and disliked, after the call exactly when it was before; and the
    watchlist, the history and the settings of the profile are untouched. *)
Theorem rateMovie_other_ids (i j : Z) (b : bool) (p : Profile) :
  j ≠ i →
  let p' := rateMovie i b p in
  (j ∈ liked_movies p' ↔ j ∈ liked_movies p) ∧
  (j ∈ disliked_movies p' ↔ j ∈ disliked_movies p) ∧
  watchlist p' = watchlist p ∧ history p' = history p ∧
  (name p', age p', safe_mode p', language p', mood p', region p')
  = (name p, age p, safe_mode p, language p, mood p, region p).
Proof.
  intros Hne. cbn zeta. unfold rateMovie. destruct b; cbn.
  - rewrite push_absent_other, list_elem_of_filter by done. tauto.
  - rewrite push_absent_other, list_elem_of_filter by done. tauto.
Qed.

Lemma rateMovie_other_ids_witness :
  let p := rateMovie 603 true (rateMovie 155 false defaultProfile) in
  (155 ∈ disliked_movies p ↔ 155 ∈ disliked_movies (rateMovie 155 false defaultProfile)) ∧
  disliked_movies p = [155] ∧ liked_movies p = [603].
Proof.
  cbn zeta.
  destruct (rateMovie_other_ids 603 155 true (rateMovie 155 false defaultProfile))
    as (_ & Hd & _); [lia|].
  split; [exact Hd|]. split; reflexivity.
Defined.

(** Every profile reached from one that satisfies it satisfies the profile
    invariant, whatever the mutations (history, rating, watchlist, mood,
    language selector, profile form, with any arguments): the age is between
    13 and 100, Safe Mode is on whenever the age is under 18, the name is
    not empty, and no id occurs twice in the watchlist, in the liked or in
    the disliked movies.  The default profile satisfies it. *)
Theorem profile_invariant (ms : list Mutation) (p : Profile) :
  profileInv p → profileInv (mutations ms p).
Proof.
  revert p. induction ms as [|m ms IH]; intros p Hp; [done|].
  cbn [mutations foldl]. apply IH. by apply mutate_profileInv.
Qed.

Lemma profile_invariant_witness :
  profileInv (mutations [MSaveProfile "" (Some 15) "US" false [];
                         MSaveProfile "Ann" (Some 15) "IN" true ["hi"];
                         MRate 603 true; MToggleWatchlist (titled "Avatar" 19995)]
                        defaultProfile).
Proof.
  apply profile_invariant.
  split; [|split; [|split; [|split]]].
  - split; [cbn; lia | by intros _].
  - discriminate.
  - constructor.
  - constructor.
  - constructor.
Defined.

(** [addToHistory] records the movie: its id is in the history afterwards,
    a second call with the same id changes nothing, and as long as the
    history holds fewer than 100 ids no id is dropped from it. *)
Theorem addToHistory_records (i : Z) (p : Profile) :
  i ∈ history (addToHistory i p) ∧
  addToHistory i (addToHistory i p) = addToHistory i p ∧
  ((length (history p) < 100)%nat →
   ∀ j, j ∈ history p → j ∈ history (addToHistory i p)).
Proof.
  assert (Hin : i ∈ addToHistory_list i (history p)).
  { destruct (decide (i ∈ history p)) as [Hi|Hi].
    - by rewrite addToHistory_present.
    - rewrite addToHistory_absent by done. cbn. by left. }
  split; [exact Hin|]. split.
  - unfold addToHistory. cbn. by rewrite (addToHistory_present _ _ Hin).
  - intros Hlen j Hj. cbn. destruct (decide (i ∈ history p)) as [Hi|Hi].
    + by rewrite addToHistory_present.
    + rewrite addToHistory_absent by done.
      rewrite take_ge by (cbn; lia). by right.
Qed.

Lemma addToHistory_records_witness :
  603 ∈ history (addToHistory 155 (addToHistory 603 defaultProfile)).
Proof.
  destruct (addToHistory_records 155 (addToHistory 603 defaultProfile)) as (_ & _ & H).
  assert (E : history (addToHistory 603 defaultProfile) = [603]) by reflexivity.
  apply H; rewrite E; [cbn; lia | by left].
Defined.

(** ** Posters, continued *)

Section PostersMore.

Lemma posterFromRaw_prefix (raw : string) :
  JS.startsWith "http" (posterFromRaw raw) = true ∨
  JS.startsWith "data:image" (posterFromRaw raw) = true.
Proof.
  unfold posterFromRaw, IMAGE_BASE_URL.
  destruct (JS.startsWith "data:image" raw) eqn:E1; [by right|].
  destruct (JS.startsWith "http" raw) eqn:E2; [by left|].
  left. repeat match goal with |- context [if ?c then _ else _] => destruct c end;
    rewrite ?append_cons; reflexivity.
Qed.

Lemma posterLoop_from_raw (cs : list jsval) (url : string) :
  posterLoop cs = Some url → ∃ raw, url = posterFromRaw raw.
Proof.
  induction cs as [|c cs IH]; cbn [posterLoop]; [done|].
  destruct (negb (jsTruthy c)); [done|]. cbv zeta.
  destruct (skippedRaw _); [done|]. intros [= <-]. by eexists.
Qed.

Lemma posterLoop_no_text (cs : list jsval) :
  existsb hasPosterText cs = false → posterLoop cs = None.
Proof.
  induction cs as [|c cs IH]; cbn [existsb posterLoop]; [done|].
  intros [Hc Hcs]%orb_false_elim. specialize (IH Hcs).
  destruct (jsTruthy c) eqn:Ec; cbn [negb]; [|done]. cbv zeta.
  unfold hasPosterText in Hc. rewrite Ec in Hc. cbn [andb] in Hc.
  unfold skippedRaw.
  destruct (JS.truthy (JS.trim (jsToString c))); cbn [negb orb andb] in *; [|done].
  apply negb_false_iff in Hc. rewrite Hc. done.
Qed.

End PostersMore.

Section PosterPrefix.

Lemma startsWith_slash (raw : string) :
  JS.startsWith "/" raw = true → ∃ r, raw = String "/" r.
Proof.
  unfold JS.startsWith. destruct raw as [|c r]; cbn [String.prefix]; [done|].
  destruct (ascii_dec "/" c) as [<-|]; [|done]. by eexists.
Qed.

(** The chain of [return]s, by the shape of [raw]. *)
Lemma posterFromRaw_shape (raw : string) :
  if JS.startsWith "data:image" raw || JS.startsWith "http" raw
  then posterFromRaw raw = raw
  else if JS.startsWith "//" raw || JS.includes "image.tmdb.org" raw
  then posterFromRaw raw = "https:" +:+ raw
  else JS.startsWith "https://image.tmdb.org/t/p/w500/" (posterFromRaw raw) = true.
Proof.
  unfold posterFromRaw.
  destruct (JS.startsWith "data:image" raw); [done|].
  destruct (JS.startsWith "http" raw); [done|]. cbn [orb].
  destruct (JS.startsWith "//" raw); [done|]. cbn [orb].
  destruct (JS.includes "image.tmdb.org" raw); [done|].
  destruct (JS.startsWith "/" raw) eqn:E.
  - apply startsWith_slash in E as [r ->]. unfold IMAGE_BASE_URL. cbn.
    by destruct r.
  - unfold IMAGE_BASE_URL. cbn. by destruct (JS.stripLeadingSlashes raw).
Qed.

End PosterPrefix.

(** How [getMoviePoster] makes its answer from the text of the first usable
    field.  A text that starts with "data:image" or with "http" is answered
    as it is, whatever follows (so "httpx.jpg" is answered unchanged, and
    the page reads it as a path of its own).  A text that starts with "//"
    or contains "image.tmdb.org" gets "https:" in front, with no slash
    added (so "image.tmdb.org/t/p/x.jpg" gives
    "https:image.tmdb.org/t/p/x.jpg").  Any other text is answered under
    the TMDB image root "https://image.tmdb.org/t/p/w500/".  In every case,
    the fallback included, the answer starts with "http" or with
    "data:image". *)
Theorem getMoviePoster_prefix (movie : jsarg) :
  (JS.startsWith "http" (getMoviePoster movie) = true ∨
   JS.startsWith "data:image" (getMoviePoster movie) = true) ∧
  match movie with
  | ArgObject m =>
      match firstUsable (candidates m) with
      | Some raw =>
          if JS.startsWith "data:image" raw || JS.startsWith "http" raw
          then getMoviePoster movie = raw
          else if JS.startsWith "//" raw || JS.includes "image.tmdb.org" raw
          then getMoviePoster movie = "https:" +:+ raw
          else JS.startsWith "https://image.tmdb.org/t/p/w500/" (getMoviePoster movie)
               = true
      | None => getMoviePoster movie = FALLBACK_POSTER_URL
      end
  | _ => getMoviePoster movie = FALLBACK_POSTER_URL
  end ∧
  (let m := mkMovie 1 "A" false (JStr "httpx.jpg") JUndefined JUndefined JUndefined
                    JUndefined JUndefined JUndefined JUndefined in
   getMoviePoster (ArgObject m) = "httpx.jpg") ∧
  (let m := mkMovie 1 "A" false (JStr "image.tmdb.org/t/p/x.jpg") JUndefined JUndefined
                    JUndefined JUndefined JUndefined JUndefined JUndefined in
   getMoviePoster (ArgObject m) = "https:image.tmdb.org/t/p/x.jpg").
Proof.
  split; [|split; [|by split]].
  - destruct movie as [| | |m]; cbn [getMoviePoster]; try by left.
    destruct (posterLoop (candidates m)) as [url|] eqn:E; [|by left].
    apply posterLoop_from_raw in E as [raw ->]. apply posterFromRaw_prefix.
  - destruct movie as [| | |m]; try reflexivity.
    cbn [getMoviePoster]. rewrite posterLoop_firstUsable.
    destruct (firstUsable (candidates m)) as [raw|]; [|done].
    apply posterFromRaw_shape.
Qed.

(** A movie that [movieNeedsPoster] reports as lacking a poster is shown
    with the fallback poster by [getMoviePoster]; so the poster enrichment,
    which looks up only such movies, never replaces a poster that would have
    been shown.  The converse does not hold: a movie whose only poster
    field is the text "None" gets the fallback poster and is not reported. *)
Theorem movieNeedsPoster_fallback (movie : jsarg) :
  (movieNeedsPoster movie = true → getMoviePoster movie = FALLBACK_POSTER_URL) ∧
  (∃ m, movieNeedsPoster (ArgObject m) = false ∧
        getMoviePoster (ArgObject m) = FALLBACK_POSTER_URL).
Proof.
  split.
  - destruct movie as [| | |m]; cbn [movieNeedsPoster getMoviePoster]; try done.
    intros H%negb_true_iff. by rewrite posterLoop_no_text.
  - exists (mkMovie 1 "M" false (JStr "None") JUndefined JUndefined JUndefined
                    JUndefined JUndefined JUndefined JUndefined).
    split; reflexivity.
Qed.

Lemma movieNeedsPoster_fallback_witness :
  getMoviePoster
    (ArgObject (mkMovie 1 "M" false (JStr "  ") JNull (JStr "null") JUndefined
                        JUndefined JUndefined JUndefined JUndefined))
  = FALLBACK_POSTER_URL.
Proof.
  apply (proj1 (movieNeedsPoster_fallback _)). reflexivity.
Defined.

(** ** What is displayed *)

(** What [displayMovies] puts into a container: at most ten movies, taken in
    their order from the list it was given; with Safe Mode on none of them
    is an adult title; with Safe Mode off they are the first ten of the
    list. *)
Theorem displayed_safe (movies : list Movie) (w : World) :
  let shown := displayed movies w in
  (length shown ≤ 10)%nat ∧ shown `sublist_of` movies ∧
  (safe_mode (userProfile w) = true → ∀ m, m ∈ shown → adult m = false) ∧
  (safe_mode (userProfile w) = false → shown = take 10 movies).
Proof.
  cbn zeta. unfold displayed, JS.slice0. split; [|split; [|split]].
  - rewrite length_take. lia.
  - etrans; [apply sublist_take|]. induction movies as [|m l IH]; cbn; [done|].
    destruct (negb _); by constructor.
  - intros Hs m Hm. apply subseteq_take in Hm.
    apply list_elem_of_In, filter_In in Hm as [_ Hm]. rewrite Hs in Hm.
    cbn in Hm. by apply negb_true_iff in Hm.
  - intros Hs. rewrite Hs. f_equal. apply filter_all. by intros m _.
Qed.

Lemma displayed_safe_witness :
  safe_mode (userProfile initialWorld) = true ∧
  Forall (λ m, adult m = false)
    (displayed [mkMovie 1 "A" true JNull JNull JNull JNull JNull JNull JNull JNull;
                titled "Avatar" 19995] initialWorld).
Proof.
  destruct (displayed_safe
    [mkMovie 1 "A" true JNull JNull JNull JNull JNull JNull JNull JNull;
     titled "Avatar" 19995] initialWorld) as (_ & _ & H & _).
  split; [reflexivity|]. apply Forall_forall. apply H. reflexivity.
Defined.

(** ** Local suggestions, continued *)

Section SuggestionsMore.

Lemma lowerChar_idem (c : ascii) : JS.lowerChar (JS.lowerChar c) = JS.lowerChar c.
Proof. destruct c as [[] [] [] [] [] [] [] []]; reflexivity. Qed.

Lemma toLowerCase_idem (s : string) : JS.toLowerCase (JS.toLowerCase s) = JS.toLowerCase s.
Proof.
  induction s as [|c s IH]; [done|]. cbn [JS.toLowerCase]. by rewrite lowerChar_idem, IH.
Qed.

End SuggestionsMore.

(** The local suggestions: at most four, each one of the ten hard-coded
    titles and each containing the query when both are put in lower case, in
    the order of the hard-coded list; and the letter case of the query makes
    no difference. *)
Theorem getImmediateSuggestions_sound (query : string) :
  let l := getImmediateSuggestions query in
  (length l ≤ 4)%nat ∧ l `sublist_of` commonMovies ∧
  (∀ m, m ∈ l →
        JS.includes (JS.toLowerCase query) (JS.toLowerCase (title m)) = true) ∧
  getImmediateSuggestions (JS.toLowerCase query) = l.
Proof.
  cbn zeta. unfold getImmediateSuggestions. cbv zeta. unfold JS.slice0.
  split; [|split; [|split]].
  - rewrite length_take. lia.
  - etrans; [apply sublist_take|]. generalize commonMovies.
    intros l. induction l as [|m l IH]; cbn [List.filter]; [done|].
    destruct (JS.includes _ _); by constructor.
  - intros m Hm. apply subseteq_take in Hm.
    by apply list_elem_of_In, filter_In in Hm as [_ Hm].
  - by rewrite toLowerCase_idem.
Qed.

Lemma getImmediateSuggestions_sound_witness :
  Forall (λ m, JS.includes "the" (JS.toLowerCase (title m)) = true)
         (getImmediateSuggestions "THE") ∧
  length (getImmediateSuggestions "THE") = 4%nat.
Proof.
  destruct (getImmediateSuggestions_sound "THE") as (_ & _ & H & _).
  split; [|reflexivity]. apply Forall_forall. intros m Hm. exact (H m Hm).
Defined.

(** ** Keyboard navigation of the suggestions *)

Section Navigation.

Lemma handleSuggestionNavigation_range d n items i :
  -1 ≤ i < Z.of_nat n ∨ (n = 0%nat ∧ i = -1) →
  let i' := handleSuggestionNavigation d n items i in
  -1 ≤ i' < Z.of_nat n ∨ (n = 0%nat ∧ i' = -1).
Proof.
  cbn zeta. unfold handleSuggestionNavigation. intros H.
  destruct (n =? 0)%nat eqn:En; [done|]. apply Nat.eqb_neq in En.
  destruct (items =? 0)%nat; [done|].
  destruct (String.eqb d "down"); [left; lia|].
  destruct (String.eqb d "up"); [left; lia|]. done.
Qed.

Lemma navigate_snoc keys d n items i :
  navigate (keys ++ [d]) n items i
  = handleSuggestionNavigation d n items (navigate keys n items i).
Proof. unfold navigate. by rewrite foldl_app. Qed.

Lemma navigate_down k n items :
  (0 < n)%nat → (0 < items)%nat →
  navigate (replicate k "down") n items (-1) = Z.min (Z.of_nat k) (Z.of_nat n) - 1.
Proof.
  intros Hn Hi. induction k as [|k IH].
  - cbn. lia.
  - replace (replicate (S k) "down") with (replicate k "down" ++ ["down"]).
    2:{ clear. induction k as [|k IH]; [done|]. cbn. by rewrite IH. }
    rewrite navigate_snoc, IH. unfold handleSuggestionNavigation.
    destruct (n =? 0)%nat eqn:En; [apply Nat.eqb_eq in En; lia|].
    destruct (items =? 0)%nat eqn:Ei; [apply Nat.eqb_eq in Ei; lia|].
    cbn [String.eqb Ascii.eqb Bool.eqb]. lia.
Qed.

End Navigation.

(** The arrow keys move the highlighted suggestion without ever leaving the
    list: from an index between -1 (nothing highlighted) and the last
    suggestion, any sequence of keys ends between -1 and the last
    suggestion.  The ends do not wrap around: ArrowDown on the last
    suggestion stays on it, ArrowUp with nothing highlighted stays there;
    and a key that is not an arrow, an empty suggestion list or a page
    without suggestion items leave the index alone. *)
Theorem navigation_stays_in_list (keys : list string) (n items : nat) (i : Z) :
  -1 ≤ i < Z.of_nat n →
  -1 ≤ navigate keys n items i < Z.of_nat n ∧
  handleSuggestionNavigation "down" n items (Z.of_nat n - 1) = Z.of_nat n - 1 ∧
  handleSuggestionNavigation "up" n items (-1) = -1 ∧
  (∀ d, d ≠ "down" → d ≠ "up" → handleSuggestionNavigation d n items i = i) ∧
  handleSuggestionNavigation "down" 0 items i = i ∧
  handleSuggestionNavigation "down" n 0 i = i.
Proof.
  intros Hi. split; [|split; [|split; [|split; [|split]]]].
  - assert (H : -1 ≤ navigate keys n items i < Z.of_nat n ∨
                (n = 0%nat ∧ navigate keys n items i = -1)).
    { induction keys as [|d keys IH] using rev_ind; [by left|].
      rewrite navigate_snoc. by apply handleSuggestionNavigation_range. }
    destruct H as [H|[Hn Hnav]]; [done | rewrite Hnav; lia].
  - unfold handleSuggestionNavigation. destruct (n =? 0)%nat; [done|].
    destruct (items =? 0)%nat; [done|]. cbn. lia.
  - unfold handleSuggestionNavigation. destruct (n =? 0)%nat; [done|].
    destruct (items =? 0)%nat; [done|]. cbn. lia.
  - intros d Hd Hu. unfold handleSuggestionNavigation.
    destruct (n =? 0)%nat; [done|]. destruct (items =? 0)%nat; [done|].
    apply String.eqb_neq in Hd, Hu. by rewrite Hd, Hu.
  - done.
  - unfold handleSuggestionNavigation. by destruct (n =? 0)%nat.
Qed.

Lemma navigation_stays_in_list_witness :
  -1 ≤ navigate ["down"; "down"; "down"; "up"; "down"; "down"] 3 3 (-1) < 3 ∧
  navigate ["down"; "down"; "down"; "up"; "down"; "down"] 3 3 (-1) = 2.
Proof.
  destruct (navigation_stays_in_list ["down"; "down"; "down"; "up"; "down"; "down"]
              3 3 (-1)) as [H _]; [lia|].
  split; [exact H | reflexivity].
Defined.

(** ** Trimming *)

Section Trimming.

Lemma trimStart_head (s : string) :
  JS.trimStart s = "" ∨ ∃ c r, JS.trimStart s = String c r ∧ JS.isWhiteSpace c = false.
Proof.
  induction s as [|c s IH]; [by left|]. cbn [JS.trimStart].
  destruct (JS.isWhiteSpace c) eqn:E; [done|]. right. by exists c, s.
Qed.

Lemma trimEnd_idem (s : string) : JS.trimEnd (JS.trimEnd s) = JS.trimEnd s.
Proof.
  induction s as [|c s IH]; [done|]. cbn [JS.trimEnd].
  destruct (JS.trimEnd s) as [|d r] eqn:E.
  - destruct (JS.isWhiteSpace c) eqn:Ec; [done|]. cbn [JS.trimEnd]. by rewrite Ec.
  - change (JS.trimEnd (String c (String d r))) with
      (match JS.trimEnd (String d r) with
       | EmptyString => if JS.isWhiteSpace c then EmptyString else String c EmptyString
       | r' => String c r'
       end).
    by rewrite IH.
Qed.

Lemma trimEnd_head (c : ascii) (s : string) :
  JS.isWhiteSpace c = false → ∃ r, JS.trimEnd (String c s) = String c r.
Proof.
  intros Hc. cbn [JS.trimEnd]. destruct (JS.trimEnd s); [|by eexists].
  rewrite Hc. by eexists.
Qed.

Lemma trim_idem (s : string) : JS.trim (JS.trim s) = JS.trim s.
Proof.
  unfold JS.trim. destruct (trimStart_head s) as [->|(c & r & -> & Hc)]; [done|].
  destruct (trimEnd_head c r Hc) as [r' Hr]. rewrite Hr at 1.
  cbn [JS.trimStart]. rewrite Hc, <- Hr. apply trimEnd_idem.
Qed.

End Trimming.

(** Enter after the arrow keys.  With [n] suggestions on the page, [k]
    presses of ArrowDown (at least one) highlight suggestion number
    [min k n], and Enter then writes the title of that suggestion into the
    box, hides the panel and searches for that title, not for the text typed
    in the box.  With nothing
    highlighted Enter searches for the trimmed text of the box, and does
    nothing when that text is blank. *)
Theorem enter_selects_highlighted (k items : nat) (value : string) (w : World) :
  (0 < k)%nat → (0 < items)%nat → (0 < length (currentSuggestions w))%nat →
  let n := length (currentSuggestions w) in
  let i := navigate (replicate k "down") n items (-1) in
  (∃ movie, currentSuggestions w !! (Nat.min k n - 1)%nat = Some movie ∧
            handleSuggestionEnter i value w
            = searchMovies (title movie)
                (hideSuggestions (updDom (setSearchInputValue (title movie)) w))) ∧
  handleSuggestionEnter (-1) value w = searchMovies (JS.trim value) w ∧
  (JS.trim value = "" → handleSuggestionEnter (-1) value w = w).
Proof.
  intros Hk Hi Hn. cbn zeta. rewrite navigate_down by done. split; [|split].
  - destruct (lookup_lt_is_Some_2 (currentSuggestions w)
                (Nat.min k (length (currentSuggestions w)) - 1)%nat) as [movie Hm]; [lia|].
    exists movie. split; [done|].
    unfold handleSuggestionEnter, selectSuggestion.
    replace (Z.of_nat k `min` Z.of_nat (length (currentSuggestions w)) - 1)
      with (Z.of_nat (Nat.min k (length (currentSuggestions w)) - 1)) by lia.
    rewrite Nat2Z.id, Hm.
    rewrite (proj2 (Z.leb_le _ _)), (proj2 (Z.ltb_lt _ _)) by lia. done.
  - unfold handleSuggestionEnter. cbn [Z.leb Z.compare andb]. cbv zeta.
    destruct (JS.truthy (JS.trim value)) eqn:E; [done|].
    unfold searchMovies. by rewrite trim_idem, E.
  - intros Hv. unfold handleSuggestionEnter. cbn [Z.leb Z.compare andb]. cbv zeta.
    by rewrite Hv.
Qed.

Lemma enter_selects_highlighted_witness :
  let w := setCurrentSuggestions [titled "Inception" 27205; titled "Interstellar" 157336]
             initialWorld in
  handleSuggestionEnter (navigate (replicate 5 "down") 2 2 (-1)) "in" w
  = searchMovies "Interstellar"
      (hideSuggestions (updDom (setSearchInputValue "Interstellar") w)).
Proof.
  cbn zeta.
  destruct (enter_selects_highlighted 5 2 "in"
    (setCurrentSuggestions [titled "Inception" 27205; titled "Interstellar" 157336]
       initialWorld)) as [(movie & Hm & He) _]; [lia | lia | cbn; lia |].
  cbn zeta in He. cbn in Hm. injection Hm as <-. exact He.
Defined.

(** The focus listener repeats the first lines of [getSearchSuggestions] by
    hand; it comes to the same thing.  Focusing the search box whose trimmed
    text has at least two characters does exactly what the debounce timer
    would do for that text, at once; with a shorter text it does nothing (it
    does not hide the panel either). *)
Theorem focus_is_suggestion_query (value : string) (w : World) :
  onFocus value w
  = if (2 <=? String.length (JS.trim value))%nat
    then getSearchSuggestions (JS.trim value) w else w.
Proof.
  unfold onFocus. cbv zeta.
  destruct (2 <=? String.length (JS.trim value))%nat eqn:E; [|done].
  apply Nat.leb_le in E.
  assert (Ht : JS.truthy (JS.trim value) = true)
    by (destruct (JS.trim value); [cbn in E; lia | done]).
  unfold getSearchSuggestions. cbv zeta. rewrite trim_idem, Ht. cbn [negb orb].
  rewrite (proj2 (Nat.ltb_ge _ _)) by lia.
  destruct (String.length (JS.trim value) <=? 3)%nat; [|done].
  by destruct (0 <? Z.of_nat (length (getImmediateSuggestions (JS.trim value)))).
Qed.

(** ** The caches, through the flows *)

Section CacheRoundTrip.




Lemma searchMovies_hit query j w :
  JS.trim query ≠ "" →
  cacheLookup (searchResultCache w)
    (searchCacheKey query (language (userProfile w)) (safe_mode (userProfile w)))
    (now w) = Some j →
  ∃ w0, searchMovies query w = searchResults j w0 ∧
        fetches (log w0) = fetches (log w) ∧
        userProfile w0 = userProfile w ∧
        searchMoviesContent (dom w0) = searchMoviesContent (dom w) ∧
        inflight w0 = inflight w ∧
        searchInputFocused (dom w0) = searchInputFocused (dom w).
Proof.
  intros Hq%truthy_nonempty Hhit.
  unfold searchMovies, searchCacheKey in *. rewrite Hq. cbn [negb]. cbv zeta.
  destruct w as [? ? ? ? ? ? sc rc ? ? ? ? ? ? ? [] ?].
  destruct sc, rc; wcbn; rewrite Hhit; eexists; (split; [reflexivity|]); done.
Qed.

End CacheRoundTrip.



(** The suggestion cache, through the flow.  Once an array has arrived as
    the answer to a suggestion request, asking again for the same text (two
    characters or more) less than 30 seconds after it makes no request,
    aborts nothing and suspends nothing: the panel is shown with the cached
    list, or with the local suggestions when the text has at most three
    characters and matches some of the hard-coded titles. *)
Theorem suggestions_repeat_within_ttl (w : World) (r : nat) (query : string)
    (sig : option nat) (results : list Movie) (t : Z) :
  JS.trim query ≠ "" → (2 ≤ String.length query)%nat →
  findTask r w
  = Some (TSuggestFetch (suggestionCacheKey query (language (userProfile w))
                                            (safe_mode (userProfile w))) sig) →
  t - now w < 30000 →
  let w1 := deliver r (RJson (JArray results)) w in
  let w2 := getSearchSuggestions query (setNow t w1) in
  let shown := if (String.length query <=? 3)%nat
                  && (0 <? Z.of_nat (length (getImmediateSuggestions query)))
               then getImmediateSuggestions query else results in
  fetches (log w2) = fetches (log w1) ∧ controllers w2 = controllers w1 ∧
  inflight w2 = inflight w1 ∧
  currentSuggestions w2 = shown ∧
  suggestionsContent (dom w2) = shown ∧ suggestionsHidden (dom w2) = false.
Proof.
  intros Hq%truthy_nonempty Hlen Hfind Ht. cbn zeta.
  unfold deliver. rewrite Hfind. unfold suggestionsResume. cbv zeta.
  unfold getSearchSuggestions. rewrite Hq. cbn [negb orb].
  rewrite (proj2 (Nat.ltb_ge _ _)) by lia.
  assert (Hhit : ∀ w', 
    let w1 := emit (ESuggestionCacheSet
           (suggestionCacheKey query (language (userProfile w)) (safe_mode (userProfile w))))
        (setSuggestionCache
           (cacheStore (suggestionCache w')
              (suggestionCacheKey query (language (userProfile w)) (safe_mode (userProfile w)))
              results (now w)) w') in
    userProfile w' = userProfile w →
    let w2 := suggestionsLookup query (setNow t w1) in
    fetches (log w2) = fetches (log w1) ∧ controllers w2 = controllers w1 ∧
    inflight w2 = inflight w1 ∧
    currentSuggestions w2 = results ∧
    suggestionsContent (dom w2) = results ∧ suggestionsHidden (dom w2) = false).
  { intros w' w1 Hp. cbn zeta. subst w1. unfold suggestionsLookup. cbv zeta.
    destruct w' as [? ? ? ? ? ? ? ? ? ? ? ? ? ? ? [] ?]. wcbn. subst.
    rewrite cacheLookup_store. unfold CACHE_TTL_MS.
    rewrite (proj2 (Z.ltb_lt _ _)) by lia. wcbn. done. }
  set (w' := displaySuggestions results (setCurrentSuggestions results (removeTask r w))).
  assert (Hp : userProfile w' = userProfile w) by (by destruct w as [? ? ? ? ? ? ? ? ? ? ? ? ? ? ? [] ?]).
  replace (now w') with (now w) by (by destruct w as [? ? ? ? ? ? ? ? ? ? ? ? ? ? ? [] ?]).
  specialize (Hhit w' Hp). cbn zeta in Hhit.
  destruct (String.length query <=? 3)%nat; cbn [andb]; [|exact Hhit].
  destruct (0 <? Z.of_nat (length (getImmediateSuggestions query))); [|exact Hhit].
  clear Hhit. destruct w' as [? ? ? ? ? ? ? ? ? ? ? ? ? ? ? [] ?]. wcbn. done.
Qed.

Lemma suggestions_repeat_within_ttl_witness :
  let w := run [(0, AInput "matrix"); (150, ATick)] initialWorld in
  let w1 := deliver 0%nat (RJson (JArray [titled "The Matrix" 603])) w in
  let w2 := getSearchSuggestions "matrix" (setNow 20000 w1) in
  fetches (log w2) = fetches (log w1) ∧ currentSuggestions w2 = [titled "The Matrix" 603].
Proof.
  cbn zeta.
  destruct (suggestions_repeat_within_ttl
              (run [(0, AInput "matrix"); (150, ATick)] initialWorld)
              0%nat "matrix" (Some 0%nat) [titled "The Matrix" 603] 20000)
    as (Hf & _ & _ & Hc & _).
  - discriminate.
  - cbn. lia.
  - vm_compute. reflexivity.
  - vm_compute. reflexivity.
  - split; [exact Hf | exact Hc].
Defined.

(** ** The pending suggestion query *)

Section PendingQuery.

Lemma omap_insertTimer_other (t : Timer) (l : list Timer) :
  timerQuery t = None → omap timerQuery (insertTimer t l) = omap timerQuery l.
Proof.
  intros Ht. induction l as [|t' l IH]; cbn [insertTimer omap list_omap].
  - by rewrite Ht.
  - destruct (due t' <=? due t); cbn [omap list_omap]; [by rewrite IH | by rewrite Ht].
Qed.

Lemma onBlur_sched w :
  let w' := onBlur (updDom (setSearchInputFocused false) w) in
  now w' = now w ∧ scheduled w' = scheduled w ∧
  suggestQueries (log w') = suggestQueries (log w).
Proof.
  cbn zeta. unfold onBlur, setTimeout, scheduled. destruct w. wcbn.
  split; [done|]. split; [|done]. by apply omap_insertTimer_other.
Qed.

Lemma handle_sched a w :
  match a with AInput _ | ARate _ _ => False | _ => True end →
  now (handle a w) = now w ∧ scheduled (handle a w) = scheduled w ∧
  suggestQueries (log (handle a w)) = suggestQueries (log w).
Proof.
  intros Ha.
  assert (Hdeb : ∀ w', debSame w w' →
            now w' = now w ∧ scheduled w' = scheduled w ∧
            suggestQueries (log w') = suggestQueries (log w)).
  { intros w' (Hn & Ht & _ & _ & Hq). unfold scheduled. by rewrite Ht. }
  destruct a; cbn [handle]; try done; try apply onBlur_sched; apply Hdeb;
    first [ (eapply debSame_trans; [apply updDom_deb | apply onFocus_deb])
          | apply searchMovies_deb | apply deliver_deb
          | apply displayDone_deb | apply updDom_deb | apply debSame_refl ].
Qed.

Lemma quiet_step w t a :
  match a with AInput _ | ARate _ _ => False | _ => True end →
  (∀ dq, dq ∈ scheduled w → t < fst dq) →
  let w' := step w (t, a) in
  scheduled w' = scheduled w ∧ queriesMade w' = queriesMade w ∧
  (now w ≤ t → now w' = t).
Proof.
  intros Ha Hlate. cbn zeta. unfold step. cbn [fst snd].
  destruct (fireDue_fields t w) as (Hsch & _ & _ & Hq & Hn).
  rewrite (filter_none _ (scheduled w)) in Hq.
  2:{ intros dq Hin. apply Z.leb_gt. by apply Hlate. }
  rewrite (filter_all _ (scheduled w)) in Hsch.
  2:{ intros dq Hin. apply negb_true_iff, Z.leb_gt. by apply Hlate. }
  cbn [map reverse app] in Hq.
  destruct (setNow_fields (now (fireDue t w) `max` t) (fireDue t w))
    as (Ht1 & _ & Hn1 & Hl1).
  set (w1 := setNow (now (fireDue t w) `max` t) (fireDue t w)) in *.
  destruct (handle_sched a w1 Ha) as (Hn2 & Hs2 & Hq2).
  destruct (drainAborted_deb (handle a w1)) as (Hn3 & Ht3 & _ & _ & Hq3).
  unfold scheduled, queriesMade in *.
  rewrite Ht3, Hs2, Ht1, Hq3, Hq2, Hl1, Hn3, Hn2, Hn1. repeat split; try done.
  intros Hnow. specialize (Hn Hnow). lia.
Qed.

End PendingQuery.

(** Only a keystroke replaces the pending suggestion query.  After a
    keystroke that leaves a text that is not blank, an event that is neither
    a keystroke nor a rating and comes before the 150 ms have passed (a
    search started with the button, Enter or a click on a suggestion, a
    focus, a network answer, the end of a display) neither cancels nor
    delays the query: it is still
    scheduled for 150 ms after the keystroke, and it is made then.  In
    particular starting the search hides the suggestion panel but does not
    stop the suggestion query for the same text. *)
Theorem pending_query_survives (evs : list (Z * Action)) (t0 t1 T : Z) (v : string)
    (a : Action) :
  let w := run evs initialWorld in
  match a with AInput _ | ARate _ _ => False | _ => True end →
  now w ≤ t0 → (∀ dq, dq ∈ scheduled w → t0 < fst dq) →
  JS.trim v ≠ "" → t0 ≤ t1 < t0 + 150 → t0 + 150 ≤ T →
  let w1 := step w (t0, AInput v) in
  let w2 := step w1 (t1, a) in
  let w3 := step w2 (T, ATick) in
  scheduled w2 = [(t0 + 150, JS.trim v)] ∧ queriesMade w2 = queriesMade w ∧
  scheduled w3 = [] ∧ queriesMade w3 = JS.trim v :: queriesMade w.
Proof.
  cbn zeta. generalize (DebInv_reachable evs). generalize (run evs initialWorld).
  intros w Hd Ha Hnow Hlate Hv%truthy_nonempty Ht1 HT.
  destruct (key_step w t0 v Hd Hnow Hlate) as (Hd1 & Hn1 & Hs1 & Hq1).
  unfold scheduleOf in Hs1. cbn [fst snd] in Hs1. rewrite Hv in Hs1.
  destruct (quiet_step (step w (t0, AInput v)) t1 a Ha) as (Hs2 & Hq2 & _).
  { intros dq. rewrite Hs1. intros ->%list_elem_of_singleton. cbn. lia. }
  destruct (tick_step (step (step w (t0, AInput v)) (t1, a)) T) as (Hs3 & Hq3).
  { intros dq. rewrite Hs2, Hs1. intros ->%list_elem_of_singleton. cbn. lia. }
  rewrite Hs3, Hq3, Hs2, Hq2, Hs1, Hq1. done.
Qed.

Lemma pending_query_survives_witness :
  let w1 := step initialWorld (0, AInput "matrix") in
  let w2 := step w1 (40, ASearch "matrix") in
  let w3 := step w2 (150, ATick) in
  scheduled w2 = [(150, "matrix")] ∧ queriesMade w3 = ["matrix"].
Proof.
  cbn zeta.
  destruct (pending_query_survives [] 0 40 150 "matrix" (ASearch "matrix"))
    as (Hs & _ & _ & Hq).
  - exact I.
  - cbn. lia.
  - intros dq Hin. cbn in Hin. by apply elem_of_nil in Hin.
  - discriminate.
  - lia.
  - lia.
  - split; [exact Hs | exact Hq].
Defined.

(** ** The refresh of the personalised recommendations *)

Create HintDb rec.

Section RefreshFrame.

Lemma recSame_refl w : recSame w w.
Proof. by repeat split. Qed.

Lemma recSame_trans w1 w2 w3 : recSame w1 w2 → recSame w2 w3 → recSame w1 w3.
Proof. intros (?&?&?) (?&?&?). repeat split; congruence. Qed.

Lemma emit_rec e w : recsRequestOf e = None → recSame w (emit e w).
Proof.
  intros He. destruct w. unfold recSame, recsRequests. wcbn.
  cbn [omap list_omap]. by rewrite He.
Qed.

Lemma updDom_rec f w : recSame w (updDom f w).
Proof. destruct w. by repeat split. Qed.

Lemma setNow_rec t w : recSame w (setNow t w).
Proof. destruct w. by repeat split. Qed.

Lemma setSearchResultCache_rec x w : recSame w (setSearchResultCache x w).
Proof. destruct w. by repeat split. Qed.

Lemma setSuggestionCache_rec x w : recSame w (setSuggestionCache x w).
Proof. destruct w. by repeat split. Qed.

Lemma setCurrentSuggestions_rec x w : recSame w (setCurrentSuggestions x w).
Proof. destruct w. by repeat split. Qed.

Lemma setInflight_rec x n w : recSame w (setInflight x n w).
Proof. destruct w. by repeat split. Qed.

Lemma setController_rec ch x w : recSame w (setController ch x w).
Proof. destruct w, ch; by repeat split. Qed.

Lemma setControllers_rec x w : recSame w (setControllers x w).
Proof. destruct w. by repeat split. Qed.

Lemma setSearchTimeout_rec x w : recSame w (setSearchTimeout x w).
Proof. destruct w. by repeat split. Qed.

Lemma setTimers_rec x n w : recSame w (setTimers x n w).
Proof. destruct w. by repeat split. Qed.

Lemma addToHistoryW_rec i w : recSame w (addToHistoryW i w).
Proof.
  unfold addToHistoryW. destruct (negb _); [|apply recSame_refl].
  destruct w. by repeat split.
Qed.

End RefreshFrame.

#[local] Hint Resolve emit_rec updDom_rec setNow_rec setSearchResultCache_rec
  setSuggestionCache_rec setCurrentSuggestions_rec setInflight_rec
  setController_rec setControllers_rec setSearchTimeout_rec setTimers_rec
  addToHistoryW_rec : rec.
#[local] Hint Extern 1 (recsRequestOf _ = None) => reflexivity : rec.

Ltac rec_frame :=
  repeat first
    [ apply recSame_refl
    | eapply recSame_trans; [| solve [auto with rec nocore]]
    | match goal with
      | |- recSame _ (if ?c then _ else _) => destruct c
      | |- recSame _ (match ?x with _ => _ end) => destruct x
      end ].

Section RefreshFlows.

Lemma hideSuggestions_rec w : recSame w (hideSuggestions w).
Proof. unfold hideSuggestions. rec_frame. Qed.

Lemma displaySuggestions_rec l w : recSame w (displaySuggestions l w).
Proof. unfold displaySuggestions. rec_frame. Qed.

Lemma abortIfSet_rec ch w : recSame w (abortIfSet ch w).
Proof. unfold abortIfSet. rec_frame. Qed.

Lemma newController_rec ch w : recSame w (newController ch w).
Proof. unfold newController. rec_frame. Qed.

Lemma suspend_rec t w : recSame w (suspend t w).
Proof. unfold suspend. rec_frame. Qed.

Lemma fetch_rec p s t w : recSame w (fetch (ReqSearch p) s t w).
Proof. unfold fetch, suspend. rec_frame. Qed.

Lemma fetch_recommendations_rec i b l s t w :
  recSame w (fetch (ReqRecommendations i b l) s t w).
Proof. unfold fetch, suspend. rec_frame. Qed.

Lemma displayMovies_rec l c w : recSame w (displayMovies l c w).
Proof. unfold displayMovies. cbv zeta. rec_frame. Qed.

Lemma clearTimeout_rec i w : recSame w (clearTimeout i w).
Proof. unfold clearTimeout. rec_frame. Qed.

Lemma setTimeout_rec cb d w : recSame w (setTimeout cb d w).
Proof. unfold setTimeout. rec_frame. Qed.

End RefreshFlows.

#[local] Hint Resolve hideSuggestions_rec displaySuggestions_rec abortIfSet_rec
  newController_rec suspend_rec fetch_rec fetch_recommendations_rec displayMovies_rec
  clearTimeout_rec setTimeout_rec : rec.

Section RefreshHandlers.

Lemma suggestionsLookup_rec q w : recSame w (suggestionsLookup q w).
Proof. unfold suggestionsLookup. cbv zeta. rec_frame. Qed.

Lemma getSearchSuggestions_rec q w : recSame w (getSearchSuggestions q w).
Proof.
  unfold getSearchSuggestions. cbv zeta.
  repeat first [ apply suggestionsLookup_rec | progress rec_frame ].
Qed.

Lemma suggestionsCatch_rec w : recSame w (suggestionsCatch w).
Proof. unfold suggestionsCatch. rec_frame. Qed.

Lemma searchCatch_rec w : recSame w (searchCatch w).
Proof. unfold searchCatch, searchFinally. rec_frame. Qed.

Lemma reject_rec t w : recSame w (reject t w).
Proof.
  destruct t; cbn [reject];
    first [apply recSame_refl | apply suggestionsCatch_rec | apply searchCatch_rec].
Qed.

Lemma foldl_reject_rec (ts : list (nat * Task)) (w : World) :
  recSame w (foldl (λ w rt, reject (snd rt) w) w ts).
Proof.
  revert w. induction ts as [|rt ts IH]; intros w; [apply recSame_refl|].
  cbn [foldl]. eapply recSame_trans; [apply (reject_rec (snd rt))|apply IH].
Qed.

Lemma drainAborted_rec w : recSame w (drainAborted w).
Proof.
  unfold drainAborted. cbv zeta.
  eapply recSame_trans; [|apply foldl_reject_rec]. apply setInflight_rec.
Qed.

Lemma onFocus_rec v w : recSame w (onFocus v w).
Proof.
  unfold onFocus. cbv zeta.
  repeat first [ apply getSearchSuggestions_rec | progress rec_frame ].
Qed.

Lemma focusSearchInput_rec w : recSame w (focusSearchInput w).
Proof.
  unfold focusSearchInput. destruct (searchInputFocused (dom w)); [apply recSame_refl|].
  eapply recSame_trans; [|apply onFocus_rec]. rec_frame.
Qed.

Lemma searchResults_rec r w : recSame w (searchResults r w).
Proof.
  unfold searchResults, searchFinally.
  destruct r as [[|top rest]|]; cbv zeta;
    repeat first [ (eapply recSame_trans; [|apply focusSearchInput_rec]) | progress rec_frame ].
Qed.

Lemma searchMovies_rec q w : recSame w (searchMovies q w).
Proof.
  unfold searchMovies. cbv zeta.
  repeat first [ (eapply recSame_trans; [|apply searchResults_rec]) | progress rec_frame ].
Qed.

Lemma onInput_rec v w : recSame w (onInput v w).
Proof. unfold onInput. cbv zeta. rec_frame. Qed.

Lemma removeTask_rec r w : recSame w (removeTask r w).
Proof. unfold removeTask. rec_frame. Qed.

Lemma userRecsResume_rec resp w : recSame w (userRecsResume resp w).
Proof. unfold userRecsResume. cbv zeta. rec_frame. Qed.

Lemma deliver_rec r resp w : recSame w (deliver r resp w).
Proof.
  unfold deliver. destruct (findTask r w) as [[]|]; try apply recSame_refl;
    (eapply recSame_trans; [apply removeTask_rec|]).
  - unfold suggestionsResume. destruct resp as [[l|]|]; cbv zeta;
      [rec_frame | rec_frame | apply suggestionsCatch_rec].
  - unfold searchResume. destruct resp as [j|]; [|apply searchCatch_rec]. cbv zeta.
    eapply recSame_trans; [|apply searchResults_rec]. rec_frame.
  - unfold recsResume, searchFinally.
    destruct resp as [[[|m rest]|]|]; cbv zeta; try apply searchCatch_rec; rec_frame.
  - apply userRecsResume_rec.
Qed.

Lemma displayDone_rec r w : recSame w (displayDone r w).
Proof.
  unfold displayDone. destruct (findTask r w) as [[]|]; try apply recSame_refl;
    (eapply recSame_trans; [apply removeTask_rec|]).
  - unfold searchAfterDisplay. cbv zeta. rec_frame.
  - unfold searchFinally. rec_frame.
  - apply recSame_refl.
Qed.

End RefreshHandlers.

Section RefreshTimers.

Lemma userRecsCallback_fields w :
  let w' := userRecsCallback w in
  recsDebounceTimeout w' = recsDebounceTimeout w ∧
  recsBody (userProfile w') = recsBody (userProfile w) ∧
  recsRequests (log w') = recsBody (userProfile w) :: recsRequests (log w).
Proof.
  cbn zeta. unfold userRecsCallback. cbv zeta.
  assert (recSame w (updDom (setUserRecommendations URLoading)
                       (newController ChRecs (abortIfSet ChRecs w)))) as H by rec_frame.
  revert H.
  generalize (updDom (setUserRecommendations URLoading)
                (newController ChRecs (abortIfSet ChRecs w))).
  intros w2 (Hr & Hb & Hq). unfold recsBody in *. destruct w2. wcbn.
  unfold recsRequests in *. wcbn. cbn [omap list_omap recsRequestOf].
  by rewrite Hq, <- Hb.
Qed.

Lemma fireTimer_refresh w tm :
  let w' := fireTimer w tm in
  recsDebounceTimeout w' = recsDebounceTimeout w ∧
  recsBody (userProfile w') = recsBody (userProfile w) ∧
  recsRequests (log w')
  = match timerRefresh tm with
    | Some _ => recsBody (userProfile w) :: recsRequests (log w)
    | None => recsRequests (log w)
    end.
Proof.
  cbn zeta. unfold fireTimer, timerRefresh.
  set (w1 := setNow (now w `max` due tm) w).
  assert (recSame w w1) as (Hr1 & Hb1 & Hq1) by apply setNow_rec.
  destruct (callback tm) as [q| |]; [cbn [runCallback]..|].
  - assert (recSame w1 (drainAborted
               (getSearchSuggestions q (emit (ESuggestionsQuery (now w1) q) w1))))
      as (Hr & Hb & Hq).
    { eapply recSame_trans; [|apply drainAborted_rec].
      eapply recSame_trans; [|apply getSearchSuggestions_rec]. by apply emit_rec. }
    rewrite Hr, Hb, Hq. done.
  - destruct (drainAborted_rec (userRecsCallback w1)) as (Hr & Hb & Hq).
    destruct (userRecsCallback_fields w1) as (Hr' & Hb' & Hq').
    rewrite Hr, Hb, Hq, Hr', Hb', Hq', Hb1, Hq1. done.
  - assert (recSame w1 (drainAborted (runCallback CbBlur w1))) as (Hr & Hb & Hq).
    { eapply recSame_trans; [|apply drainAborted_rec]. cbn [runCallback].
      destruct (suggestionHovered (dom w1)); rec_frame. }
    rewrite Hr, Hb, Hq. done.
Qed.

Lemma foldl_fireTimer_refresh (l : list Timer) (w : World) :
  let w' := foldl fireTimer w l in
  recsDebounceTimeout w' = recsDebounceTimeout w ∧
  recsBody (userProfile w') = recsBody (userProfile w) ∧
  recsRequests (log w')
  = replicate (length (omap timerRefresh l)) (recsBody (userProfile w))
    ++ recsRequests (log w).
Proof.
  cbn zeta. revert w. induction l as [|tm l IH]; intros w; [done|].
  cbn [foldl]. destruct (IH (fireTimer w tm)) as (Hr & Hb & Hq).
  destruct (fireTimer_refresh w tm) as (Hr' & Hb' & Hq').
  rewrite Hr, Hb, Hq, Hr', Hb', Hq'. split; [done|]. split; [done|].
  cbn [omap list_omap]. destruct (timerRefresh tm); [|done].
  cbn [length replicate]. 
  change (recsBody (userProfile w) :: recsRequests (log w))
    with ([recsBody (userProfile w)] ++ recsRequests (log w)).
  rewrite app_assoc. f_equal.
  generalize (length (omap timerRefresh l)). intros n.
  induction n as [|n IHn]; [done|]. cbn. by rewrite IHn.
Qed.

Lemma omap_refresh_filter_due (f : Z → bool) (l : list Timer) :
  omap timerRefresh (List.filter (λ tm, f (due tm)) l)
  = List.filter f (omap timerRefresh l).
Proof.
  induction l as [|tm l IH]; [done|]. cbn [List.filter omap list_omap].
  unfold timerRefresh at 2. destruct (callback tm) as [q| |] eqn:E.
  - destruct (f (due tm)); [|exact IH].
    cbn [omap list_omap]. unfold timerRefresh at 1. rewrite E. exact IH.
  - cbn [List.filter]. destruct (f (due tm)); [|exact IH].
    cbn [omap list_omap]. unfold timerRefresh at 1. rewrite E. by rewrite IH.
  - destruct (f (due tm)); [|exact IH].
    cbn [omap list_omap]. unfold timerRefresh at 1. rewrite E. exact IH.
Qed.

Lemma fireDue_refresh t w :
  let w' := fireDue t w in
  scheduledRefresh w'
  = List.filter (λ d, negb (d <=? t)) (scheduledRefresh w) ∧
  (∀ tm, tm ∈ timers w' → tm ∈ timers w) ∧
  recsDebounceTimeout w' = recsDebounceTimeout w ∧
  recsBody (userProfile w') = recsBody (userProfile w) ∧
  recsRequests (log w')
  = replicate (length (List.filter (λ d, d <=? t) (scheduledRefresh w)))
              (recsBody (userProfile w))
    ++ recsRequests (log w).
Proof.
  cbn zeta. rewrite fireDue_fold.
  destruct (foldl_fireTimer_fields
              (List.filter (λ tm, due tm <=? t) (timers w))
              (setTimers (List.filter (λ tm, negb (due tm <=? t)) (timers w))
                         (nextTimer w) w) t) as (Ht & _).
  destruct (foldl_fireTimer_refresh
              (List.filter (λ tm, due tm <=? t) (timers w))
              (setTimers (List.filter (λ tm, negb (due tm <=? t)) (timers w))
                         (nextTimer w) w)) as (Hr & Hb & Hq).
  unfold scheduledRefresh. rewrite Ht, Hr, Hb, Hq.
  rewrite (omap_refresh_filter_due (λ d, d <=? t)).
  destruct w. wcbn. split; [|split; [|done]].
  - apply (omap_refresh_filter_due (λ d, negb (d <=? t))).
  - intros tm [Hin _]%list_elem_of_In%filter_In. by apply list_elem_of_In.
Qed.

Lemma omap_refresh_nil (l : list Timer) :
  omap timerRefresh l = [] ↔ ∀ tm, tm ∈ l → timerRefresh tm = None.
Proof.
  induction l as [|tm l IH]; cbn [omap list_omap].
  - split; [intros _ tm Hin; by apply elem_of_nil in Hin | done].
  - destruct (timerRefresh tm) eqn:E.
    + split; [done|]. intros H. specialize (H tm ltac:(by left)). congruence.
    + rewrite IH. split.
      * intros H tm' [->|Hin]%elem_of_cons; [done | by apply H].
      * intros H tm' Hin. apply H. by right.
Qed.

Lemma omap_refresh_insert (t : Timer) (l : list Timer) :
  omap timerRefresh l = [] →
  omap timerRefresh (insertTimer t l) = option_list (timerRefresh t).
Proof.
  induction l as [|t' l IH]; cbn [insertTimer omap list_omap].
  - intros _. by destruct (timerRefresh t).
  - destruct (timerRefresh t') as [d|] eqn:E; [done|]. intros Hl.
    destruct (due t' <=? due t); cbn [omap list_omap]; rewrite E.
    + by apply IH.
    + rewrite Hl. by destruct (timerRefresh t).
Qed.

Lemma omap_refresh_insert_other (t : Timer) (l : list Timer) :
  timerRefresh t = None →
  omap timerRefresh (insertTimer t l) = omap timerRefresh l.
Proof.
  intros Ht. induction l as [|t' l IH]; cbn [insertTimer omap list_omap].
  - by rewrite Ht.
  - destruct (due t' <=? due t); cbn [omap list_omap].
    + by rewrite IH.
    + by rewrite Ht.
Qed.

End RefreshTimers.

Section RefreshSteps.

Lemma omap_refresh_clear_length (i : positive) (l : list Timer) :
  (length (omap timerRefresh (filter (λ t, timerId t ≠ i) l))
   ≤ length (omap timerRefresh l))%nat.
Proof.
  induction l as [|tm l IH]; [done|]. rewrite filter_cons.
  destruct (decide (timerId tm ≠ i)); cbn [omap list_omap];
    destruct (timerRefresh tm); cbn [length]; lia.
Qed.

Lemma RefreshInv_same w w' :
  timers w' = timers w → recsDebounceTimeout w' = recsDebounceTimeout w →
  RefreshInv w → RefreshInv w'.
Proof.
  intros Ht Hr [Hl Hi]. unfold RefreshInv, scheduledRefresh. by rewrite Ht, Hr.
Qed.

Lemma RefreshInv_frame w w' : debSame w w' → recSame w w' → RefreshInv w → RefreshInv w'.
Proof. intros (_ & Ht & _) (Hr & _). by apply RefreshInv_same. Qed.

Lemma RefreshInv_of_nothing_scheduled w : scheduledRefresh w = [] → RefreshInv w.
Proof.
  intros H. split; [rewrite H; cbn; lia|].
  unfold scheduledRefresh in H. rewrite omap_refresh_nil in H.
  intros tm Hin [d Hd]. rewrite (H tm Hin) in Hd. done.
Qed.

(** Clearing the timer whose id [recsDebounceTimeout] holds leaves no
    refresh pending. *)
Lemma clear_refresh_timer w :
  RefreshInv w →
  let w1 := match recsDebounceTimeout w with
            | Some i => clearTimeout i w | None => w end in
  scheduledRefresh w1 = [] ∧ now w1 = now w ∧ nextTimer w1 = nextTimer w ∧
  userProfile w1 = userProfile w ∧ recsRequests (log w1) = recsRequests (log w).
Proof.
  intros [_ Hd]. cbn zeta. unfold scheduledRefresh in *.
  destruct (recsDebounceTimeout w) as [i|] eqn:Hs.
  - unfold clearTimeout. destruct w. wcbn. repeat split.
    apply omap_refresh_nil. intros tm [Hne Hin]%list_elem_of_filter.
    destruct (timerRefresh tm) eqn:E; [|done].
    specialize (Hd tm Hin ltac:(by eexists)). congruence.
  - repeat split. apply omap_refresh_nil. intros tm Hin.
    destruct (timerRefresh tm) eqn:E; [|done].
    specialize (Hd tm Hin ltac:(by eexists)). congruence.
Qed.

Lemma loadPersonalizedRecommendations_fields w :
  RefreshInv w →
  let w' := loadPersonalizedRecommendations w in
  RefreshInv w' ∧ now w' = now w ∧ scheduledRefresh w' = [now w + 400] ∧
  userProfile w' = userProfile w ∧ recsRequests (log w') = recsRequests (log w).
Proof.
  intros Hd. cbn zeta. unfold loadPersonalizedRecommendations. cbv zeta.
  pose proof (clear_refresh_timer w Hd) as H. cbn zeta in H. revert H.
  generalize (match recsDebounceTimeout w with Some i => clearTimeout i w | None => w end).
  intros w1 (Hsch & Hnow & Hnext & Hp & Hq).
  unfold RefreshInv, scheduledRefresh, setTimeout in *. rewrite <- Hnow, <- Hq, <- Hp.
  clear Hd Hnow Hq Hnext Hp.
  destruct w1. wcbn. unfold recsRequests. wcbn. cbn [omap list_omap recsRequestOf].
  rewrite omap_refresh_insert by done. cbn. repeat split; try done.
  intros tm [->|Hin]%elem_of_insertTimer [d Hsome]; [done|].
  rewrite omap_refresh_nil in Hsch. by rewrite (Hsch tm Hin) in Hsome.
Qed.

Lemma rateMovieW_fields i b w :
  RefreshInv w →
  let w' := rateMovieW i b w in
  RefreshInv w' ∧ now w' = now w ∧ scheduledRefresh w' = [now w + 400] ∧
  userProfile w' = rateMovie i b (userProfile w) ∧
  recsRequests (log w') = recsRequests (log w).
Proof.
  intros Hd. cbn zeta. unfold rateMovieW. cbv zeta.
  set (w1 := emit ESaveUserProfile (setProfile (rateMovie i b (userProfile w)) w)).
  assert (RefreshInv w1) as Hd1 by (by destruct w).
  destruct (loadPersonalizedRecommendations_fields w1 Hd1) as (Hd' & Hn & Hs & Hp & Hq).
  split; [done|]. rewrite Hn, Hs, Hp, Hq. by destruct w.
Qed.

Lemma onInput_RefreshInv v w : RefreshInv w → RefreshInv (onInput v w).
Proof.
  intros Hd. unfold onInput. cbv zeta.
  assert (RefreshInv (match searchTimeout w with
                      | Some i => clearTimeout i w | None => w end)) as Hd1.
  { destruct (searchTimeout w) as [i|]; [|done].
    destruct Hd as [Hl Hi]. unfold RefreshInv, scheduledRefresh, clearTimeout in *.
    destruct w. wcbn. split.
    - etrans; [apply omap_refresh_clear_length | done].
    - intros tm [_ Hin]%list_elem_of_filter. by apply Hi. }
  revert Hd1.
  generalize (match searchTimeout w with Some i => clearTimeout i w | None => w end).
  clear Hd. intros w1 Hd. destruct (negb _).
  - eapply RefreshInv_frame; [apply hideSuggestions_deb | apply hideSuggestions_rec | done].
  - destruct Hd as [Hl Hi]. unfold RefreshInv, scheduledRefresh, setTimeout in *.
    destruct w1. wcbn. split.
    + by rewrite omap_refresh_insert_other.
    + intros tm [->|Hin]%elem_of_insertTimer [d Hsome]; [done|].
      apply Hi; [done | by eexists].
Qed.

Lemma onBlur_RefreshInv w :
  RefreshInv w → RefreshInv (onBlur (updDom (setSearchInputFocused false) w)).
Proof.
  intros [Hl Hi]. unfold RefreshInv, scheduledRefresh, onBlur, setTimeout in *.
  destruct w. wcbn. split.
  - by rewrite omap_refresh_insert_other.
  - intros tm [->|Hin]%elem_of_insertTimer [d Hsome]; [done|].
    apply Hi; [done | by eexists].
Qed.

Lemma fireDue_RefreshInv t w : RefreshInv w → RefreshInv (fireDue t w).
Proof.
  intros [Hl Hi]. destruct (fireDue_refresh t w) as (Hs & Hin & Hr & _).
  split.
  - rewrite Hs. etrans; [|exact Hl]. clear.
    induction (scheduledRefresh w) as [|d l IH]; [done|]. cbn [List.filter].
    destruct (negb _); cbn [length]; lia.
  - intros tm Htm Hsome. rewrite Hr. apply Hi; [by apply Hin | done].
Qed.

Lemma step_RefreshInv w ev : RefreshInv w → RefreshInv (step w ev).
Proof.
  intros Hd. unfold step. cbv zeta.
  eapply RefreshInv_frame; [apply drainAborted_deb | apply drainAborted_rec |].
  assert (RefreshInv (setNow (now (fireDue (fst ev) w) `max` fst ev) (fireDue (fst ev) w)))
    as Hd1.
  { eapply RefreshInv_same; [| |apply (fireDue_RefreshInv (fst ev) w Hd)].
    - by destruct (fireDue (fst ev) w).
    - by destruct (fireDue (fst ev) w). }
  revert Hd1. generalize (setNow (now (fireDue (fst ev) w) `max` fst ev) (fireDue (fst ev) w)).
  intros w1 Hd1. destruct (snd ev) eqn:Ea; cbn [handle]; try done.
  - apply onInput_RefreshInv.
    eapply RefreshInv_frame; [apply updDom_deb | apply updDom_rec | done].
  - eapply RefreshInv_frame; [apply onFocus_deb | apply onFocus_rec |].
    eapply RefreshInv_frame; [apply updDom_deb | apply updDom_rec | done].
  - eapply RefreshInv_frame; [apply searchMovies_deb | apply searchMovies_rec | done].
  - by apply rateMovieW_fields.
  - eapply RefreshInv_frame; [apply deliver_deb | apply deliver_rec | done].
  - eapply RefreshInv_frame; [apply displayDone_deb | apply displayDone_rec | done].
  - by apply onBlur_RefreshInv.
  - eapply RefreshInv_frame; [apply updDom_deb | apply updDom_rec | done].
Qed.

Lemma RefreshInv_reachable evs : RefreshInv (run evs initialWorld).
Proof.
  assert (∀ w, RefreshInv w → RefreshInv (run evs w)) as H.
  { induction evs as [|ev evs IH]; intros w Hd; [done|].
    cbn. apply IH. by apply step_RefreshInv. }
  apply H. by apply RefreshInv_of_nothing_scheduled.
Qed.

(** A rating at time [t], when no refresh is due by then. *)
Lemma rate_step w t i b :
  RefreshInv w → now w ≤ t → (∀ d, d ∈ scheduledRefresh w → t < d) →
  let w' := step w (t, ARate i b) in
  RefreshInv w' ∧ now w' = t ∧ scheduledRefresh w' = [t + 400] ∧
  recsBody (userProfile w') = recsBody (rateMovie i b (userProfile w)) ∧
  recsRequests (log w') = recsRequests (log w).
Proof.
  intros Hd Hnow Hlate. cbn zeta.
  pose proof (step_RefreshInv w (t, ARate i b) Hd) as Hd'.
  split; [done|]. unfold step. cbn [fst snd handle].
  destruct (fireDue_refresh t w) as (_ & _ & _ & Hb & Hq).
  destruct (fireDue_fields t w) as (_ & _ & _ & _ & Hn). specialize (Hn Hnow).
  rewrite (filter_none _ (scheduledRefresh w)) in Hq.
  2:{ intros d Hin. apply Z.leb_gt. by apply Hlate. }
  cbn [length replicate app] in Hq.
  pose proof (fireDue_RefreshInv t w Hd) as Hdf.
  set (wf := fireDue t w) in *.
  set (w1 := setNow (now wf `max` t) wf).
  assert (RefreshInv w1) as Hd1
    by (eapply RefreshInv_same; [| |exact Hdf]; by destruct wf).
  assert (now w1 = t) as Hn1 by (subst w1; destruct wf; cbn in *; lia).
  assert (userProfile w1 = userProfile wf) as Hp1 by (by destruct wf).
  assert (log w1 = log wf) as Hl1 by (by destruct wf).
  destruct (rateMovieW_fields i b w1 Hd1) as (_ & Hn2 & Hs2 & Hp2 & Hq2).
  destruct (drainAborted_deb (rateMovieW i b w1)) as (Hn3 & Ht3 & _).
  destruct (drainAborted_rec (rateMovieW i b w1)) as (_ & Hb3 & Hq3).
  unfold scheduledRefresh in *.
  rewrite Hn3, Ht3, Hb3, Hq3, Hn2, Hs2, Hp2, Hq2, Hn1, Hp1, Hl1, Hq.
  repeat split; try done.
  unfold recsBody in *. injection Hb as Hm Hla Hli Hdi Hwa.
  unfold rateMovie. destruct b; cbn; by rewrite Hm, Hla, Hli, Hdi, Hwa.
Qed.

Lemma rateMovie_recsBody i b p p' :
  recsBody p = recsBody p' → recsBody (rateMovie i b p) = recsBody (rateMovie i b p').
Proof.
  unfold recsBody. intros [= Hm Hla Hli Hdi Hwa].
  unfold rateMovie. destruct b; cbn; by rewrite Hm, Hla, Hli, Hdi, Hwa.
Qed.

Lemma rated_recsBody rs p p' :
  recsBody p = recsBody p' → recsBody (rated rs p) = recsBody (rated rs p').
Proof.
  revert p p'. induction rs as [|[[t i] b] rs IH]; intros p p' H; [done|].
  cbn [rated foldl]. apply IH. by apply rateMovie_recsBody.
Qed.

Lemma run_ratings (rest : list (Z * Z * bool)) (r : Z * Z * bool) (w : World) :
  RefreshInv w → now w ≤ fst (fst r) →
  (∀ d, d ∈ scheduledRefresh w → fst (fst r) < d) →
  rapidRatings (fst (fst r)) rest →
  let w' := run (rateEvents (r :: rest)) w in
  RefreshInv w' ∧ now w' = fst (fst (lastRating r rest)) ∧
  scheduledRefresh w' = [fst (fst (lastRating r rest)) + 400] ∧
  recsBody (userProfile w') = recsBody (rated (r :: rest) (userProfile w)) ∧
  recsRequests (log w') = recsRequests (log w).
Proof.
  cbn zeta. revert r w.
  induction rest as [|r' rest IH]; intros [[t i] b] w Hd Hnow Hlate Hrapid.
  - cbn. by apply rate_step.
  - destruct r' as [[t' i'] b']. cbn [rapidRatings fst] in Hrapid.
    destruct Hrapid as [Hgap Hrapid].
    destruct (rate_step w t i b Hd Hnow Hlate) as (Hd1 & Hn1 & Hs1 & Hb1 & Hq1).
    cbn [rateEvents map run foldl fst snd lastRating rated] in *.
    specialize (IH (t', i', b') (step w (t, ARate i b)) Hd1).
    cbn [rateEvents map run foldl fst snd rated] in IH.
    rewrite <- Hq1.
    destruct IH as (Hd2 & Hn2 & Hs2 & Hb2 & Hq2); [lia| |done|].
    { intros d. rewrite Hs1. intros ->%list_elem_of_singleton. lia. }
    split; [done|]. split; [done|]. split; [done|]. split; [|done].
    rewrite Hb2. apply (rated_recsBody rest). by apply rateMovie_recsBody.
Qed.

Lemma tick_refresh w t :
  (∀ d, d ∈ scheduledRefresh w → d ≤ t) →
  let w' := step w (t, ATick) in
  scheduledRefresh w' = [] ∧
  recsRequests (log w')
  = replicate (length (scheduledRefresh w)) (recsBody (userProfile w))
    ++ recsRequests (log w).
Proof.
  intros Hdue. cbn zeta. unfold step. cbn [fst snd handle].
  destruct (fireDue_refresh t w) as (Hsch & _ & _ & _ & Hq).
  rewrite (filter_all _ (scheduledRefresh w)) in Hq.
  2:{ intros d Hin. apply Z.leb_le. by apply Hdue. }
  rewrite (filter_none _ (scheduledRefresh w)) in Hsch.
  2:{ intros d Hin. apply negb_false_iff, Z.leb_le. by apply Hdue. }
  set (wf := fireDue t w) in *.
  destruct (drainAborted_deb (setNow (now wf `max` t) wf)) as (_ & Ht3 & _).
  destruct (drainAborted_rec (setNow (now wf `max` t) wf)) as (_ & _ & Hq3).
  unfold scheduledRefresh in *. rewrite Ht3, Hq3.
  replace (timers (setNow (now wf `max` t) wf)) with (timers wf) by (by destruct wf).
  replace (log (setNow (now wf `max` t) wf)) with (log wf) by (by destruct wf).
  by rewrite Hsch, Hq.
Qed.

End RefreshSteps.

(** The refresh of the personalised recommendations is debounced.  At any
    point of a run of the client, after ratings that each come less than
    400 ms after the one before (no refresh scheduled before them being due
    yet at the first one), exactly one refresh is pending, 400 ms after the
    last rating, and no request has been made meanwhile; once that time has
    passed exactly one request for personalised recommendations has been
    made, and its body carries the liked and disliked lists as they are
    after all the ratings. *)
Theorem ratings_one_refresh (evs : list (Z * Action)) (r : Z * Z * bool)
    (rest : list (Z * Z * bool)) (T : Z) :
  let w := run evs initialWorld in
  (∀ d, d ∈ scheduledRefresh w → fst (fst r) < d) → now w ≤ fst (fst r) →
  rapidRatings (fst (fst r)) rest →
  fst (fst (lastRating r rest)) + 400 ≤ T →
  let wk := run (rateEvents (r :: rest)) w in
  let w' := step wk (T, ATick) in
  scheduledRefresh wk = [fst (fst (lastRating r rest)) + 400] ∧
  recsRequests (log wk) = recsRequests (log w) ∧
  recsRequests (log w')
  = recsBody (rated (r :: rest) (userProfile w)) :: recsRequests (log w) ∧
  scheduledRefresh w' = [].
Proof.
  cbn zeta. generalize (RefreshInv_reachable evs). generalize (run evs initialWorld).
  intros w Hd Hlate Hnow Hrapid HT.
  destruct (run_ratings rest r w Hd Hnow Hlate Hrapid) as (_ & _ & Hs & Hb & Hq).
  destruct (tick_refresh (run (rateEvents (r :: rest)) w) T) as (Hs' & Hq').
  { intros d. rewrite Hs. intros ->%list_elem_of_singleton. lia. }
  rewrite Hs', Hq', Hs, Hq, Hb. done.
Qed.

Lemma ratings_one_refresh_witness :
  let wk := run (rateEvents [(0, 603, true); (100, 155, false); (300, 603, false)])
                initialWorld in
  scheduledRefresh wk = [700] ∧
  recsRequests (log (step wk (700, ATick)))
  = [ReqUserRecommendations "happy" ["en"] [] [155; 603] []].
Proof.
  cbn zeta.
  destruct (ratings_one_refresh [] (0, 603, true) [(100, 155, false); (300, 603, false)] 700)
    as (Hs & _ & Hq & _).
  - intros d Hin. cbn in Hin. by apply elem_of_nil in Hin.
  - cbn. lia.
  - cbn. lia.
  - cbn. lia.
  - split; [exact Hs | exact Hq].
Defined.

(** At every point of every run of the client at most one refresh of the
    personalised recommendations is pending, and the timer id kept in
    [recsDebounceTimeout] is the id of that refresh: whatever comes next, the
    next rating cancels it. *)
Theorem refresh_at_most_one (evs : list (Z * Action)) :
  let w := run evs initialWorld in
  (length (scheduledRefresh w) ≤ 1)%nat ∧
  (∀ tm, tm ∈ timers w → callback tm = CbUserRecs →
         recsDebounceTimeout w = Some (timerId tm)) ∧
  (∀ t i b, now w ≤ t → (∀ d, d ∈ scheduledRefresh w → t < d) →
            scheduledRefresh (step w (t, ARate i b)) = [t + 400]).
Proof.
  cbn zeta. destruct (RefreshInv_reachable evs) as [Hl Hi]. split; [done|]. split.
  - intros tm Hin Hcb. apply Hi; [done|]. unfold timerRefresh. rewrite Hcb. by eexists.
  - intros t i b Hnow Hlate.
    by destruct (rate_step (run evs initialWorld) t i b (RefreshInv_reachable evs) Hnow Hlate)
      as (_ & _ & Hs & _).
Qed.

Lemma refresh_at_most_one_witness :
  scheduledRefresh (run [(0, ARate 603 true); (50, ARate 603 false)] initialWorld) = [450].
Proof.
  destruct (refresh_at_most_one [(0, ARate 603 true)]) as (_ & _ & H).
  apply (H 50 603 false).
  - cbn. lia.
  - intros d Hin. vm_compute in Hin. apply list_elem_of_singleton in Hin. lia.
Defined.

(** ** Settings, lists and Safe Mode through the flows *)

Create HintDb keep.

Section KeepFrame.

Lemma keepSame_refl w : keepSame w w.
Proof. by split; [|split; intros]. Qed.

Lemma settings_safe_mode p p' : settings p' = settings p → safe_mode p' = safe_mode p.
Proof. unfold settings. by intros [= _ _ -> _ _ _ _]. Qed.

Lemma keepSame_trans w1 w2 w3 : keepSame w1 w2 → keepSame w2 w3 → keepSame w1 w3.
Proof.
  intros (Hs & Hl & Hd) (Hs' & Hl' & Hd'). split; [congruence|]. split; [tauto|].
  intros Hsafe Hdom. apply Hd'; [|by apply Hd].
  by rewrite (settings_safe_mode _ _ Hs).
Qed.

Lemma emit_keep e w : keepSame w (emit e w).
Proof. destruct w. by split; [|split; intros]. Qed.

Lemma setNow_keep t w : keepSame w (setNow t w).
Proof. destruct w. by split; [|split; intros]. Qed.

Lemma setSearchResultCache_keep x w : keepSame w (setSearchResultCache x w).
Proof. destruct w. by split; [|split; intros]. Qed.

Lemma setSuggestionCache_keep x w : keepSame w (setSuggestionCache x w).
Proof. destruct w. by split; [|split; intros]. Qed.

Lemma setCurrentSuggestions_keep x w : keepSame w (setCurrentSuggestions x w).
Proof. destruct w. by split; [|split; intros]. Qed.

Lemma setInflight_keep x n w : keepSame w (setInflight x n w).
Proof. destruct w. by split; [|split; intros]. Qed.

Lemma setController_keep ch x w : keepSame w (setController ch x w).
Proof. destruct w, ch; by split; [|split; intros]. Qed.

Lemma setControllers_keep x w : keepSame w (setControllers x w).
Proof. destruct w. by split; [|split; intros]. Qed.

Lemma setSearchTimeout_keep x w : keepSame w (setSearchTimeout x w).
Proof. destruct w. by split; [|split; intros]. Qed.

Lemma setRecsDebounceTimeout_keep x w : keepSame w (setRecsDebounceTimeout x w).
Proof. destruct w. by split; [|split; intros]. Qed.

Lemma setTimers_keep x n w : keepSame w (setTimers x n w).
Proof. destruct w. by split; [|split; intros]. Qed.

(** A change of the page that leaves the movie containers alone, or empties
    some of them. *)
Lemma updDom_keep f w :
  (∀ d m, m ∈ moviesOnPage (f d) → m ∈ moviesOnPage d) → keepSame w (updDom f w).
Proof.
  intros Hf. destruct w. unfold keepSame, domSafe. wcbn.
  split; [done|]. split; [done|]. intros _ Hd m Hm. by apply Hd, Hf.
Qed.

Lemma moviesOnPage_panel b l d m :
  m ∈ moviesOnPage (setSuggestionsPanel b l d) → m ∈ moviesOnPage d.
Proof. by destruct d. Qed.

Lemma moviesOnPage_searchSection b d m :
  m ∈ moviesOnPage (setSearchSectionHidden b d) → m ∈ moviesOnPage d.
Proof. by destruct d. Qed.

Lemma moviesOnPage_recommendations b d m :
  m ∈ moviesOnPage (setRecommendationsHidden b d) → m ∈ moviesOnPage d.
Proof. by destruct d. Qed.

Lemma moviesOnPage_spinner b d m :
  m ∈ moviesOnPage (setSpinnerHidden b d) → m ∈ moviesOnPage d.
Proof. by destruct d. Qed.

Lemma moviesOnPage_view v d m :
  viewMovies v = [] →
  m ∈ moviesOnPage (setUserRecommendations v d) → m ∈ moviesOnPage d.
Proof.
  intros Hv. destruct d. unfold moviesOnPage. cbn. rewrite Hv, !elem_of_app.
  rewrite elem_of_nil. tauto.
Qed.

Lemma updDom_panel_keep b l w : keepSame w (updDom (setSuggestionsPanel b l) w).
Proof. apply updDom_keep. intros d m. apply moviesOnPage_panel. Qed.

Lemma updDom_panel_same_keep b w :
  keepSame w (updDom (λ d, setSuggestionsPanel b (suggestionsContent d) d) w).
Proof. apply updDom_keep. intros d m. apply moviesOnPage_panel. Qed.

Lemma updDom_searchSection_keep b w : keepSame w (updDom (setSearchSectionHidden b) w).
Proof. apply updDom_keep. intros d m. apply moviesOnPage_searchSection. Qed.

Lemma updDom_recommendations_keep b w :
  keepSame w (updDom (setRecommendationsHidden b) w).
Proof. apply updDom_keep. intros d m. apply moviesOnPage_recommendations. Qed.

Lemma updDom_spinner_keep b w : keepSame w (updDom (setSpinnerHidden b) w).
Proof. apply updDom_keep. intros d m. apply moviesOnPage_spinner. Qed.

Lemma updDom_view_keep v w :
  viewMovies v = [] → keepSame w (updDom (setUserRecommendations v) w).
Proof. intros Hv. apply updDom_keep. intros d m. by apply moviesOnPage_view. Qed.

Lemma updDom_input_keep v b w : keepSame w (updDom (setSearchInput v b) w).
Proof. apply updDom_keep. intros d m. by destruct d. Qed.

Lemma updDom_inputValue_keep v w : keepSame w (updDom (setSearchInputValue v) w).
Proof. apply updDom_keep. intros d m. by destruct d. Qed.

Lemma updDom_inputFocused_keep b w : keepSame w (updDom (setSearchInputFocused b) w).
Proof. apply updDom_keep. intros d m. by destruct d. Qed.

Lemma updDom_hovered_keep b w : keepSame w (updDom (setSuggestionHovered b) w).
Proof. apply updDom_keep. intros d m. by destruct d. Qed.

Lemma addToHistoryW_keep i w : keepSame w (addToHistoryW i w).
Proof.
  unfold addToHistoryW. destruct (negb _); [|apply keepSame_refl].
  destruct w. unfold keepSame, listsInv, disjointRatings. wcbn. cbn.
  split; [done|]. split; [|done]. intros (Hl & Hn & ?).
  split; [by apply addToHistory_length|]. split; [by apply addToHistory_NoDup | done].
Qed.

Lemma filter_take_no_adult (b : bool) (movies : list Movie) (n : nat) (m : Movie) :
  m ∈ take n (List.filter (λ m, negb (b && adult m)) movies) → b = true → adult m = false.
Proof.
  intros Hm%subseteq_take%list_elem_of_In%filter_In ->. destruct Hm as [_ Hm].
  by apply negb_true_iff in Hm.
Qed.

Lemma displayMovies_keep l c w : keepSame w (displayMovies l c w).
Proof.
  unfold displayMovies, displayed, JS.slice0. cbv zeta.
  destruct w as [? ? ? ? ? ? ? ? ? ? ? ? ? ? ? [] ?].
  unfold keepSame, domSafe, moviesOnPage. wcbn.
  split; [done|]. split; [done|]. intros Hs Hd m.
  destruct c; wcbn; rewrite !elem_of_app; intros Hm.
  - destruct Hm as [Hm|Hm]; [by eapply filter_take_no_adult|].
    apply Hd. rewrite !elem_of_app. tauto.
  - destruct Hm as [Hm|[Hm|Hm]]; [|by eapply filter_take_no_adult|];
      apply Hd; rewrite !elem_of_app; tauto.
  - destruct Hm as [Hm|[Hm|Hm]]; [| |by eapply filter_take_no_adult];
      apply Hd; rewrite !elem_of_app; tauto.
Qed.

End KeepFrame.

#[local] Hint Resolve emit_keep setNow_keep setSearchResultCache_keep
  setSuggestionCache_keep setCurrentSuggestions_keep setInflight_keep
  setController_keep setControllers_keep setSearchTimeout_keep
  setRecsDebounceTimeout_keep setTimers_keep addToHistoryW_keep displayMovies_keep
  updDom_panel_keep updDom_panel_same_keep updDom_searchSection_keep
  updDom_recommendations_keep updDom_spinner_keep updDom_view_keep
  updDom_input_keep updDom_inputValue_keep updDom_inputFocused_keep
  updDom_hovered_keep : keep.
#[local] Hint Extern 1 (viewMovies _ = []) => reflexivity : keep.

Ltac keep :=
  repeat first
    [ apply keepSame_refl
    | eapply keepSame_trans; [| solve [auto with keep nocore]]
    | match goal with
      | |- keepSame _ (if ?c then _ else _) => destruct c
      | |- keepSame _ (match ?x with _ => _ end) => destruct x
      end ].

Section KeepFlows.

Lemma hideSuggestions_keep w : keepSame w (hideSuggestions w).
Proof. unfold hideSuggestions. keep. Qed.

Lemma displaySuggestions_keep l w : keepSame w (displaySuggestions l w).
Proof. unfold displaySuggestions. keep. Qed.

Lemma abortIfSet_keep ch w : keepSame w (abortIfSet ch w).
Proof. unfold abortIfSet. keep. Qed.

Lemma newController_keep ch w : keepSame w (newController ch w).
Proof. unfold newController. keep. Qed.

Lemma suspend_keep t w : keepSame w (suspend t w).
Proof. unfold suspend. keep. Qed.

Lemma fetch_keep req s t w : keepSame w (fetch req s t w).
Proof. unfold fetch, suspend. keep. Qed.

Lemma clearTimeout_keep i w : keepSame w (clearTimeout i w).
Proof. unfold clearTimeout. keep. Qed.

Lemma setTimeout_keep cb d w : keepSame w (setTimeout cb d w).
Proof. unfold setTimeout. keep. Qed.

End KeepFlows.

#[local] Hint Resolve hideSuggestions_keep displaySuggestions_keep abortIfSet_keep
  newController_keep suspend_keep fetch_keep clearTimeout_keep setTimeout_keep : keep.

Section KeepHandlers.

Lemma suggestionsLookup_keep q w : keepSame w (suggestionsLookup q w).
Proof. unfold suggestionsLookup. cbv zeta. keep. Qed.

Lemma getSearchSuggestions_keep q w : keepSame w (getSearchSuggestions q w).
Proof.
  unfold getSearchSuggestions. cbv zeta.
  repeat first [ apply suggestionsLookup_keep | progress keep ].
Qed.

Lemma userRecsCallback_keep w : keepSame w (userRecsCallback w).
Proof. unfold userRecsCallback. cbv zeta. keep. Qed.

Lemma suggestionsCatch_keep w : keepSame w (suggestionsCatch w).
Proof. unfold suggestionsCatch. keep. Qed.

Lemma searchCatch_keep w : keepSame w (searchCatch w).
Proof. unfold searchCatch, searchFinally. keep. Qed.

Lemma reject_keep t w : keepSame w (reject t w).
Proof.
  destruct t; cbn [reject];
    first [apply keepSame_refl | apply suggestionsCatch_keep | apply searchCatch_keep].
Qed.

Lemma foldl_reject_keep (ts : list (nat * Task)) (w : World) :
  keepSame w (foldl (λ w rt, reject (snd rt) w) w ts).
Proof.
  revert w. induction ts as [|rt ts IH]; intros w; [apply keepSame_refl|].
  cbn [foldl]. eapply keepSame_trans; [apply (reject_keep (snd rt))|apply IH].
Qed.

Lemma drainAborted_keep w : keepSame w (drainAborted w).
Proof.
  unfold drainAborted. cbv zeta.
  eapply keepSame_trans; [|apply foldl_reject_keep]. apply setInflight_keep.
Qed.

Lemma onFocus_keep v w : keepSame w (onFocus v w).
Proof.
  unfold onFocus. cbv zeta.
  repeat first [ apply getSearchSuggestions_keep | progress keep ].
Qed.

Lemma focusSearchInput_keep w : keepSame w (focusSearchInput w).
Proof.
  unfold focusSearchInput. destruct (searchInputFocused (dom w)); [apply keepSame_refl|].
  eapply keepSame_trans; [|apply onFocus_keep]. keep.
Qed.

Lemma searchResults_keep r w : keepSame w (searchResults r w).
Proof.
  unfold searchResults, searchFinally.
  destruct r as [[|top rest]|]; cbv zeta;
    repeat first [ (eapply keepSame_trans; [|apply focusSearchInput_keep]) | progress keep ].
Qed.

Lemma searchMovies_keep q w : keepSame w (searchMovies q w).
Proof.
  unfold searchMovies. cbv zeta.
  repeat first [ (eapply keepSame_trans; [|apply searchResults_keep]) | progress keep ].
Qed.

Lemma onInput_keep v w : keepSame w (onInput v w).
Proof. unfold onInput. cbv zeta. keep. Qed.

Lemma removeTask_keep r w : keepSame w (removeTask r w).
Proof. unfold removeTask. keep. Qed.

Lemma userRecsResume_keep resp w : keepSame w (userRecsResume resp w).
Proof. unfold userRecsResume. cbv zeta. keep. Qed.

Lemma deliver_keep r resp w : keepSame w (deliver r resp w).
Proof.
  unfold deliver. destruct (findTask r w) as [[]|]; try apply keepSame_refl;
    (eapply keepSame_trans; [apply removeTask_keep|]).
  - unfold suggestionsResume. destruct resp as [[l|]|]; cbv zeta;
      [keep | keep | apply suggestionsCatch_keep].
  - unfold searchResume. destruct resp as [j|]; [|apply searchCatch_keep]. cbv zeta.
    eapply keepSame_trans; [|apply searchResults_keep]. keep.
  - unfold recsResume, searchFinally.
    destruct resp as [[[|m rest]|]|]; cbv zeta; try apply searchCatch_keep; keep.
  - apply userRecsResume_keep.
Qed.

Lemma displayDone_keep r w : keepSame w (displayDone r w).
Proof.
  unfold displayDone. destruct (findTask r w) as [[]|]; try apply keepSame_refl;
    (eapply keepSame_trans; [apply removeTask_keep|]).
  - unfold searchAfterDisplay. cbv zeta. keep.
  - unfold searchFinally. keep.
  - apply keepSame_refl.
Qed.

Lemma setProfile_rateMovie_keep i b w :
  keepSame w (setProfile (rateMovie i b (userProfile w)) w).
Proof.
  destruct w as [? p ? ? ? ? ? ? ? ? ? ? ? ? ? ? ?]. unfold keepSame. wcbn.
  split; [unfold rateMovie; by destruct b|]. split; [|done].
  intros (Hl & Hn & Hli & Hdi & Hdj).
  destruct (rateMovie_NoDup i b p Hli Hdi) as [Hli' Hdi'].
  pose proof (rateMovie_preserves p i b Hdj) as Hdj'.
  unfold listsInv. replace (history (rateMovie i b p)) with (history p)
    by (unfold rateMovie; by destruct b). done.
Qed.

Lemma rateMovieW_keep i b w : keepSame w (rateMovieW i b w).
Proof.
  unfold rateMovieW, loadPersonalizedRecommendations. cbv zeta.
  eapply keepSame_trans; [apply setProfile_rateMovie_keep|]. keep.
Qed.

Lemma handle_keep a w : keepSame w (handle a w).
Proof.
  destruct a; cbn [handle];
    first [ (eapply keepSame_trans; [apply updDom_input_keep | apply onInput_keep])
          | (eapply keepSame_trans; [apply updDom_input_keep | apply onFocus_keep])
          | apply searchMovies_keep
          | apply rateMovieW_keep | apply deliver_keep | apply displayDone_keep
          | (unfold onBlur; keep) | apply updDom_hovered_keep
          | apply keepSame_refl ].
Qed.

Lemma fireTimer_keep w tm : keepSame w (fireTimer w tm).
Proof.
  unfold fireTimer. eapply keepSame_trans; [|apply drainAborted_keep].
  eapply keepSame_trans; [apply setNow_keep|].
  destruct (callback tm); cbn [runCallback].
  - eapply keepSame_trans; [|apply getSearchSuggestions_keep]. apply emit_keep.
  - apply userRecsCallback_keep.
  - keep.
Qed.

Lemma foldl_fireTimer_keep (l : list Timer) (w : World) : keepSame w (foldl fireTimer w l).
Proof.
  revert w. induction l as [|tm l IH]; intros w; [apply keepSame_refl|].
  cbn [foldl]. eapply keepSame_trans; [apply fireTimer_keep | apply IH].
Qed.

Lemma fireDue_keep t w : keepSame w (fireDue t w).
Proof.
  rewrite fireDue_fold. eapply keepSame_trans; [|apply foldl_fireTimer_keep].
  apply setTimers_keep.
Qed.

Lemma step_keep w ev : keepSame w (step w ev).
Proof.
  unfold step. cbv zeta.
  eapply keepSame_trans; [|apply drainAborted_keep].
  eapply keepSame_trans; [|apply handle_keep].
  eapply keepSame_trans; [apply fireDue_keep | apply setNow_keep].
Qed.

Lemma run_keep evs w : keepSame w (run evs w).
Proof.
  revert w. induction evs as [|ev evs IH]; intros w; [apply keepSame_refl|].
  cbn [run foldl]. eapply keepSame_trans; [apply step_keep | apply IH].
Qed.

End KeepHandlers.

(** Safe Mode on the page.  From a state with Safe Mode on and no adult
    title in the three movie containers (search results, recommendations,
    personalised recommendations), whatever the events and whatever the
    server answers, Safe Mode stays on and no adult title is ever put into
    one of these containers: every list goes through the filter of
    [displayMovies].  The suggestion panel is not covered: it shows the
    answer of the server as received. *)
Theorem safe_mode_on_every_page (evs : list (Z * Action)) (w0 : World) :
  safe_mode (userProfile w0) = true → domSafe (dom w0) →
  let w := run evs w0 in
  safe_mode (userProfile w) = true ∧ domSafe (dom w) ∧
  (∀ r key sig results,
     findTask r w = Some (TSuggestFetch key sig) →
     suggestionsContent (dom (deliver r (RJson (JArray results)) w)) = results).
Proof.
  intros Hs Hd. cbn zeta. destruct (run_keep evs w0) as (Hset & _ & Hdom).
  split; [by rewrite (settings_safe_mode _ _ Hset)|]. split; [by apply Hdom|].
  intros r key sig results Hfind. unfold deliver. rewrite Hfind.
  unfold suggestionsResume, removeTask. cbv zeta.
  by destruct (run evs w0) as [? ? ? ? ? ? ? ? ? ? ? ? ? ? ? [] ?].
Qed.

Lemma safe_mode_on_every_page_witness :
  let w := run [(0, ASearch "a");
                (90, AResponse 0 (RJson (JArray
                   [mkMovie 1 "A" true JNull JNull JNull JNull JNull JNull JNull JNull;
                    titled "Avatar" 19995])))] initialWorld in
  domSafe (dom w) ∧ searchMoviesContent (dom w) = [titled "Avatar" 19995].
Proof.
  cbn zeta.
  destruct (safe_mode_on_every_page
    [(0, ASearch "a");
     (90, AResponse 0 (RJson (JArray
        [mkMovie 1 "A" true JNull JNull JNull JNull JNull JNull JNull JNull;
         titled "Avatar" 19995])))] initialWorld) as (_ & Hd & _).
  - reflexivity.
  - intros m Hm. cbn in Hm. by apply elem_of_nil in Hm.
  - split; [exact Hd | vm_compute; reflexivity].
Defined.

(** The profile through the flows.  No search, suggestion query, focus,
    rating, network answer or timer changes the name, the age, Safe Mode,
    the languages, the mood, the region or the watchlist of the profile; and
    when the history has at most 100 ids, none twice, and no id is twice in
    the liked or the disliked movies or in both, this still holds after any
    run of the client.  It holds of the default profile. *)
Theorem flows_keep_profile (evs : list (Z * Action)) (w0 : World) :
  listsInv (userProfile w0) →
  let w := run evs w0 in
  settings (userProfile w) = settings (userProfile w0) ∧ listsInv (userProfile w).
Proof.
  intros Hl. cbn zeta. destruct (run_keep evs w0) as (Hset & Hlists & _).
  split; [done | by apply Hlists].
Qed.

Lemma flows_keep_profile_witness :
  let w := run [(0, ARate 603 true); (10, ASearch "matrix");
                (90, AResponse 0 (RJson (JArray [titled "The Matrix" 603])));
                (95, ARate 603 false)] initialWorld in
  listsInv (userProfile w) ∧ history (userProfile w) = [603] ∧
  disliked_movies (userProfile w) = [603].
Proof.
  cbn zeta.
  destruct (flows_keep_profile
    [(0, ARate 603 true); (10, ASearch "matrix");
     (90, AResponse 0 (RJson (JArray [titled "The Matrix" 603])));
     (95, ARate 603 false)] initialWorld) as (_ & Hl).
  - split; [cbn; lia|]. split; [constructor|]. split; [constructor|].
    split; [constructor|]. intros i Hi. cbn in Hi. by apply elem_of_nil in Hi.
  - split; [exact Hl|]. split; vm_compute; reflexivity.
Defined.

(** ** Request parameters and suggestion posters *)

Section Params.

Import URLSearchParams.

Lemma has_true (k : string) (p : t) : has k p = true ↔ k ∈ map fst p.
Proof.
  unfold has. induction p as [|[k' v'] p IH]; cbn [existsb map fst].
  - split; [done | by intros H%elem_of_nil].
  - rewrite orb_true_iff, elem_of_cons, IH, String.eqb_eq. split; intros [?|?]; auto.
Qed.

Lemma elem_of_drop_key (k : string) (kv : string * string) (p : t) :
  kv ∈ List.filter (λ kv, negb (String.eqb (fst kv) k)) p ↔ kv ∈ p ∧ fst kv ≠ k.
Proof.
  rewrite !list_elem_of_In, filter_In, negb_true_iff, String.eqb_neq. done.
Qed.

Lemma replaceFirst_elem (k v : string) (kv : string * string) (p : t) :
  kv ∈ replaceFirst k v p ↔ (kv = (k, v) ∧ k ∈ map fst p) ∨ (kv ∈ p ∧ fst kv ≠ k).
Proof.
  induction p as [|[k' v'] p IH]; cbn [replaceFirst map fst].
  - rewrite !elem_of_nil. tauto.
  - destruct (String.eqb k' k) eqn:E.
    + apply String.eqb_eq in E as ->.
      rewrite !elem_of_cons, elem_of_drop_key. split.
      * intros [->|[? ?]]; [left; split; [done | by left] | right; tauto].
      * intros [[-> _]|[[->|?] Hne]]; [by left | done | by right].
    + apply String.eqb_neq in E. rewrite !elem_of_cons, IH. split.
      * intros [->|[[-> ?]|[? ?]]]; [right; split; [by left | done] | left | right]; tauto.
      * intros [[-> [?|?]]|[[->|?] ?]]; [congruence | right; left | left | right; right]; tauto.
Qed.

Lemma set_elem (k v : string) (kv : string * string) (p : t) :
  kv ∈ set k v p ↔ kv = (k, v) ∨ (kv ∈ p ∧ fst kv ≠ k).
Proof.
  unfold set. destruct (has k p) eqn:E.
  - apply has_true in E. rewrite replaceFirst_elem. tauto.
  - assert (k ∉ map fst p) as Hk by (rewrite <- has_true; congruence).
    rewrite elem_of_app, list_elem_of_singleton. split.
    + intros [Hin| ->]; [|by left]. right. split; [done|]. intros <-.
      apply Hk, list_elem_of_fmap. by exists kv.
    + intros [->|[? ?]]; [by right | by left].
Qed.

Lemma drop_key_keys (k : string) (p : t) :
  NoDup (map fst p) →
  NoDup (map fst (List.filter (λ kv, negb (String.eqb (fst kv) k)) p)) ∧
  ∀ x, x ∈ map fst (List.filter (λ kv, negb (String.eqb (fst kv) k)) p) →
       x ∈ map fst p ∧ x ≠ k.
Proof.
  induction p as [|[k' v'] p IH]; cbn [List.filter map fst].
  - intros _. split; [constructor | by intros x H%elem_of_nil].
  - intros [Hk' Hp]%NoDup_cons. destruct (IH Hp) as [Hn Hsub].
    destruct (String.eqb k' k) eqn:E; cbn [negb map fst].
    + split; [done|]. intros x Hx. destruct (Hsub x Hx). split; [by right | done].
    + apply String.eqb_neq in E. split.
      * apply NoDup_cons. split; [|done]. intros Hin. by destruct (Hsub k' Hin).
      * intros x [->|Hx]%elem_of_cons; [split; [by left | done]|].
        destruct (Hsub x Hx). split; [by right | done].
Qed.

Lemma replaceFirst_keys (k v : string) (p : t) :
  NoDup (map fst p) →
  NoDup (map fst (replaceFirst k v p)) ∧
  ∀ x, x ∈ map fst (replaceFirst k v p) → x ∈ map fst p.
Proof.
  induction p as [|[k' v'] p IH]; cbn [replaceFirst map fst]; [done|].
  intros [Hk' Hp]%NoDup_cons. destruct (String.eqb k' k) eqn:E.
  - apply String.eqb_eq in E as ->. destruct (drop_key_keys k p Hp) as [Hn Hsub].
    cbn [map fst]. split.
    + apply NoDup_cons. split; [|done]. intros Hin. by destruct (Hsub k Hin).
    + intros x [->|Hx]%elem_of_cons; [by left|]. right. by apply Hsub.
  - destruct (IH Hp) as [Hn Hsub]. cbn [map fst]. split.
    + apply NoDup_cons. split; [|done]. intros Hin. by apply Hk', Hsub.
    + intros x [->|Hx]%elem_of_cons; [by left|]. right. by apply Hsub.
Qed.

Lemma set_keys (k v : string) (p : t) : NoDup (map fst p) → NoDup (map fst (set k v p)).
Proof.
  intros Hp. unfold set. destruct (has k p) eqn:E.
  - by apply replaceFirst_keys.
  - assert (k ∉ map fst p) as Hk by (rewrite <- has_true; congruence).
    rewrite map_app. cbn [map fst]. apply NoDup_app. split; [done|].
    split; [|apply NoDup_singleton]. by intros x Hx ->%list_elem_of_singleton.
Qed.

End Params.

(** The requests built by [buildApiUrl] (trending and top-rated lists):
    whatever the additional parameters, each parameter name occurs once in
    the query string; there is always a limit, which is 10 unless the caller
    gives one; and unless the caller gives a safe_mode parameter of its own,
    safe_mode=true is sent exactly when Safe Mode is on in the profile.  An
    additional parameter whose value is [null], [undefined] or empty is not
    sent. *)
Theorem buildApiUrl_params (endpoint : string) (p : Profile)
    (additionalParams : list (string * option string)) :
  let params := buildApiParams p additionalParams in
  buildApiUrl endpoint p additionalParams
  = BACKEND_BASE_URL +:+ "/" +:+ endpoint +:+ "?" +:+ URLSearchParams.toString params ∧
  NoDup (map fst params) ∧
  "limit" ∈ map fst params ∧
  ("limit" ∉ map fst additionalParams → ("limit", "10") ∈ params) ∧
  ("safe_mode" ∉ map fst additionalParams →
   (("safe_mode", "true") ∈ params ↔ safe_mode p = true) ∧
   ("safe_mode" ∈ map fst params ↔ safe_mode p = true)) ∧
  (∀ k v, (k, v) ∈ params → k ∉ ["safe_mode"; "languages"; "limit"] →
          (k, Some v) ∈ additionalParams ∧ v ≠ "").
Proof.
  cbn zeta. split; [done|]. unfold buildApiParams. cbv zeta.
  set (base := URLSearchParams.set "limit" "10" _).
  assert (Hbase : NoDup (map fst base) ∧ ("limit", "10") ∈ base ∧
            (("safe_mode", "true") ∈ base ↔ safe_mode p = true) ∧
            ("safe_mode" ∈ map fst base ↔ safe_mode p = true) ∧
            (∀ k v, (k, v) ∈ base → k ∈ ["safe_mode"; "languages"; "limit"])).
  { subst base. split; [|split; [|split; [|split]]].
    - apply set_keys. destruct (0 <? _); [apply set_keys|];
        (destruct (safe_mode p); [apply set_keys|]); constructor.
    - apply set_elem. by left.
    - destruct (safe_mode p), (0 <? _); cbn; rewrite ?elem_of_cons, ?elem_of_nil;
        split; intros H; try done; try tauto;
        repeat (destruct H as [H|H]; try discriminate H); done.
    - destruct (safe_mode p), (0 <? _); cbn; rewrite ?elem_of_cons, ?elem_of_nil;
        split; intros H; try done; try tauto;
        repeat (destruct H as [H|H]; try discriminate H); done.
    - intros k v. destruct (safe_mode p), (0 <? _); cbn;
        rewrite ?elem_of_cons, ?elem_of_nil; intros H;
        repeat (destruct H as [H|H]; [injection H as -> _; tauto|]); done. }
  revert Hbase. generalize base. clear base.
  induction additionalParams as [|[k [v|]] extra IH] using rev_ind;
    intros base (Hn & Hl & Hs & Hsk & Hk).
  - cbn [foldl map]. split; [done|]. split.
    { apply list_elem_of_fmap. by exists ("limit", "10"). }
    split; [done|]. split; [done|]. intros k v Hin Hnot. by apply Hk in Hin.
  - rewrite foldl_app, map_app. cbn [foldl snd fst map].
    destruct (IH base ltac:(done)) as (Hn' & Hl' & Hlim' & Hs' & Hk'). clear IH.
    set (params := foldl _ base extra) in *.
    destruct (JS.truthy v) eqn:Ev.
    + split; [by apply set_keys|]. split; [|split; [|split]].
      * apply list_elem_of_fmap in Hl' as [[k0 v0] [Hk0 Hin]]. cbn in Hk0. subst k0.
        apply list_elem_of_fmap. destruct (decide (k = "limit")) as [->|Hne].
        -- exists ("limit", v). split; [done|]. apply set_elem. by left.
        -- exists ("limit", v0). split; [done|]. apply set_elem. right. by split; [|cbn; congruence].
      * rewrite not_elem_of_app, not_elem_of_cons. intros [Hlim [Hne _]].
        apply set_elem. right. split; [by apply Hlim' | cbn; congruence].
      * rewrite not_elem_of_app, not_elem_of_cons. intros [Hsafe [Hne _]].
        destruct (Hs' Hsafe) as [H1 H2]. split.
        -- rewrite set_elem, <- H1. cbn. split; [intros [[= ? ?]|[? ?]]; [congruence|done] | right; split; [done|congruence]].
        -- rewrite <- H2. rewrite !list_elem_of_fmap. split.
           ++ intros [[k0 v0] [Hk0 [[= -> ->]|[Hin _]]%set_elem]]; [cbn in Hk0; congruence|].
              by exists (k0, v0).
           ++ intros [[k0 v0] [Hk0 Hin]]. exists (k0, v0). split; [done|].
              apply set_elem. right. split; [done|]. cbn in *. congruence.
      * intros k0 v0 [[= -> ->]|[Hin _]]%set_elem Hnot.
        -- split; [apply elem_of_app; right; by left|].
           intros ->. cbn in Ev. discriminate Ev.
        -- destruct (Hk' k0 v0 Hin Hnot) as [? ?]. split; [apply elem_of_app; by left | done].
    + split; [done|]. split; [done|]. split; [|split].
      * rewrite not_elem_of_app. intros [Hlim _]. by apply Hlim'.
      * rewrite not_elem_of_app. intros [Hsafe _]. by apply Hs'.
      * intros k0 v0 Hin Hnot. destruct (Hk' k0 v0 Hin Hnot) as [? ?].
        split; [apply elem_of_app; by left | done].
  - rewrite foldl_app, map_app. cbn [foldl snd fst map].
    destruct (IH base ltac:(done)) as (Hn' & Hl' & Hlim' & Hs' & Hk'). clear IH.
    split; [done|]. split; [done|]. split; [|split].
    + rewrite not_elem_of_app. intros [Hlim _]. by apply Hlim'.
    + rewrite not_elem_of_app. intros [Hsafe _]. by apply Hs'.
    + intros k0 v0 Hin Hnot. destruct (Hk' k0 v0 Hin Hnot) as [? ?].
      split; [apply elem_of_app; by left | done].
Qed.

Lemma buildApiUrl_params_witness :
  buildApiUrl "trending" defaultProfile
              [("page", Some "2"); ("genre", None); ("limit", Some "20")]
  = "http://127.0.0.1:8000/trending?safe_mode=true&languages=en&limit=20&page=2" ∧
  ("safe_mode", "true")
    ∈ buildApiParams defaultProfile [("page", Some "2"); ("genre", None); ("limit", Some "20")].
Proof.
  destruct (buildApiUrl_params "trending" defaultProfile
              [("page", Some "2"); ("genre", None); ("limit", Some "20")])
    as (_ & _ & _ & _ & Hsafe & _).
  split; [vm_compute; reflexivity|]. apply Hsafe; [|reflexivity].
  cbn [map fst]. rewrite !not_elem_of_cons.
  repeat split; try discriminate. apply not_elem_of_nil.
Defined.

Section SuggestionPosters.

Lemma startsWith_cons (c : ascii) (s p : string) :
  JS.startsWith (String c s) p = true → ∃ p', p = String c p' ∧ JS.startsWith s p' = true.
Proof.
  unfold JS.startsWith. destruct p as [|c' p']; cbn [String.prefix]; [done|].
  destruct (ascii_dec c c') as [->|]; [|done]. intros H. by exists p'.
Qed.

Lemma length_append (s1 s2 : string) :
  String.length (s1 +:+ s2) = (String.length s1 + String.length s2)%nat.
Proof. induction s1 as [|c s1 IH]; [done|]. rewrite append_cons. cbn. by rewrite IH. Qed.

Lemma posterLoop_head (c : jsval) (rest : list jsval) :
  jsTruthy c = true → skippedRaw (JS.trim (jsToString c)) = false →
  posterLoop (c :: rest) = Some (posterFromRaw (JS.trim (jsToString c))).
Proof. intros Hc Hs. cbn [posterLoop]. by rewrite Hc, Hs. Qed.

End SuggestionPosters.

(** The suggestion panel builds its posters with [getPosterUrl], the movie
    cards with [getMoviePoster].  On a poster path as TMDB gives it (a
    trimmed text that starts with one "/") the two agree; on a poster given
    as an absolute URL [getMoviePoster] answers the URL itself while
    [getPosterUrl] puts the TMDB image root in front of it, so that the two
    differ. *)
Theorem getPosterUrl_agreement (m : Movie) (p : string) :
  poster_path m = JStr p → JS.trim p = p →
  (JS.startsWith "/" p = true → JS.startsWith "//" p = false →
   JS.includes "image.tmdb.org" p = false →
   getMoviePoster (ArgObject m) = getPosterUrl (poster_path m) ∧
   getPosterUrl (poster_path m) = IMAGE_BASE_URL +:+ p) ∧
  (JS.startsWith "http" p = true →
   getMoviePoster (ArgObject m) = p ∧
   getPosterUrl (poster_path m) = IMAGE_BASE_URL +:+ p ∧
   getPosterUrl (poster_path m) ≠ getMoviePoster (ArgObject m)).
Proof.
  intros Hp Ht. cbn [getMoviePoster]. unfold candidates. rewrite Hp.
  cbn [getPosterUrl]. split.
  - intros (p' & -> & _)%startsWith_cons H2 Hinc.
    rewrite posterLoop_head; cbn [jsTruthy jsToString JS.truthy]; rewrite ?Ht;
      [|reflexivity..].
    unfold posterFromRaw. rewrite H2, Hinc.
    assert (E1 : JS.startsWith "data:image" (String "/" p') = false) by reflexivity.
    assert (E2 : JS.startsWith "http" (String "/" p') = false) by reflexivity.
    assert (E3 : JS.startsWith "/" (String "/" p') = true) by (by destruct p').
    by rewrite E1, E2, E3.
  - intros H. pose proof H as (p1 & -> & _)%startsWith_cons.
    rewrite posterLoop_head; cbn [jsTruthy jsToString JS.truthy]; rewrite ?Ht;
      [|reflexivity..].
    unfold posterFromRaw. rewrite H.
    assert (E1 : JS.startsWith "data:image" (String "h" p1) = false) by reflexivity.
    rewrite E1. split; [done|]. split; [done|]. intros Heq.
    apply (f_equal String.length) in Heq. rewrite length_append in Heq.
    cbn in Heq. lia.
Qed.

Lemma getPosterUrl_agreement_witness :
  let m := mkMovie 603 "The Matrix" false (JStr "/f89U3ADr1oiB1s9GkdPOEpXUk5H.jpg")
                   JUndefined JUndefined JUndefined JUndefined JUndefined JUndefined
                   JUndefined in
  getMoviePoster (ArgObject m) = getPosterUrl (poster_path m) ∧
  getPosterUrl (poster_path m)
  = "https://image.tmdb.org/t/p/w500/f89U3ADr1oiB1s9GkdPOEpXUk5H.jpg".
Proof.
  cbn zeta.
  destruct (getPosterUrl_agreement
    (mkMovie 603 "The Matrix" false (JStr "/f89U3ADr1oiB1s9GkdPOEpXUk5H.jpg")
             JUndefined JUndefined JUndefined JUndefined JUndefined JUndefined JUndefined)
    "/f89U3ADr1oiB1s9GkdPOEpXUk5H.jpg" eq_refl eq_refl) as [H _].
  destruct H as [Heq Hurl]; [reflexivity..|].
  split; [exact Heq|]. rewrite Hurl. reflexivity.
Defined.

(** ** The loading spinner *)

Section Spinner.

Lemma reject_spinner t w :
  spinnerHidden (dom w) = true ∨ isSearchTask t = true →
  spinnerHidden (dom (reject t w)) = true.
Proof.
  destruct w as [? ? ? ? ? ? ? ? ? ? ? ? ? ? ? [] ?].
  destruct t; cbn [reject isSearchTask]; unfold suggestionsCatch, searchCatch, searchFinally;
    wcbn; intros [H|H]; done.
Qed.

Lemma foldl_reject_spinner (ts : list (nat * Task)) (w : World) :
  spinnerHidden (dom w) = true ∨ (∃ rt, rt ∈ ts ∧ isSearchTask (snd rt) = true) →
  spinnerHidden (dom (foldl (λ w rt, reject (snd rt) w) w ts)) = true.
Proof.
  revert w. induction ts as [|rt ts IH]; intros w H.
  - destruct H as [H|(rt & Hin & _)]; [done | by apply elem_of_nil in Hin].
  - cbn [foldl]. apply IH. destruct H as [H|(rt' & [->|Hin]%elem_of_cons & Hs)].
    + left. apply reject_spinner. by left.
    + left. apply reject_spinner. by right.
    + right. by exists rt'.
Qed.

Lemma searchMovies_miss_pending (w : World) (q : string) :
  JS.trim q ≠ "" →
  cacheLookup (searchResultCache w)
    (searchCacheKey q (language (userProfile w)) (safe_mode (userProfile w)))
    (now w) = None →
  let w' := searchMovies q w in
  let new := TSearchFetch (searchCacheKey q (language (userProfile w))
                                          (safe_mode (userProfile w)))
                          (Some (length (controllers w))) in
  inflight w' = inflight w ++ [(nextRequest w, new)] ∧
  isAborted (length (controllers w)) w' = false.
Proof.
  intros Hq%truthy_nonempty Hmiss. cbn zeta.
  unfold searchMovies, searchCacheKey, isAborted in *. rewrite Hq.
  destruct w as [? ? ? ? ? ? sc rc ctl ? ? ? ? ? ? [] ?].
  destruct sc as [c1|], rc as [c2|]; wcbn; rewrite Hmiss; wcbn;
    rewrite ?length_insert; (split; [done|]);
    by rewrite lookup_app_r, ?length_insert, Nat.sub_diag by (rewrite ?length_insert; lia).
Qed.

End Spinner.

(** The spinner does not follow the search.  When a search is started while
    an earlier search request (or the recommendation request chained to it)
    is still pending, the earlier one is rejected and its [finally] block
    hides the loading spinner that the new search has just shown: the new
    request is pending, made with a live controller, and the spinner is
    hidden. *)
Theorem superseding_search_hides_spinner (w : World) (r c : nat) (task : Task)
    (q : string) :
  JS.trim q ≠ "" →
  isSearchTask task = true → taskSignal task = Some c →
  searchController w = Some c ∨ recsController w = Some c →
  (c < length (controllers w))%nat →
  (r, task) ∈ inflight w →
  cacheLookup (searchResultCache w)
    (searchCacheKey q (language (userProfile w)) (safe_mode (userProfile w)))
    (now w) = None →
  let w' := drainAborted (searchMovies q w) in
  spinnerHidden (dom w') = true ∧
  (nextRequest w,
   TSearchFetch (searchCacheKey q (language (userProfile w)) (safe_mode (userProfile w)))
                (Some (length (controllers w)))) ∈ inflight w' ∧
  isAborted (length (controllers w)) w' = false.
Proof.
  intros Hq Hst Hsig Hc Hlt Hin Hmiss. cbn zeta.
  destruct (searchMovies_supersedes w c q Hq Hc Hlt) as [Hab _].
  destruct (searchMovies_miss_pending w q Hq Hmiss) as [Hinf Hlive].
  cbn zeta in Hinf, Hlive.
  split; [|split].
  - unfold drainAborted. cbv zeta. apply foldl_reject_spinner. right.
    exists (r, task). split; [|done].
    apply list_elem_of_In, filter_In. split.
    + apply list_elem_of_In. rewrite Hinf. apply elem_of_app. by left.
    + cbn [snd]. unfold taskAborted. by rewrite Hsig.
  - rewrite drainAborted_inflight. apply list_elem_of_In, filter_In. split.
    + apply list_elem_of_In. rewrite Hinf. apply elem_of_app. right. by left.
    + cbn [snd]. unfold taskAborted. cbn [taskSignal]. by rewrite Hlive.
  - unfold isAborted in *. unfold drainAborted. cbv zeta.
    assert (∀ (ts : list (nat * Task)) w0,
              controllers (foldl (λ w rt, reject (snd rt) w) w0 ts) = controllers w0)
      as Hctl.
    { induction ts as [|rt ts IH]; intros w0; [done|]. cbn [foldl]. rewrite IH.
      apply reject_inflight. }
    rewrite Hctl. by destruct (searchMovies q w).
Qed.

Lemma superseding_search_hides_spinner_witness :
  let w := run [(0, ASearch "matrix")] initialWorld in
  let w' := drainAborted (searchMovies "inception" w) in
  spinnerHidden (dom w) = false ∧ spinnerHidden (dom w') = true ∧
  inflight w' = [(1%nat, TSearchFetch (searchCacheKey "inception" ["en"] true) (Some 1%nat))].
Proof.
  cbn zeta.
  destruct (superseding_search_hides_spinner (run [(0, ASearch "matrix")] initialWorld)
              0%nat 0%nat (TSearchFetch (searchCacheKey "matrix" ["en"] true) (Some 0%nat))
              "inception") as (Hsp & _ & _).
  - discriminate.
  - reflexivity.
  - reflexivity.
  - left. vm_compute. reflexivity.
  - vm_compute. lia.
  - vm_compute. by left.
  - vm_compute. reflexivity.
  - split; [vm_compute; reflexivity|]. split; [exact Hsp | vm_compute; reflexivity].
Defined.

(** ** A superseded search, on a run *)

Lemma superseded_search_dropped_witness :
  let w := run [(0, ASearch "matrix")] initialWorld in
  let w' := drainAborted (searchMovies "inception" w) in
  findTask 0%nat w' = None ∧
  deliver 0%nat (RJson (JArray [titled "The Matrix" 603])) w' = w'.
Proof.
  cbn zeta.
  destruct (superseded_search_dropped (run [(0, ASearch "matrix")] initialWorld)
              0%nat 0%nat (TSearchFetch (searchCacheKey "matrix" ["en"] true) (Some 0%nat))
              "inception") as (Hnone & Hdrop).
  - discriminate.
  - reflexivity.
  - left. vm_compute. reflexivity.
  - vm_compute. lia.
  - vm_compute. lia.
  - intros t Hin. vm_compute in Hin. apply list_elem_of_singleton in Hin.
    injection Hin as ->. reflexivity.
  - split; [exact Hnone | apply Hdrop].
Defined.

(** ** The history and the search *)

Section SearchHistory.

Lemma searchResults_history top rest w :
  history (userProfile (searchResults (JArray (top :: rest)) w))
  = addToHistory_list (id top) (history (userProfile w)).
Proof.
  unfold searchResults, addToHistoryW, displayMovies. cbv zeta.
  destruct (includesId (id top) (history (userProfile w))) eqn:E; cbn [negb].
  - apply includesId_true in E. rewrite (addToHistory_present _ _ E). by destruct w.
  - by destruct w.
Qed.

Lemma addToHistory_list_elem (i j : Z) (h : list Z) :
  i ∈ addToHistory_list i h ∧ (j ∈ addToHistory_list i h → j = i ∨ j ∈ h).
Proof.
  destruct (decide (i ∈ h)) as [Hi|Hi].
  - rewrite addToHistory_present by done. split; [done | by right].
  - rewrite addToHistory_absent by done. split; [cbn; by left|].
    intros Hj%subseteq_take. by apply elem_of_cons in Hj.
Qed.

End SearchHistory.

(** A search that finds something records its first result in the viewing
    history, whether the answer comes from the network or from the cache,
    and whether or not the user opens the movie; nothing else is added to
    the history. *)
Theorem search_records_top_result (w : World) (top : Movie) (rest : list Movie) :
  (∀ r key sig,
     findTask r w = Some (TSearchFetch key sig) →
     let w' := deliver r (RJson (JArray (top :: rest))) w in
     id top ∈ history (userProfile w') ∧
     ∀ j, j ∈ history (userProfile w') → j = id top ∨ j ∈ history (userProfile w)) ∧
  (∀ query,
     JS.trim query ≠ "" →
     cacheLookup (searchResultCache w)
       (searchCacheKey query (language (userProfile w)) (safe_mode (userProfile w)))
       (now w) = Some (JArray (top :: rest)) →
     let w' := searchMovies query w in
     id top ∈ history (userProfile w') ∧
     ∀ j, j ∈ history (userProfile w') → j = id top ∨ j ∈ history (userProfile w)).
Proof.
  split.
  - intros r key sig Hfind. cbn zeta. unfold deliver. rewrite Hfind.
    unfold searchResume. cbv zeta. rewrite searchResults_history.
    replace (history (userProfile _)) with (history (userProfile w)) by (by destruct w).
    split; [apply (addToHistory_list_elem _ 0) | intros j; apply addToHistory_list_elem].
  - intros query Hq Hhit. cbn zeta.
    destruct (searchMovies_hit query _ w Hq Hhit) as (w0 & -> & _ & Hp & _).
    rewrite searchResults_history, Hp.
    split; [apply (addToHistory_list_elem _ 0) | intros j; apply addToHistory_list_elem].
Qed.

Lemma search_records_top_result_witness :
  let w := run [(0, ASearch "matrix")] initialWorld in
  history (userProfile w) = [] ∧
  603 ∈ history (userProfile (deliver 0%nat (RJson (JArray [titled "The Matrix" 603])) w)).
Proof.
  cbn zeta.
  destruct (search_records_top_result (run [(0, ASearch "matrix")] initialWorld)
              (titled "The Matrix" 603) []) as [Hnet _].
  split; [vm_compute; reflexivity|].
  apply (Hnet 0%nat (searchCacheKey "matrix" ["en"] true) (Some 0%nat)).
  vm_compute. reflexivity.
Defined.

(** ** Poster enrichment *)

Section Enrichment.



Lemma enrichFrom_id data m : id (enrichFrom data m) = id m ∧ adult (enrichFrom data m) = adult m.
Proof. done. Qed.








End Enrichment.


